(** * DAWlite: playback and editing core

    A shallow embedding of the clip/track model, the edit-gesture handlers,
    the transport scheduler, the channel-graph composer, the offline export
    planner and the project store migration of the DAWlite sources
    ([src/types.ts], [src/components/DAWContainer.tsx],
    [src/components/ChannelStrip.tsx], [src/services/IndexedDB.ts]),
    together with the track, clipboard, import, zoom and startup handlers of
    the container, the effects list and its controls
    ([src/components/ChannelStripDetail.tsx], [src/components/ui/Knob.tsx]),
    the metering path ([MeterNode], [volume-meter-processor.js]) and the
    waveform renderer ([src/components/ui/Waveform.tsx]).

    Numbers.  The TypeScript sources compute with [number] (seconds, linear
    amplitudes), that is with IEEE 754 binary64.  A finite number is embedded
    as the rational [Q] it denotes; ordering, [max], [min], [ceil], [round]
    and the remainder are exact on these.  Where a statement gives the
    formula a handler evaluates, [+], [-], [*] and [/] are written as the
    exact operations.  Where a statement relates the results of different
    operations (the two halves of a split), the operations are the rounded
    ones, [Js.add] and [Js.sub]: the exact result rounded to the nearest
    binary64 number, ties to even ([Js.round64]).  Infinity is not
    represented ([Js.round64] has no largest exponent), NaN only as the
    missing result of [Js.rem].  Arithmetic identities are stated with [==]
    ([Qeq]); structural facts (a field is copied, a list is unchanged) are
    stated with Leibniz equality.

    React state.  A handler reads the state of the render it was created in
    and publishes a new one.  A handler called from the current render is
    embedded as a function from the state it reads to the state it
    publishes.  A callback that outlives its render (the frame callback of
    the position cycle, the window listeners of a clip gesture, a
    [useCallback] with an empty dependency list) takes the state it captured
    as a separate argument: it reads the [useState] cells from there, while
    the [useRef] cells and the setters are those of the running component. *)

From Stdlib Require Import QArith Qminmax Qround Qabs Qpower Lqa Lia List Bool
  Ascii.
From stdpp Require Import gmap strings pretty.
Import ListNotations.
Open Scope Q_scope.

(** ** JavaScript number primitives *)

Module Js.

(** [a > b] *)
Definition gt (a b : Q) : bool := if Qlt_le_dec b a then true else false.
(** [a >= b] *)
Definition ge (a b : Q) : bool := if Qlt_le_dec a b then false else true.
(** [a <= b] *)
Definition le (a b : Q) : bool := ge b a.
(** [a === b] on numbers *)
Definition eq (a b : Q) : bool := Qeq_bool a b.

(** [Math.max(a, b)] and [Math.min(a, b)] *)
Definition Math_max (a b : Q) : Q := if Qlt_le_dec a b then b else a.
Definition Math_min (a b : Q) : Q := if Qlt_le_dec b a then b else a.

(** [Math.ceil(x)], as an integer *)
Definition Math_ceil (x : Q) : Z := Qceiling x.

(** [Math.round(x)]: the nearest integer, ties towards +infinity *)
Definition Math_round (x : Q) : Z := Qfloor (x + (1 # 2)).

(** [a % b]: the remainder of the division truncated towards zero,
    [a - b * trunc (a / b)]; for [b = 0] the result is NaN, here [None]. *)
Definition trunc (x : Q) : Z := Z.quot (Qnum x) (Zpos (Qden x)).
Definition rem (a b : Q) : option Q :=
  if Qeq_bool b 0 then None else Some (a - b * inject_Z (trunc (a / b))).

(** Rounding to binary64.  [floor_log2 x], for [0 < x], is the [e] with
    [2^e <= x < 2^(e+1)]; a number of that size is a multiple of
    [2^(e - 52)] (53 significant bits), and of [2^(-1074)] at least (the
    subnormal numbers); [round64] takes the nearest such multiple, the one
    with the even multiplier when two are equally near. *)
Definition pow2 (e : Z) : Q := Qpower 2 e.

Definition floor_log2 (x : Q) : Z :=
  let k := (Z.log2 (Qnum x) - Z.log2 (Zpos (Qden x)))%Z in
  if Qle_bool (pow2 k) x then k else (k - 1)%Z.

Definition ulp_exponent (x : Q) : Z :=
  Z.max (floor_log2 (Qabs x) - 52) (-1074).

Definition round_half_even (x : Q) : Z :=
  let f := Qfloor x in
  match Qcompare (x - inject_Z f) (1 # 2) with
  | Lt => f
  | Gt => (f + 1)%Z
  | Eq => if Z.even f then f else (f + 1)%Z
  end.

Definition round64 (x : Q) : Q :=
  let e := ulp_exponent x in
  Qred (inject_Z (round_half_even (x / pow2 e)) * pow2 e).

(** [a + b] and [a - b] as the machine computes them. *)
Definition add (a b : Q) : Q := round64 (a + b).
Definition sub (a b : Q) : Q := round64 (a - b).

(** [Number.EPSILON], [Number.MIN_VALUE], and the largest distance between
    a rational and its rounding: half a unit in the last place. *)
Definition EPSILON : Q := pow2 (-52).
Definition MIN_VALUE : Q := pow2 (-1074).
Definition rounding_error (x : Q) : Q := (Qabs x * EPSILON + MIN_VALUE) / 2.

End Js.

(** ** Data model ([src/types.ts]) *)

Record EQSettings := {
  frequency : Q;
  gain : Q;
  q : Q
}.

Record CompressorSettings := {
  threshold : Q;
  ratio : Q;
  attack : Q;
  release : Q;
  knee : Q
}.

(** The tagged union [{type: 'EQ', params} | {type: 'Compressor', params}]. *)
Inductive EffectKind :=
| EQ (params : EQSettings)
| Compressor (params : CompressorSettings).

Record Effect := {
  effect_id : string;
  effect_kind : EffectKind
}.

Record AudioClip := {
  clipId : string;
  fileId : string;
  clip_name : string;
  startTime : Q;
  startOffset : Q;
  duration : Q;
  sourceDuration : Q;
  isSelected : bool
}.

Inductive TrackType := audio | midi.

Record Track := {
  id : Z;
  name : string;
  trackType : TrackType;
  volume : Q;
  pan : Q;
  isMuted : bool;
  isSoloed : bool;
  effects : list Effect;
  clips : list AudioClip
}.

Record LoopRegion := {
  loop_start : Q;
  loop_end : Q
}.

Record ProjectState := {
  tracks : list Track;
  loopRegion : option LoopRegion
}.

Global Instance TrackType_eq_dec : EqDecision TrackType.
Proof. solve_decision. Defined.

(** Object-spread updates [{...clip, field: v}] and [{...track, clips}]. *)
Definition set_startTime (v : Q) (c : AudioClip) : AudioClip :=
  {| clipId := clipId c; fileId := fileId c; clip_name := clip_name c;
     startTime := v; startOffset := startOffset c; duration := duration c;
     sourceDuration := sourceDuration c; isSelected := isSelected c |}.

Definition set_startOffset (v : Q) (c : AudioClip) : AudioClip :=
  {| clipId := clipId c; fileId := fileId c; clip_name := clip_name c;
     startTime := startTime c; startOffset := v; duration := duration c;
     sourceDuration := sourceDuration c; isSelected := isSelected c |}.

Definition set_duration (v : Q) (c : AudioClip) : AudioClip :=
  {| clipId := clipId c; fileId := fileId c; clip_name := clip_name c;
     startTime := startTime c; startOffset := startOffset c; duration := v;
     sourceDuration := sourceDuration c; isSelected := isSelected c |}.

Definition set_isSelected (v : bool) (c : AudioClip) : AudioClip :=
  {| clipId := clipId c; fileId := fileId c; clip_name := clip_name c;
     startTime := startTime c; startOffset := startOffset c;
     duration := duration c; sourceDuration := sourceDuration c;
     isSelected := v |}.

Definition set_clips (v : list AudioClip) (t : Track) : Track :=
  {| id := id t; name := name t; trackType := trackType t;
     volume := volume t; pan := pan t; isMuted := isMuted t;
     isSoloed := isSoloed t; effects := effects t; clips := v |}.

Definition set_tracks (v : list Track) (p : ProjectState) : ProjectState :=
  {| tracks := v; loopRegion := loopRegion p |}.

Definition set_loopRegion (v : option LoopRegion) (p : ProjectState)
  : ProjectState :=
  {| tracks := tracks p; loopRegion := v |}.

(** The clip geometry invariants of the data model, with tolerance [eps]. *)
Definition clip_inv (eps : Q) (c : AudioClip) : Prop :=
  0 <= startOffset c /\ 0 < duration c /\
  startOffset c + duration c <= sourceDuration c + eps.

(** Everything but the three geometry fields. *)
Definition same_identity (c c' : AudioClip) : Prop :=
  clipId c' = clipId c /\ fileId c' = fileId c /\ clip_name c' = clip_name c /\
  sourceDuration c' = sourceDuration c /\ isSelected c' = isSelected c.

(** ** Constants of [DAWContainer.tsx] *)

Definition SONG_DURATION_SECONDS : Q := 240.
Definition BPM : Q := 120.
Definition SECONDS_PER_BEAT : Q := 60 / BPM.
Definition NUDGE_AMOUNT : Q := 1 # 100.

Definition INITIAL_PIXELS_PER_SECOND : Q := 100.

(** ** Component state of [DAWContainer] *)

(** A decoded [AudioBuffer]; only its [duration] is read by the core. *)
Record AudioBuffer := {
  buffer_duration : Q
}.

(** An [AudioBufferSourceNode] after [source.start(when, offset, duration)]:
    the buffer it plays (named by the file it was decoded from) and the three
    arguments of [start]. *)
Record SourceNode := {
  source_buffer : string;
  source_when : Q;
  source_offset : Q;
  source_duration : Q
}.

Inductive ClipEditType := move | trim_start | trim_end.

(** The union type [EditingAction]. *)
Inductive EditingAction :=
| ClipEdit (type : ClipEditType) (clip : AudioClip) (trackId : Z)
    (initialPointerTime : Q) (initialClipState : AudioClip)
| SetLoop (startTime : Q).

(** The [useState] cells and [useRef] cells of the component that the
    modelled handlers touch.  [persisted] is the project last handed to
    [db.saveProject('currentProject', _)]; [pendingPlay] records a queued
    [setTimeout(() => handlePlay(), 0)]; [started] logs the calls of
    [source.start] and [stopped] those of [source.stop], most recent
    last. *)
Record Daw := {
  isPlaying : bool;
  isRecording : bool;
  isLooping : bool;
  playheadPosition : Q;
  projectState : ProjectState;
  runtimeAudioBuffers : gmap string AudioBuffer;
  isSnapping : bool;
  zoomLevel : Q;
  editingAction : option EditingAction;
  sourcesRef : gmap string SourceNode;
  animationFrameRef : bool;
  startTimeRef : Q;
  pauseTimeRef : Q;
  persisted : option ProjectState;
  pendingPlay : bool;
  started : list (string * SourceNode);
  stopped : list SourceNode
}.

Definition pixelsPerSecond (st : Daw) : Q :=
  INITIAL_PIXELS_PER_SECOND * zoomLevel st.

Definition set_projectState (v : ProjectState) (st : Daw) : Daw :=
  {| isPlaying := isPlaying st; isRecording := isRecording st;
     isLooping := isLooping st; playheadPosition := playheadPosition st;
     projectState := v; runtimeAudioBuffers := runtimeAudioBuffers st;
     isSnapping := isSnapping st; zoomLevel := zoomLevel st;
     editingAction := editingAction st; sourcesRef := sourcesRef st;
     animationFrameRef := animationFrameRef st;
     startTimeRef := startTimeRef st; pauseTimeRef := pauseTimeRef st;
     persisted := persisted st; pendingPlay := pendingPlay st;
     started := started st; stopped := stopped st |}.

Definition set_persisted (v : option ProjectState) (st : Daw) : Daw :=
  {| isPlaying := isPlaying st; isRecording := isRecording st;
     isLooping := isLooping st; playheadPosition := playheadPosition st;
     projectState := projectState st;
     runtimeAudioBuffers := runtimeAudioBuffers st;
     isSnapping := isSnapping st; zoomLevel := zoomLevel st;
     editingAction := editingAction st; sourcesRef := sourcesRef st;
     animationFrameRef := animationFrameRef st;
     startTimeRef := startTimeRef st; pauseTimeRef := pauseTimeRef st;
     persisted := v; pendingPlay := pendingPlay st;
     started := started st; stopped := stopped st |}.

Definition set_editingAction (v : option EditingAction) (st : Daw) : Daw :=
  {| isPlaying := isPlaying st; isRecording := isRecording st;
     isLooping := isLooping st; playheadPosition := playheadPosition st;
     projectState := projectState st;
     runtimeAudioBuffers := runtimeAudioBuffers st;
     isSnapping := isSnapping st; zoomLevel := zoomLevel st;
     editingAction := v; sourcesRef := sourcesRef st;
     animationFrameRef := animationFrameRef st;
     startTimeRef := startTimeRef st; pauseTimeRef := pauseTimeRef st;
     persisted := persisted st; pendingPlay := pendingPlay st;
     started := started st; stopped := stopped st |}.

(** [updateProjectState(newProjectState, save)] *)
Definition updateProjectState (newProjectState : ProjectState) (save : bool)
    (st : Daw) : Daw :=
  let st' := set_projectState newProjectState st in
  if save then set_persisted (Some newProjectState) st' else st'.

(** [getSelectedClip()]: the first selected clip of the first track that has
    one, with that track's id. *)
Fixpoint getSelectedClip_from (ts : list Track) : option (AudioClip * Z) :=
  match ts with
  | [] => None
  | track :: rest =>
      match List.find isSelected (clips track) with
      | Some selected => Some (selected, id track)
      | None => getSelectedClip_from rest
      end
  end.

Definition getSelectedClip (st : Daw) : option (AudioClip * Z) :=
  getSelectedClip_from (tracks (projectState st)).

(** ** Clip editing ([handleClipEditing]) *)

(** The three branches of the handler body: [clipToUpdate] is the clip found
    in the working copy of the track list, [initialClipState] the snapshot
    taken when the gesture started. *)
Definition editClip (type : ClipEditType) (initialClipState : AudioClip)
    (delta : Q) (clipToUpdate : AudioClip) : AudioClip :=
  match type with
  | move =>
      set_startTime (Js.Math_max 0 (startTime initialClipState + delta))
        clipToUpdate
  | trim_start =>
      let newStartTime :=
        Js.Math_max 0 (startTime initialClipState + delta) in
      let newDuration :=
        duration initialClipState
        - (newStartTime - startTime initialClipState) in
      let newStartOffset :=
        startOffset initialClipState
        + (newStartTime - startTime initialClipState) in
      if Js.gt newDuration 0 && Js.ge newStartOffset 0 then
        set_startOffset newStartOffset
          (set_duration newDuration (set_startTime newStartTime clipToUpdate))
      else clipToUpdate
  | trim_end =>
      let newDuration :=
        Js.Math_min (duration initialClipState + delta)
          (sourceDuration initialClipState - startOffset initialClipState) in
      if Js.gt newDuration 0 then set_duration newDuration clipToUpdate
      else clipToUpdate
  end.

(** What a running gesture of kind [type] keeps fixed between the snapshot
    and the clip in the track list: the source length always, and for a
    trim of the end also the source offset. *)
Definition gesture_rel (type : ClipEditType) (init cur : AudioClip) : Prop :=
  sourceDuration cur = sourceDuration init /\
  (type = trim_end -> startOffset cur = startOffset init).

(** [xs.find(p)!] followed by an in-place mutation of the element found:
    the first element satisfying [P] is replaced by its image under [f].
    [None] stands for the [TypeError] raised when nothing is found (the
    non-null assertion is erased at run time) or when [f] raises. *)
Definition update_found {A} (P : A -> Prop) `{forall x, Decision (P x)}
    (f : A -> option A) (l : list A) : option (list A) :=
  match list_find P l with
  | Some (i, x) =>
      match f x with
      | Some y => Some (<[i := y]> l)
      | None => None
      end
  | None => None
  end.

(** The pointer's timeline time, snapped to the beat grid when snapping is
    on: [Math.round(pointerTime / SECONDS_PER_BEAT) * SECONDS_PER_BEAT]. *)
Definition pointerTimeOf (st : Daw) (pointerX : Q) : Q :=
  let pointerTime := pointerX / pixelsPerSecond st in
  if isSnapping st then
    inject_Z (Js.Math_round (pointerTime / SECONDS_PER_BEAT))
    * SECONDS_PER_BEAT
  else pointerTime.

(** The working copy [newTracks] after the handler body ran. *)
Definition editTracks (type : ClipEditType) (clip : AudioClip) (trackId : Z)
    (initialClipState : AudioClip) (delta : Q) (ts : list Track)
  : option (list Track) :=
  update_found (fun t => id t = trackId)
    (fun track =>
       match update_found (fun c => clipId c = clipId clip)
               (fun clipToUpdate =>
                  Some (editClip type initialClipState delta clipToUpdate))
               (clips track) with
       | Some cs => Some (set_clips cs track)
       | None => None
       end)
    ts.

(** [handleClipEditing(e)], with [pointerX] the pointer's x coordinate in
    timeline pixels.  [None]: the handler raised and published nothing. *)
Definition handleClipEditing (pointerX : Q) (st : Daw) : option Daw :=
  match editingAction st with
  | None => Some st
  | Some (SetLoop _) => Some st
  | Some (ClipEdit type clip trackId initialPointerTime initialClipState) =>
      let pointerTime := pointerTimeOf st pointerX in
      let delta := pointerTime - initialPointerTime in
      match editTracks type clip trackId initialClipState delta
              (tracks (projectState st)) with
      | Some newTracks =>
          Some (updateProjectState (set_tracks newTracks (projectState st))
                  false st)
      | None => None
      end
  end.

(** ** Selection and split ([handleSelectClip], [handleSplit]) *)

(** [clip.clipId === key] *)
Definition hasClipId (key : string) (c : AudioClip) : bool :=
  String.eqb (clipId c) key.

(** [handleSelectClip(clipIdToSelect, trackId)]; the track id is not read. *)
Definition selectInTrack (clipIdToSelect : string) (track : Track) : Track :=
  set_clips
    (map (fun clip => set_isSelected (hasClipId clipIdToSelect clip) clip)
       (clips track))
    track.

Definition handleSelectClip (clipIdToSelect : string) (trackId : Z)
    (st : Daw) : Daw :=
  let newTracks := map (selectInTrack clipIdToSelect)
                     (tracks (projectState st)) in
  updateProjectState (set_tracks newTracks (projectState st)) false st.

(** Two clips that differ at most in [isSelected]; two tracks that differ at
    most in their clips. *)
Definition same_but_selection (c c' : AudioClip) : Prop :=
  clipId c' = clipId c /\ fileId c' = fileId c /\ clip_name c' = clip_name c /\
  startTime c' = startTime c /\ startOffset c' = startOffset c /\
  duration c' = duration c /\ sourceDuration c' = sourceDuration c.

Definition same_but_clips (t t' : Track) : Prop :=
  id t' = id t /\ name t' = name t /\ trackType t' = trackType t /\
  volume t' = volume t /\ pan t' = pan t /\ isMuted t' = isMuted t /\
  isSoloed t' = isSoloed t /\ effects t' = effects t.

(** [newClips.splice(i, 1, ...xs)] on a copy of the list. *)
Definition splice1 {A} (i : nat) (xs : list A) (l : list A) : list A :=
  take i l ++ xs ++ drop (S i) l.

(** The two halves built by [handleSplit], with the rounded operations;
    [newId] is the value returned by [crypto.randomUUID()]. *)
Definition splitFirst (clip : AudioClip) (splitTime : Q) : AudioClip :=
  set_isSelected true (set_duration (Js.sub splitTime (startTime clip)) clip).

Definition splitSecond (newId : string) (clip : AudioClip) (splitTime : Q)
  : AudioClip :=
  {| clipId := newId; fileId := fileId clip; clip_name := clip_name clip;
     startTime := splitTime;
     startOffset :=
       Js.add (startOffset clip) (Js.sub splitTime (startTime clip));
     duration := Js.sub (duration clip) (Js.sub splitTime (startTime clip));
     sourceDuration := sourceDuration clip; isSelected := false |}.

Definition splitInTrack (clip : AudioClip) (trackId : Z)
    (clip1 clip2 : AudioClip) (track : Track) : Track :=
  if decide (id track = trackId) then
    match list_find (fun c => clipId c = clipId clip) (clips track) with
    | None => track
    | Some (clipIndex, _) =>
        set_clips (splice1 clipIndex [clip1; clip2] (clips track)) track
    end
  else track.

Definition handleSplit (newId : string) (st : Daw) : Daw :=
  match getSelectedClip st with
  | None => st
  | Some (clip, trackId) =>
      if Js.le (playheadPosition st) (startTime clip)
         || Js.ge (playheadPosition st)
              (Js.add (startTime clip) (duration clip))
      then st
      else
        let splitTime := playheadPosition st in
        let clip1 := splitFirst clip splitTime in
        let clip2 := splitSecond newId clip splitTime in
        let newTracks :=
          map (splitInTrack clip trackId clip1 clip2)
            (tracks (projectState st)) in
        updateProjectState (set_tracks newTracks (projectState st)) true st
  end.

(** ** Transport ([stopPlayback], [handleSeek], [handlePlay],
    [animationLoop]) *)

(** Replaces the transport cells and keeps the rest. *)
Definition with_transport (st : Daw) (playing recording : bool)
    (playhead : Q) (sources : gmap string SourceNode) (frame : bool)
    (startT pauseT : Q) (pending : bool) (log : list (string * SourceNode))
  : Daw :=
  {| isPlaying := playing; isRecording := recording;
     isLooping := isLooping st; playheadPosition := playhead;
     projectState := projectState st;
     runtimeAudioBuffers := runtimeAudioBuffers st;
     isSnapping := isSnapping st; zoomLevel := zoomLevel st;
     editingAction := editingAction st; sourcesRef := sources;
     animationFrameRef := frame;
     startTimeRef := startT; pauseTimeRef := pauseT;
     persisted := persisted st; pendingPlay := pending;
     started := log; stopped := stopped st |}.

(** [sourcesRef.current.forEach(source => { try { source.stop(); } catch(e) {} })]:
    the log of [source.stop] afterwards.  A [Map] is visited in insertion
    order, the finite map here in the order of its keys, so the order of
    the calls of one [forEach] is not the code's; statements about
    [stopped] are up to permutation. *)
Definition stopSources (st : Daw) : list SourceNode :=
  stopped st ++ map snd (map_to_list (sourcesRef st)).

Definition set_stopped (v : list SourceNode) (st : Daw) : Daw :=
  {| isPlaying := isPlaying st; isRecording := isRecording st;
     isLooping := isLooping st; playheadPosition := playheadPosition st;
     projectState := projectState st;
     runtimeAudioBuffers := runtimeAudioBuffers st;
     isSnapping := isSnapping st; zoomLevel := zoomLevel st;
     editingAction := editingAction st; sourcesRef := sourcesRef st;
     animationFrameRef := animationFrameRef st;
     startTimeRef := startTimeRef st; pauseTimeRef := pauseTimeRef st;
     persisted := persisted st; pendingPlay := pendingPlay st;
     started := started st; stopped := v |}.

(** [stopPlayback(shouldUpdatePosition)] at device time [deviceNow]: every
    live source is stopped and forgotten, the frame loop is cancelled. *)
Definition stopPlayback (shouldUpdatePosition : bool) (deviceNow : Q)
    (st : Daw) : Daw :=
  let newPauseTime := deviceNow - startTimeRef st in
  let validPauseTime :=
    if Js.gt SONG_DURATION_SECONDS newPauseTime then newPauseTime else 0 in
  set_stopped (stopSources st)
    (with_transport st false (isRecording st)
       (if shouldUpdatePosition then validPauseTime else playheadPosition st)
       ∅ false (startTimeRef st)
       (if shouldUpdatePosition then validPauseTime else pauseTimeRef st)
       (pendingPlay st) (started st)).

(** [handleSeek(newTime)] *)
Definition handleSeek (newTime : Q) (deviceNow : Q) (st : Daw) : Daw :=
  let wasPlaying := isPlaying st in
  let st1 := stopPlayback false deviceNow st in
  with_transport st1 (isPlaying st1) (isRecording st1) newTime
    (sourcesRef st1) (animationFrameRef st1) (startTimeRef st1) newTime
    (if wasPlaying then true else pendingPlay st1) (started st1).

(** [stopPlayback] and [handleSeek] as the instances of an earlier render,
    run later on the state [st]: [isPlaying] is the captured one
    ([capturedPlaying]), so [setIsPlaying(false)] is called, and a
    [handlePlay] queued, only if that render was playing; the refs are
    shared.  For the instances of the current render, [capturedPlaying] is
    [isPlaying st] and these are [stopPlayback] and [handleSeek]. *)
Definition stopPlaybackOf (capturedPlaying : bool)
    (shouldUpdatePosition : bool) (deviceNow : Q) (st : Daw) : Daw :=
  let newPauseTime := deviceNow - startTimeRef st in
  let validPauseTime :=
    if Js.gt SONG_DURATION_SECONDS newPauseTime then newPauseTime else 0 in
  set_stopped (stopSources st)
    (with_transport st (if capturedPlaying then false else isPlaying st)
       (isRecording st)
       (if shouldUpdatePosition then validPauseTime else playheadPosition st)
       ∅ false (startTimeRef st)
       (if shouldUpdatePosition then validPauseTime else pauseTimeRef st)
       (pendingPlay st) (started st)).

Definition handleSeekOf (capturedPlaying : bool) (newTime : Q)
    (deviceNow : Q) (st : Daw) : Daw :=
  let wasPlaying := capturedPlaying in
  let st1 := stopPlaybackOf capturedPlaying false deviceNow st in
  with_transport st1 (isPlaying st1) (isRecording st1) newTime
    (sourcesRef st1) (animationFrameRef st1) (startTimeRef st1) newTime
    (if wasPlaying then true else pendingPlay st1) (started st1).

(** [handleReturnToZero]: a [useCallback] with an empty dependency list, so
    the [handleSeek] it calls is the one of the first render, in which
    [isPlaying] is [false]. *)
Definition handleReturnToZero (deviceNow : Q) (st : Daw) : Daw :=
  handleSeekOf false 0 deviceNow st.

Definition isAnyTrackSoloed (p : ProjectState) : bool :=
  existsb isSoloed (tracks p).

(** The guard at the head of the per-track callback of [handlePlay] and of
    [handleExportAudio], negated: the track is audible. *)
Definition audible (anySoloed : bool) (track : Track) : bool :=
  negb (negb (bool_decide (trackType track = audio))
        || isMuted track
        || (anySoloed && negb (isSoloed track))).

(** The body of the per-clip callback of [handlePlay] once the buffer is
    found: [None] when the clip is skipped, else the started source. *)
Definition scheduleClip (pauseTime deviceNow : Q) (buffer : AudioBuffer)
    (clip : AudioClip) : option SourceNode :=
  let when := startTime clip in
  let offset := startOffset clip in
  let duration := duration clip in
  if Js.ge pauseTime (when + duration) then None
  else
    let playStartTime := deviceNow + Js.Math_max 0 (when - pauseTime) in
    let playOffset :=
      if Js.gt pauseTime when
      then Js.Math_min (offset + (pauseTime - when)) (buffer_duration buffer)
      else offset in
    let playDuration :=
      if Js.gt pauseTime when
      then Js.Math_max 0 (duration - (pauseTime - when))
      else duration in
    if Js.le playDuration 0 then None
    else Some {| source_buffer := fileId clip; source_when := playStartTime;
                 source_offset := playOffset;
                 source_duration := playDuration |}.

(** The sources [handlePlay] starts for one clip / one track / the project,
    in call order, each with the clip id it is registered under. *)
Definition playClip (buffers : gmap string AudioBuffer)
    (pauseTime deviceNow : Q) (clip : AudioClip)
  : list (string * SourceNode) :=
  match buffers !! fileId clip with
  | None => []
  | Some buffer =>
      match scheduleClip pauseTime deviceNow buffer clip with
      | None => []
      | Some source => [(clipId clip, source)]
      end
  end.

Definition playTrack (buffers : gmap string AudioBuffer) (anySoloed : bool)
    (pauseTime deviceNow : Q) (track : Track) : list (string * SourceNode) :=
  if audible anySoloed track
  then flat_map (playClip buffers pauseTime deviceNow) (clips track)
  else [].

Definition playProject (buffers : gmap string AudioBuffer)
    (pauseTime deviceNow : Q) (p : ProjectState)
  : list (string * SourceNode) :=
  flat_map (playTrack buffers (isAnyTrackSoloed p) pauseTime deviceNow)
    (tracks p).

(** [sourcesRef.current.set(clipId, source)] for each started source. *)
Definition registerSources (new : list (string * SourceNode))
    (m : gmap string SourceNode) : gmap string SourceNode :=
  fold_left (fun acc kv => <[fst kv := snd kv]> acc) new m.

(** [handlePlay()] at device time [deviceNow]. *)
Definition handlePlay (deviceNow : Q) (st : Daw) : Daw :=
  if isPlaying st then st
  else
    let new := playProject (runtimeAudioBuffers st) (pauseTimeRef st)
                 deviceNow (projectState st) in
    with_transport st true false (playheadPosition st)
      (registerSources new (sourcesRef st)) true
      (deviceNow - pauseTimeRef st) (pauseTimeRef st) (pendingPlay st)
      (started st ++ new).

(** [animationLoop()]: one position-update cycle at device time
    [deviceNow].  The callback that runs is the one [handlePlay] handed to
    [requestAnimationFrame] through [startAnimationLoop], and each cycle
    requests the next one with itself: it belongs to the render in which
    play was pressed, whose state is [captured].  It reads [isLooping], the
    loop region and, through its [handleSeek], [isPlaying] from there;
    [startTimeRef] is a ref.  [None]: the position published is NaN (a loop
    region of length zero). *)
Definition animationLoop (captured : Daw) (deviceNow : Q) (st : Daw)
  : option Daw :=
  let elapsedTime := deviceNow - startTimeRef st in
  let continue :=
    if Js.ge elapsedTime SONG_DURATION_SECONDS
    then handleReturnToZero deviceNow st
    else
      with_transport st (isPlaying st) (isRecording st) elapsedTime
        (sourcesRef st) true (startTimeRef st) (pauseTimeRef st)
        (pendingPlay st) (started st) in
  match loopRegion (projectState captured) with
  | Some region =>
      if isLooping captured && Js.ge elapsedTime (loop_end region) then
        let loopDuration := loop_end region - loop_start region in
        match Js.rem (elapsedTime - loop_end region) loopDuration with
        | Some r =>
            let newTime := loop_start region + r in
            Some (handleSeekOf (isPlaying captured) newTime deviceNow st)
        | None => None
        end
      else Some continue
  | None => Some continue
  end.

(** [setIsLooping(p => !p)], the loop button and the key [l]. *)
Definition toggleLooping (st : Daw) : Daw :=
  {| isPlaying := isPlaying st; isRecording := isRecording st;
     isLooping := negb (isLooping st);
     playheadPosition := playheadPosition st;
     projectState := projectState st;
     runtimeAudioBuffers := runtimeAudioBuffers st;
     isSnapping := isSnapping st; zoomLevel := zoomLevel st;
     editingAction := editingAction st; sourcesRef := sourcesRef st;
     animationFrameRef := animationFrameRef st;
     startTimeRef := startTimeRef st; pauseTimeRef := pauseTimeRef st;
     persisted := persisted st; pendingPlay := pendingPlay st;
     started := started st; stopped := stopped st |}.

(** ** Loop gesture ([handleRulerInteraction], the timeline's
    [onMouseMove]) *)

(** [x] is [e.clientX - rect.left] and [scrollLeft] the container's scroll
    position. *)
Definition handleRulerInteraction (x scrollLeft : Q) (altKey : bool)
    (deviceNow : Q) (st : Daw) : Daw :=
  let time := (x + scrollLeft) / pixelsPerSecond st in
  if altKey then set_editingAction (Some (SetLoop time)) st
  else handleSeek time deviceNow st.

Definition setLoopRegion (anchor time : Q) : LoopRegion :=
  {| loop_start := Js.Math_min anchor time;
     loop_end := Js.Math_max anchor time |}.

Definition handleTimelineMouseMove (x scrollLeft : Q) (st : Daw) : Daw :=
  match editingAction st with
  | Some (SetLoop anchor) =>
      let time := (x + scrollLeft) / pixelsPerSecond st in
      updateProjectState
        (set_loopRegion (Some (setLoopRegion anchor time)) (projectState st))
        false st
  | _ => st
  end.

(** [handleRulerInteractionEnd()]: the release that ends a set-loop gesture
    saves the project. *)
Definition handleRulerInteractionEnd (st : Daw) : Daw :=
  match editingAction st with
  | Some (SetLoop _) =>
      set_persisted (Some (projectState st)) (set_editingAction None st)
  | _ => st
  end.

(** ** Offline export ([handleExportAudio]) *)

Inductive AudioNode :=
| ClipSource (clipId : string)
| EffectNode (n : nat)
| PannerNode
| GainNode
| MeterNode
| Destination.

Global Instance AudioNode_eq_dec : EqDecision AudioNode.
Proof. solve_decision. Defined.


(** The two nested [reduce] calls. *)
Definition totalDuration (p : ProjectState) : Q :=
  fold_left
    (fun max track =>
       fold_left
         (fun clipMax clip =>
            Js.Math_max clipMax (startTime clip + duration clip))
         (clips track) max)
    (tracks p) 0.

(** What the handler hands to [startRendering]: the three arguments of
    [new OfflineAudioContext(_, _, _)] and, for every source it creates, the
    arguments of [start] and the node the source is connected to. *)
Record OfflineRender := {
  numberOfChannels : Z;
  render_length : Z;
  render_sampleRate : Q;
  render_sources : list (SourceNode * AudioNode)
}.

Definition exportClip (buffers : gmap string AudioBuffer) (clip : AudioClip)
  : list (SourceNode * AudioNode) :=
  match buffers !! fileId clip with
  | None => []
  | Some _ =>
      [({| source_buffer := fileId clip; source_when := startTime clip;
           source_offset := startOffset clip;
           source_duration := duration clip |}, Destination)]
  end.

Definition exportTrack (buffers : gmap string AudioBuffer)
    (isAnySoloedExport : bool) (track : Track)
  : list (SourceNode * AudioNode) :=
  if audible isAnySoloedExport track
  then flat_map (exportClip buffers) (clips track)
  else [].

(** [handleExportAudio()] up to the call of [startRendering]; [None] when the
    handler returns before building a rendering context. *)
Definition handleExportAudio (sampleRate : Q) (st : Daw)
  : option OfflineRender :=
  let p := projectState st in
  match tracks p with
  | [] => None
  | _ =>
      let total := totalDuration p in
      if Js.eq total 0 then None
      else
        let isAnySoloedExport := existsb isSoloed (tracks p) in
        Some {| numberOfChannels := 2;
                render_length := Js.Math_ceil (total * sampleRate);
                render_sampleRate := sampleRate;
                render_sources :=
                  flat_map
                    (exportTrack (runtimeAudioBuffers st) isAnySoloedExport)
                    (tracks p) |}
  end.

(** ** Channel strip ([ChannelStrip.tsx]) *)

Definition RAMP_TIME : Q := 1 # 100.

(** Calls on an [AudioParam]. *)
Inductive ParamCommand :=
| SetValueAtTime (value time : Q)
| SetTargetAtTime (target startTime timeConstant : Q).

(** The gain effect: [targetGain] and the call it issues at time [now]. *)
Definition targetGain (isAnyTrackSoloed : bool) (track : Track) : Q :=
  if isMuted track || (isAnyTrackSoloed && negb (isSoloed track))
  then 0 else volume track.

Definition gainEffect (now : Q) (isAnyTrackSoloed : bool) (track : Track)
  : ParamCommand :=
  SetTargetAtTime (targetGain isAnyTrackSoloed track) now RAMP_TIME.

(** The connections between the nodes of one strip.  [a.connect(b)] adds the
    edge unless it is there already; [a.disconnect()] removes every edge
    leaving [a]. *)
Definition connect (a b : AudioNode) (g : list (AudioNode * AudioNode))
  : list (AudioNode * AudioNode) :=
  if decide ((a, b) ∈ g) then g else g ++ [(a, b)].

Definition disconnect (a : AudioNode) (g : list (AudioNode * AudioNode))
  : list (AudioNode * AudioNode) :=
  filter (fun e => e.1 <> a) g.

Definition successors (g : list (AudioNode * AudioNode)) (a : AudioNode)
  : list AudioNode :=
  (filter (fun e => e.1 = a) g).*2.

(** The refs of one strip: the connections made so far, the effect nodes of
    the last rebuild by effect id, the effect built into every node created
    so far, the number of nodes created so far, and whether the meter node
    has arrived. *)
Record Strip := {
  graph : list (AudioNode * AudioNode);
  effectNodesRef : gmap string AudioNode;
  created : list (AudioNode * EffectKind);
  allocated : nat;
  meterNodeRef : bool
}.

(** The loop variables of the rebuild. *)
Record Chain := {
  lastNodeForChain : AudioNode;
  chain_graph : list (AudioNode * AudioNode);
  newEffectNodes : gmap string AudioNode;
  chain_created : list (AudioNode * EffectKind);
  chain_allocated : nat
}.

(** One iteration of [track.effects.slice().reverse().forEach]: both effect
    types yield a node. *)
Definition chainEffect (s : Chain) (effect : Effect) : Chain :=
  let node := EffectNode (chain_allocated s) in
  {| lastNodeForChain := node;
     chain_graph := connect node (lastNodeForChain s) (chain_graph s);
     newEffectNodes := <[effect_id effect := node]> (newEffectNodes s);
     chain_created := chain_created s ++ [(node, effect_kind effect)];
     chain_allocated := S (chain_allocated s) |}.

(** The clip ids of the live sources that belong to the track. *)
Definition trackSources (sourceNodes : gmap string SourceNode)
    (track : Track) : list string :=
  filter (fun key =>
            existsb (fun c => String.eqb (clipId c) key) (clips track) = true)
    (map_to_list sourceNodes).*1.

(** The loop that connects the live sources of the track to the head of the
    chain. *)
Definition connectSources (sourceNodes : gmap string SourceNode)
    (last : AudioNode) (cs : list AudioClip) (g : list (AudioNode * AudioNode))
  : list (AudioNode * AudioNode) :=
  fold_left
    (fun g clip =>
       match sourceNodes !! clipId clip with
       | Some _ => connect (ClipSource (clipId clip)) last g
       | None => g
       end)
    cs g.

(** The graph effect of the strip, run on a strip whose panner and gain
    nodes exist. *)
Definition rebuildChain (sourceNodes : gmap string SourceNode)
    (track : Track) (strip : Strip) : Strip :=
  let g1 := foldr (fun key g => disconnect (ClipSource key) g)
              (graph strip) (trackSources sourceNodes track) in
  let g2 := foldr disconnect g1 (map_to_list (effectNodesRef strip)).*2 in
  let s := fold_left chainEffect (reverse (effects track))
             {| lastNodeForChain := PannerNode; chain_graph := g2;
                newEffectNodes := ∅; chain_created := created strip;
                chain_allocated := allocated strip |} in
  let g3 := connectSources sourceNodes (lastNodeForChain s) (clips track)
              (chain_graph s) in
  let g4 := connect GainNode Destination (connect PannerNode GainNode g3) in
  let g5 := if meterNodeRef strip then connect GainNode MeterNode g4 else g4 in
  {| graph := g5; effectNodesRef := newEffectNodes s;
     created := chain_created s; allocated := chain_allocated s;
     meterNodeRef := meterNodeRef strip |}.

(** The effect a node was created for, from the log of node creations. *)
Definition builtInto (strip : Strip) (a : AudioNode) : option EffectKind :=
  match list_find (fun e => e.1 = a) (created strip) with
  | Some (_, (_, kind)) => Some kind
  | None => None
  end.

(** The order in which a signal entering at node [a] meets the effects:
    follow the connection out of each effect node until a node that is not
    an effect node is reached.  [fuel] bounds the number of steps. *)
Fixpoint processingOrder (fuel : nat) (strip : Strip) (a : AudioNode)
  : list EffectKind :=
  match fuel with
  | O => []
  | S fuel' =>
      match a with
      | EffectNode _ =>
          match builtInto strip a, successors (graph strip) a with
          | Some kind, [b] => kind :: processingOrder fuel' strip b
          | _, _ => []
          end
      | _ => []
      end
  end.

(** The node that stands at position [i] of a chain of [n] effect nodes
    created from number [base] on, last declared first; past the last effect
    stands the panner. *)
Definition chainNode (base n i : nat) : AudioNode :=
  if decide (i < n)%nat then EffectNode (base + (n - 1 - i)) else PannerNode.

(** The node that the [j]-th iteration of the chain loop connects to. *)
Definition chainPrev (last : AudioNode) (a j : nat) : AudioNode :=
  match j with
  | O => last
  | S j' => EffectNode (a + j')
  end.

(** What every rebuild keeps true of a strip: nodes not yet created have no
    connections and no creation record, the panner feeds only the gain node,
    the gain node feeds only the destination and the meter, and no
    connection is recorded twice. *)
Record strip_wf (strip : Strip) : Prop := {
  wf_fresh : forall k b, (EffectNode k, b) ∈ graph strip ->
                         (k < allocated strip)%nat;
  wf_created : forall k kind, (EffectNode k, kind) ∈ created strip ->
                              (k < allocated strip)%nat;
  wf_panner : forall b, (PannerNode, b) ∈ graph strip -> b = GainNode;
  wf_gain : forall b, (GainNode, b) ∈ graph strip ->
                      b = Destination \/ b = MeterNode;
  wf_nodup : NoDup (graph strip)
}.

(** The strip right after its gain and panner nodes were created, and the
    arrival of the meter node ([gainNodeRef.current.connect(node)]). *)
Definition initialStrip : Strip :=
  {| graph := []; effectNodesRef := ∅; created := []; allocated := 0;
     meterNodeRef := false |}.

Definition connectMeter (strip : Strip) : Strip :=
  {| graph := connect GainNode MeterNode (graph strip);
     effectNodesRef := effectNodesRef strip; created := created strip;
     allocated := allocated strip; meterNodeRef := true |}.

(** ** Project store ([IndexedDB.ts]) *)

(** The inline [audioClip] field of the oldest track shape. *)
Record InlineAudioClip := {
  inline_fileId : string;
  inline_name : string;
  inline_startTime : Q;
  inline_duration : Q
}.

(** A track as it may sit in the store: [trackType], [audioClip] and [clips]
    may each be missing. *)
Record StoredTrack := {
  stored_id : Z;
  stored_name : string;
  stored_trackType : option TrackType;
  stored_volume : Q;
  stored_pan : Q;
  stored_isMuted : bool;
  stored_isSoloed : bool;
  stored_effects : list Effect;
  stored_audioClip : option InlineAudioClip;
  stored_clips : option (list AudioClip)
}.

(** A stored project: the bare track array of the oldest format, or an
    object whose [loopRegion] may be missing. *)
Inductive StoredProject :=
| StoredArray (ts : list StoredTrack)
| StoredObject (ts : list StoredTrack) (region : option LoopRegion).

Definition stored_tracks (sp : StoredProject) : list StoredTrack :=
  match sp with
  | StoredArray ts => ts
  | StoredObject ts _ => ts
  end.

Definition stored_region (sp : StoredProject) : option LoopRegion :=
  match sp with
  | StoredArray _ => None
  | StoredObject _ region => region
  end.

(** The clip built from an inline [audioClip]; [newId] is the value of
    [crypto.randomUUID()]. *)
Definition clipOfInline (newId : string) (a : InlineAudioClip) : AudioClip :=
  {| clipId := newId; fileId := inline_fileId a; clip_name := inline_name a;
     startTime := inline_startTime a; startOffset := 0;
     duration := inline_duration a; sourceDuration := inline_duration a;
     isSelected := false |}.

(** The callback of [project.tracks.map].  The [n]-th call of
    [crypto.randomUUID()] returns [uuid n]; the result carries the number of
    calls made so far. *)
Definition migrateTrack (uuid : nat -> string) (n : nat) (t : StoredTrack)
  : Track * nat :=
  let '(cs, n') :=
    match stored_audioClip t, stored_clips t with
    | Some a, None => ([clipOfInline (uuid n) a], S n)
    | None, None => ([], n)
    | _, Some cs => (cs, n)
    end in
  ({| id := stored_id t; name := stored_name t;
      trackType := default audio (stored_trackType t);
      volume := stored_volume t; pan := stored_pan t;
      isMuted := stored_isMuted t; isSoloed := stored_isSoloed t;
      effects := stored_effects t;
      clips := map (set_isSelected false) cs |}, n').

Fixpoint migrateTracks (uuid : nat -> string) (n : nat)
    (ts : list StoredTrack) : list Track * nat :=
  match ts with
  | [] => ([], n)
  | t :: rest =>
      let '(t', n1) := migrateTrack uuid n t in
      let '(rest', n2) := migrateTracks uuid n1 rest in
      (t' :: rest', n2)
  end.

(** [getProject(id)] on the value [result] found in the store. *)
Definition getProject (uuid : nat -> string) (n : nat)
    (result : option StoredProject) : option ProjectState :=
  match result with
  | None => None
  | Some project =>
      Some {| tracks := (migrateTracks uuid n (stored_tracks project)).1;
              loopRegion := stored_region project |}
  end.

(** [saveProject(id, projectState)]: the value put into the store. *)
Definition storeTrack (t : Track) : StoredTrack :=
  {| stored_id := id t; stored_name := name t;
     stored_trackType := Some (trackType t);
     stored_volume := volume t; stored_pan := pan t;
     stored_isMuted := isMuted t; stored_isSoloed := isSoloed t;
     stored_effects := effects t; stored_audioClip := None;
     stored_clips := Some (clips t) |}.

Definition saveProject (projectState : ProjectState) : StoredProject :=
  StoredObject (map storeTrack (tracks projectState))
    (loopRegion projectState).

(** ** The invariants of the data model *)

Definition allClips (ts : list Track) : list AudioClip :=
  flat_map clips ts.

Definition in_range (lo x hi : Q) : Prop := lo <= x /\ x <= hi.

Definition effect_inv (e : Effect) : Prop :=
  match effect_kind e with
  | EQ s =>
      in_range 20 (frequency s) 20000 /\ in_range (-12) (gain s) 12 /\
      in_range (1 # 10) (q s) 18
  | Compressor s =>
      in_range (-100) (threshold s) 0 /\ in_range 1 (ratio s) 20 /\
      in_range 0 (attack s) 1 /\ in_range 0 (release s) 1
  end.

Definition mix_inv (vol pn : Q) (effs : list Effect) : Prop :=
  in_range 0 vol 1 /\ in_range (-1) pn 1 /\ Forall effect_inv effs.

Definition track_inv (t : Track) : Prop :=
  mix_inv (volume t) (pan t) (effects t).

Definition clip_wf (eps : Q) (c : AudioClip) : Prop :=
  0 <= startTime c /\ clip_inv eps c.

Definition region_inv (region : option LoopRegion) : Prop :=
  match region with
  | Some r => loop_start r < loop_end r
  | None => True
  end.

Definition selectedCount (ts : list Track) : nat :=
  length (List.filter isSelected (allClips ts)).

Record project_inv (eps : Q) (p : ProjectState) : Prop := {
  inv_track_ids : NoDup (map id (tracks p));
  inv_tracks : Forall track_inv (tracks p);
  inv_clip_ids : NoDup (map clipId (allClips (tracks p)));
  inv_clips : Forall (clip_wf eps) (allClips (tracks p));
  inv_selection : (selectedCount (tracks p) <= 1)%nat;
  inv_region : region_inv (loopRegion p)
}.

(** The same invariants on a stored value, in whichever shape it is: the
    clips of a [clips] list as above, an inline clip with a start time that
    is not negative and a positive duration. *)
Definition storedClips (ts : list StoredTrack) : list AudioClip :=
  flat_map (fun t => default [] (stored_clips t)) ts.

Definition inline_inv (t : StoredTrack) : Prop :=
  match stored_audioClip t with
  | Some a => 0 <= inline_startTime a /\ 0 < inline_duration a
  | None => True
  end.

Record stored_inv (eps : Q) (sp : StoredProject) : Prop := {
  sinv_track_ids : NoDup (map stored_id (stored_tracks sp));
  sinv_tracks :
    Forall (fun t => mix_inv (stored_volume t) (stored_pan t)
                       (stored_effects t)) (stored_tracks sp);
  sinv_clip_ids : NoDup (map clipId (storedClips (stored_tracks sp)));
  sinv_clips : Forall (clip_wf eps) (storedClips (stored_tracks sp));
  sinv_inline : Forall inline_inv (stored_tracks sp);
  sinv_region : region_inv (stored_region sp)
}.

(** The identifiers handed out by [crypto.randomUUID()] from call [n] on are
    pairwise distinct and none of them is in use in the stored value. *)
Definition uuid_fresh (uuid : nat -> string) (n : nat) (sp : StoredProject)
  : Prop :=
  (forall i j, (n <= i)%nat -> (n <= j)%nat -> uuid i = uuid j -> i = j) /\
  (forall i, (n <= i)%nat ->
     uuid i ∉ map clipId (storedClips (stored_tracks sp))).

(** How a loaded track relates to the stored one; [uuid k], for some
    [k >= n], is the id minted for an inline clip. *)
Definition migrated_from (uuid : nat -> string) (n : nat)
    (s : StoredTrack) (t : Track) : Prop :=
  id t = stored_id s /\ name t = stored_name s /\
  volume t = stored_volume s /\ pan t = stored_pan s /\
  isMuted t = stored_isMuted s /\ isSoloed t = stored_isSoloed s /\
  effects t = stored_effects s /\
  (forall ty, stored_trackType s = Some ty -> trackType t = ty) /\
  (stored_trackType s = None -> trackType t = audio) /\
  (forall cs,
     stored_clips s = Some cs ->
     Forall2 (fun c c' => same_but_selection c c' /\ isSelected c' = false)
       cs (clips t)) /\
  (forall a,
     stored_clips s = None -> stored_audioClip s = Some a ->
     exists c k,
       clips t = [c] /\ (n <= k)%nat /\ clipId c = uuid k /\
       fileId c = inline_fileId a /\ clip_name c = inline_name a /\
       startTime c = inline_startTime a /\ startOffset c = 0 /\
       duration c = inline_duration a /\
       sourceDuration c = inline_duration a /\
       isSelected c = false) /\
  (stored_clips s = None -> stored_audioClip s = None -> clips t = []).

(** The project with every selection flag cleared. *)
Definition deselectAll (p : ProjectState) : ProjectState :=
  set_tracks
    (map (fun t => set_clips (map (set_isSelected false) (clips t)) t)
       (tracks p))
    p.

(** ** Track commands ([handleAddTrack], [handleRemoveTrack],
    [handleTrackChange]) *)

Definition trackTypeLabel (type : TrackType) : string :=
  match type with
  | audio => "Audio"
  | midi => "MIDI"
  end.

(** [tracks.reduce((maxId, t) => Math.max(t.id, maxId), 0) + 1] *)
Definition nextTrackId (ts : list Track) : Z :=
  (fold_left (fun maxId t => Z.max (id t) maxId) ts 0 + 1)%Z.

(** The track built by [handleAddTrack(type)]; its name carries the number
    of tracks of that type plus one. *)
Definition newTrackOf (type : TrackType) (ts : list Track) : Track :=
  {| id := nextTrackId ts;
     name := trackTypeLabel type +:+ " "
             +:+ pretty (length (filter (fun t => trackType t = type) ts) + 1)%nat;
     trackType := type; volume := 8 # 10; pan := 0; isMuted := false;
     isSoloed := false; effects := []; clips := [] |}.

Definition handleAddTrack (type : TrackType) (st : Daw) : Daw :=
  let p := projectState st in
  updateProjectState
    (set_tracks (tracks p ++ [newTrackOf type (tracks p)]) p) true st.

Definition handleRemoveTrack (trackId : Z) (st : Daw) : Daw :=
  let p := projectState st in
  updateProjectState
    (set_tracks (filter (fun t => id t <> trackId) (tracks p)) p) true st.

Definition handleTrackChange (updatedTrack : Track) (st : Daw) : Daw :=
  let p := projectState st in
  updateProjectState
    (set_tracks
       (map (fun t => if decide (id t = id updatedTrack) then updatedTrack
                      else t)
          (tracks p))
       p)
    true st.

(** [toggleMute] and [toggleSolo] of the channel strip: the track handed to
    [onTrackChange]. *)
Definition toggleMute (track : Track) : Track :=
  {| id := id track; name := name track; trackType := trackType track;
     volume := volume track; pan := pan track;
     isMuted := negb (isMuted track); isSoloed := isSoloed track;
     effects := effects track; clips := clips track |}.

Definition toggleSolo (track : Track) : Track :=
  {| id := id track; name := name track; trackType := trackType track;
     volume := volume track; pan := pan track; isMuted := isMuted track;
     isSoloed := negb (isSoloed track);
     effects := effects track; clips := clips track |}.

(** ** Clipboard commands ([handleDeleteSelected], [handleCopy],
    [handleCut], [handlePaste]) *)

Definition deleteInTrack (clip : AudioClip) (trackId : Z) (track : Track)
  : Track :=
  if decide (id track = trackId)
  then set_clips (filter (fun c => clipId c <> clipId clip) (clips track))
         track
  else track.

Definition handleDeleteSelected (st : Daw) : Daw :=
  match getSelectedClip st with
  | None => st
  | Some (clip, trackId) =>
      let p := projectState st in
      updateProjectState
        (set_tracks (map (deleteInTrack clip trackId) (tracks p)) p) true st
  end.

(** [handleCopy()]: the new content of the clipboard. *)
Definition handleCopy (st : Daw) : option AudioClip :=
  match getSelectedClip st with
  | Some (clip, _) => Some clip
  | None => None
  end.

(** [handleCut()]: the new clipboard and the new state. *)
Definition handleCut (st : Daw) : option AudioClip * Daw :=
  (handleCopy st, handleDeleteSelected st).

(** The track [handlePaste] pastes into: the first audio track that holds a
    selected clip, else the first audio track. *)
Definition isAudio (t : Track) : bool := bool_decide (trackType t = audio).

Definition pasteTarget (ts : list Track) : option Track :=
  match List.find (fun t => existsb isSelected (clips t) && isAudio t) ts with
  | Some t => Some t
  | None => List.find isAudio ts
  end.

Definition pastedClip (newId : string) (playhead : Q) (clipboard : AudioClip)
  : AudioClip :=
  {| clipId := newId; fileId := fileId clipboard;
     clip_name := clip_name clipboard; startTime := playhead;
     startOffset := startOffset clipboard; duration := duration clipboard;
     sourceDuration := sourceDuration clipboard; isSelected := false |}.

Definition pasteInTrack (targetId : Z) (newClip : AudioClip) (t : Track)
  : Track :=
  if decide (id t = targetId) then set_clips (clips t ++ [newClip]) t else t.

(** [handlePaste()] with the clipboard content [clipboard]; [newId] is the
    value of [crypto.randomUUID()]. *)
Definition handlePaste (clipboard : option AudioClip) (newId : string)
    (st : Daw) : Daw :=
  match clipboard with
  | None => st
  | Some clip =>
      let p := projectState st in
      match pasteTarget (tracks p) with
      | None => st
      | Some selectedTrack =>
          let newClip := pastedClip newId (playheadPosition st) clip in
          updateProjectState
            (set_tracks
               (map (pasteInTrack (id selectedTrack) newClip) (tracks p)) p)
            true st
      end
  end.

(** ** Nudge, zoom and stop ([handleNudge], [handleZoomIn],
    [handleZoomOut], [handleStop]) *)

Inductive NudgeDirection := nudge_left | nudge_right.

Definition nudgeAmount (direction : NudgeDirection) : Q :=
  match direction with
  | nudge_left => - NUDGE_AMOUNT
  | nudge_right => NUDGE_AMOUNT
  end.

Definition nudgeClip (amount : Q) (clip : AudioClip) : AudioClip :=
  set_startTime (Js.Math_max 0 (startTime clip + amount)) clip.

(** [handleNudge(direction)]; [None]: one of the two lookups by id found
    nothing and the handler raised. *)
Definition handleNudge (direction : NudgeDirection) (deviceNow : Q)
    (st : Daw) : option Daw :=
  let amount := nudgeAmount direction in
  match getSelectedClip st with
  | Some (selected, trackId) =>
      match update_found (fun t => id t = trackId)
              (fun track =>
                 match update_found (fun c => clipId c = clipId selected)
                         (fun clip => Some (nudgeClip amount clip))
                         (clips track) with
                 | Some cs => Some (set_clips cs track)
                 | None => None
                 end)
              (tracks (projectState st)) with
      | Some newTracks =>
          Some (updateProjectState
                  (set_tracks newTracks (projectState st)) true st)
      | None => None
      end
  | None =>
      Some (handleSeek (Js.Math_max 0 (playheadPosition st + amount))
              deviceNow st)
  end.

Definition set_zoomLevel (v : Q) (st : Daw) : Daw :=
  {| isPlaying := isPlaying st; isRecording := isRecording st;
     isLooping := isLooping st; playheadPosition := playheadPosition st;
     projectState := projectState st;
     runtimeAudioBuffers := runtimeAudioBuffers st;
     isSnapping := isSnapping st; zoomLevel := v;
     editingAction := editingAction st; sourcesRef := sourcesRef st;
     animationFrameRef := animationFrameRef st;
     startTimeRef := startTimeRef st; pauseTimeRef := pauseTimeRef st;
     persisted := persisted st; pendingPlay := pendingPlay st;
     started := started st; stopped := stopped st |}.

Definition handleZoomIn (st : Daw) : Daw :=
  set_zoomLevel (Js.Math_min (zoomLevel st * (3 # 2)) 32) st.

Definition handleZoomOut (st : Daw) : Daw :=
  set_zoomLevel (Js.Math_max (zoomLevel st / (3 # 2)) (1 # 10)) st.

Inductive ZoomCommand := ZoomIn | ZoomOut.

Definition zoom (c : ZoomCommand) (st : Daw) : Daw :=
  match c with
  | ZoomIn => handleZoomIn st
  | ZoomOut => handleZoomOut st
  end.

(** [handleStop()] *)
Definition handleStop (deviceNow : Q) (st : Daw) : Daw :=
  stopPlayback true deviceNow st.

(** The zoom level after a run of presses of the two zoom buttons, and the
    range the two handlers clamp to. *)
Definition zoomAll (cs : list ZoomCommand) (st : Daw) : Daw :=
  fold_left (fun s c => zoom c s) cs st.

Definition zoom_inv (st : Daw) : Prop :=
  1 # 10 <= zoomLevel st /\ zoomLevel st <= 32.

(** ** The parameter effects of the strip ([ChannelStrip.tsx]) *)

(** The pan effect: the call it issues on [pannerNode.pan] at time [now]. *)
Definition panEffect (now : Q) (track : Track) : ParamCommand :=
  SetTargetAtTime (pan track) now RAMP_TIME.

(** The audio parameters of the effect nodes. *)
Inductive ParamName :=
| param_frequency | param_gain | param_Q
| param_threshold | param_ratio | param_attack | param_release | param_knee.

(** The body of the [forEach] of the effect-parameter effect, for one
    effect: the calls it issues, each on a parameter of the node registered
    under the effect's id.  [node instanceof BiquadFilterNode] holds of a
    node created by [createEQNode], [node instanceof DynamicsCompressorNode]
    of one created by [createCompressorNode]. *)
Definition effectParamCommands (now : Q) (strip : Strip) (effect : Effect)
  : list (AudioNode * ParamName * ParamCommand) :=
  match effectNodesRef strip !! effect_id effect with
  | None => []
  | Some node =>
      match effect_kind effect, builtInto strip node with
      | EQ params, Some (EQ _) =>
          [ (node, param_frequency,
             SetTargetAtTime (frequency params) now RAMP_TIME);
            (node, param_gain, SetTargetAtTime (gain params) now RAMP_TIME);
            (node, param_Q, SetTargetAtTime (q params) now RAMP_TIME) ]
      | Compressor params, Some (Compressor _) =>
          [ (node, param_threshold,
             SetTargetAtTime (threshold params) now RAMP_TIME);
            (node, param_ratio, SetTargetAtTime (ratio params) now RAMP_TIME);
            (node, param_attack,
             SetTargetAtTime (attack params) now RAMP_TIME);
            (node, param_release,
             SetTargetAtTime (release params) now RAMP_TIME);
            (node, param_knee, SetTargetAtTime (knee params) now RAMP_TIME) ]
      | _, _ => []
      end
  end.

Definition effectParamsEffect (now : Q) (strip : Strip) (track : Track)
  : list (AudioNode * ParamName * ParamCommand) :=
  flat_map (effectParamCommands now strip) (effects track).

(** The commands that address the parameters of [effect] when its node is
    [node]. *)
Definition paramTargets (now : Q) (node : AudioNode) (kind : EffectKind)
  : list (AudioNode * ParamName * ParamCommand) :=
  match kind with
  | EQ params =>
      [ (node, param_frequency,
         SetTargetAtTime (frequency params) now RAMP_TIME);
        (node, param_gain, SetTargetAtTime (gain params) now RAMP_TIME);
        (node, param_Q, SetTargetAtTime (q params) now RAMP_TIME) ]
  | Compressor params =>
      [ (node, param_threshold,
         SetTargetAtTime (threshold params) now RAMP_TIME);
        (node, param_ratio, SetTargetAtTime (ratio params) now RAMP_TIME);
        (node, param_attack, SetTargetAtTime (attack params) now RAMP_TIME);
        (node, param_release,
         SetTargetAtTime (release params) now RAMP_TIME);
        (node, param_knee, SetTargetAtTime (knee params) now RAMP_TIME) ]
  end.

(** ** The audio-file store ([saveAudioFile], [getAudioFile]) *)

(** An [ArrayBuffer]: the bytes of an audio file. *)
Definition ArrayBuffer := list Byte.byte.

(** The [audioFiles] object store: the [data] of each record, by record
    id. *)
Definition AudioStore := gmap string ArrayBuffer.

(** [saveAudioFile(id, data)]: [store.put({ id, data })] *)
Definition saveAudioFile (fileKey : string) (data : ArrayBuffer)
    (db : AudioStore) : AudioStore :=
  <[fileKey := data]> db.

(** [getAudioFile(id)]: the [data] of the record found, else [null]. *)
Definition getAudioFile (fileKey : string) (db : AudioStore)
  : option ArrayBuffer :=
  db !! fileKey.

(** ** Import of an audio file ([handleFileSelected]) *)

Record File := {
  file_name : string;
  file_data : ArrayBuffer
}.

(** [name.split('.')[0]]: the part of the name before its first dot. *)
Fixpoint beforeDot (s : string) : string :=
  match s with
  | EmptyString => EmptyString
  | String c rest =>
      if Ascii.eqb c (Ascii.ascii_of_nat 46) then EmptyString
      else String c (beforeDot rest)
  end.

Definition set_runtimeAudioBuffers (v : gmap string AudioBuffer) (st : Daw)
  : Daw :=
  {| isPlaying := isPlaying st; isRecording := isRecording st;
     isLooping := isLooping st; playheadPosition := playheadPosition st;
     projectState := projectState st; runtimeAudioBuffers := v;
     isSnapping := isSnapping st; zoomLevel := zoomLevel st;
     editingAction := editingAction st; sourcesRef := sourcesRef st;
     animationFrameRef := animationFrameRef st;
     startTimeRef := startTimeRef st; pauseTimeRef := pauseTimeRef st;
     persisted := persisted st; pendingPlay := pendingPlay st;
     started := started st; stopped := stopped st |}.

Definition importedClip (newClipId newFileId : string) (file : File)
    (audioBuffer : AudioBuffer) (playhead : Q) : AudioClip :=
  {| clipId := newClipId; fileId := newFileId; clip_name := file_name file;
     startTime := playhead; startOffset := 0;
     duration := buffer_duration audioBuffer;
     sourceDuration := buffer_duration audioBuffer; isSelected := false |}.

(** [selected?.trackId ?? tracks.find(t => t.trackType === 'audio')?.id
    ?? null] *)
Definition importTargetId (st : Daw) : option Z :=
  match getSelectedClip st with
  | Some (_, trackId) => Some trackId
  | None =>
      match List.find isAudio (tracks (projectState st)) with
      | Some t => Some (id t)
      | None => None
      end
  end.

(** [targetTrack.clips.push(newAudioClip)] *)
Definition pushClip (newAudioClip : AudioClip) (targetTrack : Track)
  : option Track :=
  Some (set_clips (clips targetTrack ++ [newAudioClip]) targetTrack).

(** The track created when the project has no audio track. *)
Definition importedTrack (file : File) (newAudioClip : AudioClip)
    (ts : list Track) : Track :=
  {| id := nextTrackId ts;
     name := if decide (beforeDot (file_name file) = EmptyString)
             then "Audio" else beforeDot (file_name file);
     trackType := audio; volume := 8 # 10; pan := 0; isMuted := false;
     isSoloed := false; effects := []; clips := [newAudioClip] |}.

(** The working copy [newTracks] after the clip was placed: on the first
    track that has the target id and is of audio type, else on the first
    audio track, else on a new track. *)
Definition importedTracks (targetTrackId : option Z) (file : File)
    (newAudioClip : AudioClip) (ts : list Track) : list Track :=
  match update_found
          (fun t => Some (id t) = targetTrackId /\ trackType t = audio)
          (pushClip newAudioClip) ts with
  | Some newTracks => newTracks
  | None =>
      match update_found (fun t => trackType t = audio)
              (pushClip newAudioClip) ts with
      | Some newTracks => newTracks
      | None => ts ++ [importedTrack file newAudioClip ts]
      end
  end.

(** [handleFileSelected(e)] with [files] the files of the input element,
    [decodeAudioData] the decoder of the audio context ([None]: it rejects)
    and [newFileId], [newClipId] the two values of [crypto.randomUUID()].
    The result is the audio-file store and the state afterwards; [None]
    when decoding failed and the handler stopped there. *)
Definition handleFileSelected
    (decodeAudioData : ArrayBuffer -> option AudioBuffer)
    (files : list File) (newFileId newClipId : string)
    (db : AudioStore) (st : Daw) : option (AudioStore * Daw) :=
  match files with
  | [] => Some (db, st)
  | file :: _ =>
      let arrayBuffer := file_data file in
      match decodeAudioData arrayBuffer with
      | None => None
      | Some audioBuffer =>
          let db' := saveAudioFile newFileId arrayBuffer db in
          let newAudioClip :=
            importedClip newClipId newFileId file audioBuffer
              (playheadPosition st) in
          let p := projectState st in
          let newTracks :=
            importedTracks (importTargetId st) file newAudioClip (tracks p) in
          Some (db',
                updateProjectState (set_tracks newTracks p) true
                  (set_runtimeAudioBuffers
                     (<[newFileId := audioBuffer]> (runtimeAudioBuffers st))
                     st))
      end
  end.

(** ** Loading the project on startup ([createInitialProject], the
    [loadProject] effect) *)

Definition createInitialProject : ProjectState :=
  {| tracks :=
       [ {| id := 1; name := "Audio 1"; trackType := audio; volume := 8 # 10;
            pan := 0; isMuted := false; isSoloed := false; effects := [];
            clips := [] |};
         {| id := 2; name := "MIDI 1"; trackType := midi; volume := 8 # 10;
            pan := 0; isMuted := false; isSoloed := false; effects := [];
            clips := [] |} ];
     loopRegion := None |}.

(** The body of the inner loop: a clip whose file id is not empty and not
    yet in [newBuffers] has its file fetched and decoded; a missing file or
    a decoding error leaves the map as it is. *)
Definition loadClipBuffer
    (decodeAudioData : ArrayBuffer -> option AudioBuffer) (db : AudioStore)
    (newBuffers : gmap string AudioBuffer) (clip : AudioClip)
  : gmap string AudioBuffer :=
  if bool_decide (fileId clip <> EmptyString)
     && bool_decide (newBuffers !! fileId clip = None)
  then
    match getAudioFile (fileId clip) db with
    | Some audioData =>
        match decodeAudioData audioData with
        | Some audioBuffer => <[fileId clip := audioBuffer]> newBuffers
        | None => newBuffers
        end
    | None => newBuffers
    end
  else newBuffers.

Definition loadBuffers
    (decodeAudioData : ArrayBuffer -> option AudioBuffer) (db : AudioStore)
    (savedProject : ProjectState) : gmap string AudioBuffer :=
  fold_left (loadClipBuffer decodeAudioData db)
    (allClips (tracks savedProject)) ∅.

(** The effect: [result] is the value found under ['currentProject'],
    [uuid] and [n] the supply of fresh ids [getProject] draws from. *)
Definition loadProject
    (decodeAudioData : ArrayBuffer -> option AudioBuffer)
    (uuid : nat -> string) (n : nat) (result : option StoredProject)
    (db : AudioStore) (st : Daw) : Daw :=
  match getProject uuid n result with
  | Some savedProject =>
      set_runtimeAudioBuffers (loadBuffers decodeAudioData db savedProject)
        (set_projectState savedProject st)
  | None =>
      let newProject := createInitialProject in
      set_projectState newProject (set_persisted (Some newProject) st)
  end.

(** ** The effects list of a track ([ChannelStripDetail.tsx]) *)

Definition set_effects (v : list Effect) (t : Track) : Track :=
  {| id := id t; name := name t; trackType := trackType t;
     volume := volume t; pan := pan t; isMuted := isMuted t;
     isSoloed := isSoloed t; effects := v; clips := clips t |}.


Inductive EffectType := EQType | CompressorType.

(** [handleAddEffect(type)]; [newId] is the value of
    [crypto.randomUUID()]. *)
Definition newEffectOf (type : EffectType) (newId : string) : Effect :=
  match type with
  | EQType =>
      {| effect_id := newId;
         effect_kind := EQ {| frequency := 1000; gain := 0; q := 1 |} |}
  | CompressorType =>
      {| effect_id := newId;
         effect_kind :=
           Compressor {| threshold := -24; ratio := 12; attack := 3 # 1000;
                         release := 25 # 100; knee := 30 |} |}
  end.

Definition handleAddEffect (type : EffectType) (newId : string)
    (track : Track) : Track :=
  set_effects (effects track ++ [newEffectOf type newId]) track.

(** [handleRemoveEffect(effectId)] *)
Definition handleRemoveEffect (effectId : string) (track : Track) : Track :=
  set_effects (filter (fun e => effect_id e <> effectId) (effects track))
    track.

(** [effects.splice(index, 1)] and [effects.splice(index, 0, item)]; a start
    index past the end is the end. *)
Definition splice_out {A} (index : nat) (l : list A) : list A :=
  take index l ++ drop (S index) l.

Definition splice_in {A} (index : nat) (item : A) (l : list A) : list A :=
  take index l ++ item :: drop index l.

(** [handleDrop(dropIndex)] with the dragged effect's id: the track handed
    to [onTrackChange], or [None] when the handler returns without calling
    it. *)
Definition handleDrop (draggedEffectId : option string) (dropIndex : nat)
    (track : Track) : option Track :=
  match draggedEffectId with
  | None => None
  | Some dragged =>
      match list_find (fun e => effect_id e = dragged) (effects track) with
      | None => None
      | Some (draggedItemIndex, draggedItem) =>
          if decide (draggedItemIndex = dropIndex) then None
          else
            Some (set_effects
                    (splice_in dropIndex draggedItem
                       (splice_out draggedItemIndex (effects track)))
                    track)
      end
  end.

(** ** The rotary control ([Knob.tsx]) and the control blocks *)

(** [getRotationFromValue(val)], in degrees *)
Definition getRotationFromValue (min max val : Q) : Q :=
  let range := max - min in
  let percentage := (val - min) / range in
  percentage * 270 - 135.

(** [handleMouseMove] with the pointer seen from the knob's centre under
    [angle] degrees ([Math.atan2(...) * (180 / Math.PI)]): the rotation
    after the two clamps, and the value handed to [onChange]. *)
Definition knobRotation (angle : Q) : Q :=
  let rotation := angle + 90 in
  let rotation := if Js.gt (-135) rotation then -135 else rotation in
  if Js.gt rotation 135 then 135 else rotation.

Definition knobValue (min max step angle : Q) : Q :=
  let rotation := knobRotation angle in
  let percentage := (rotation + 135) / 270 in
  let range := max - min in
  let newValue := min + percentage * range in
  let newValue := inject_Z (Js.Math_round (newValue / step)) * step in
  Js.Math_max min (Js.Math_min max newValue).











(** ** Metering ([MeterNode], the meter callback of [ChannelStrip],
    [volume-meter-processor.js]) *)

(** [setMeterLevel(prev => Math.max(rms, prev * 0.9))] *)
Definition meterUpdate (rms prev : Q) : Q :=
  Js.Math_max rms (prev * (9 # 10)).

(** A message [{ rms }] arriving at the node's port: [if (event.data.rms)]
    drops a zero. *)
Definition onMeterMessage (meterLevel rms : Q) : Q :=
  if Js.eq rms 0 then meterLevel else meterUpdate rms meterLevel.

Definition meterAfter (messages : list Q) (meterLevel : Q) : Q :=
  fold_left onMeterMessage messages meterLevel.

Record VolumeMeterProcessor := {
  _updateIntervalInMS : Q;
  _nextUpdateFrame : Q
}.

(** The constructor, with the option [updateIntervalInMS] when given:
    [options?.processorOptions?.updateIntervalInMS || 100]. *)
Definition newVolumeMeterProcessor (updateIntervalInMS : option Q)
  : VolumeMeterProcessor :=
  let interval :=
    match updateIntervalInMS with
    | Some v => if Js.eq v 0 then 100 else v
    | None => 100
    end in
  {| _updateIntervalInMS := interval; _nextUpdateFrame := interval |}.

Definition intervalInFrames (sampleRate : Q) (p : VolumeMeterProcessor) : Q :=
  _updateIntervalInMS p / 1000 * sampleRate.

(** [process(inputs, ...)] on [input = inputs[0]], a list of channels:
    the processor afterwards and the message posted, if any.  [Math_sqrt]
    stands for [Math.sqrt], which has no rational counterpart. *)
Definition sumOfSquares (samples : list Q) : Q :=
  fold_left (fun sum s => sum + s * s) samples 0.

Definition process (Math_sqrt : Q -> Q) (sampleRate : Q)
    (input : list (list Q)) (p : VolumeMeterProcessor)
  : VolumeMeterProcessor * option Q :=
  match input with
  | [] => (p, None)
  | samples :: _ =>
      let sum := sumOfSquares samples in
      let rms := Math_sqrt (sum / inject_Z (Z.of_nat (length samples))) in
      let next := _nextUpdateFrame p - inject_Z (Z.of_nat (length samples)) in
      if Js.gt 0 next
      then ({| _updateIntervalInMS := _updateIntervalInMS p;
               _nextUpdateFrame := next + intervalInFrames sampleRate p |},
            Some rms)
      else ({| _updateIntervalInMS := _updateIntervalInMS p;
               _nextUpdateFrame := next |}, None)
  end.

(** A run of render quanta: the processor afterwards and the messages
    posted, in order. *)
Fixpoint processAll (Math_sqrt : Q -> Q) (sampleRate : Q)
    (blocks : list (list (list Q))) (p : VolumeMeterProcessor)
  : VolumeMeterProcessor * list Q :=
  match blocks with
  | [] => (p, [])
  | input :: rest =>
      let '(p1, message) := process Math_sqrt sampleRate input p in
      let '(p2, messages) := processAll Math_sqrt sampleRate rest p1 in
      (p2, match message with Some rms => rms :: messages | None => messages end)
  end.

(** The number of frames [process] counts for an input: the length of its
    first channel, none when no channel is connected. *)
Definition framesOf (input : list (list Q)) : Q :=
  match input with
  | [] => 0
  | samples :: _ => inject_Z (Z.of_nat (length samples))
  end.

Definition totalFrames (blocks : list (list (list Q))) : Q :=
  fold_right (fun input total => framesOf input + total) 0 blocks.

(** ** The waveform of a clip ([Waveform.tsx]) *)





(** ** A clip gesture from press to release ([onClipActionStart], the
    window-listener effect, [handleClipEditEnd]) *)







(** ** A small session used in the examples *)

Definition example_clip : AudioClip :=
  {| clipId := "clip-a"; fileId := "file-a"; clip_name := "take.wav";
     startTime := 0; startOffset := 0; duration := 10; sourceDuration := 10;
     isSelected := true |}.

Definition example_track : Track :=
  {| id := 1; name := "Audio 1"; trackType := audio; volume := 8 # 10;
     pan := 0; isMuted := false; isSoloed := false; effects := [];
     clips := [example_clip] |}.

Definition example_project : ProjectState :=
  {| tracks := [example_track]; loopRegion := None |}.

(** Stopped, one decoded ten-second file, the playhead at 3 s. *)
Definition example_daw : Daw :=
  {| isPlaying := false; isRecording := false; isLooping := false;
     playheadPosition := 3; projectState := example_project;
     runtimeAudioBuffers := {[ "file-a" := {| buffer_duration := 10 |} ]};
     isSnapping := true; zoomLevel := 1; editingAction := None;
     sourcesRef := ∅; animationFrameRef := false; startTimeRef := 0;
     pauseTimeRef := 0; persisted := None; pendingPlay := false;
     started := []; stopped := [] |}.

(** Stopped at 0 with the loop region [[2, 5)] set and looping off. *)
Definition loop_region_daw : Daw :=
  {| isPlaying := false; isRecording := false; isLooping := false;
     playheadPosition := 0; projectState :=
       {| tracks := [example_track];
          loopRegion := Some {| loop_start := 2; loop_end := 5 |} |};
     runtimeAudioBuffers := ∅; isSnapping := true; zoomLevel := 1;
     editingAction := None; sourcesRef := ∅; animationFrameRef := false;
     startTimeRef := 0; pauseTimeRef := 0; persisted := None;
     pendingPlay := false; started := []; stopped := [] |}.

(** Play pressed at device time 100, then the loop button. *)
Definition late_loop_daw : Daw :=
  toggleLooping (handlePlay 100 loop_region_daw).

(** The loop button first, then play at device time 100. *)
Definition looping_daw : Daw :=
  handlePlay 100 (toggleLooping loop_region_daw).

(** A clip that starts at 0.3 and lasts 1.1 (the numbers these literals
    denote), selected, with the playhead at 0.9. *)
Definition rounding_clip : AudioClip :=
  {| clipId := "clip-a"; fileId := "file-a"; clip_name := "take.wav";
     startTime := Js.round64 (3 # 10); startOffset := 0;
     duration := Js.round64 (11 # 10); sourceDuration := 10;
     isSelected := true |}.

Definition rounding_daw : Daw :=
  {| isPlaying := false; isRecording := false; isLooping := false;
     playheadPosition := Js.round64 (9 # 10);
     projectState :=
       {| tracks := [set_clips [rounding_clip] example_track];
          loopRegion := None |};
     runtimeAudioBuffers := {[ "file-a" := {| buffer_duration := 10 |} ]};
     isSnapping := true; zoomLevel := 1; editingAction := None;
     sourcesRef := ∅; animationFrameRef := false; startTimeRef := 0;
     pauseTimeRef := 0; persisted := None; pendingPlay := false;
     started := []; stopped := [] |}.

(** A clip that starts at 0.1 and lasts 0.7, with the playhead at
    0.7999999999999999, the value of [0.1 + 0.7]. *)
Definition refused_clip : AudioClip :=
  {| clipId := "clip-a"; fileId := "file-a"; clip_name := "take.wav";
     startTime := Js.round64 (1 # 10); startOffset := 0;
     duration := Js.round64 (7 # 10); sourceDuration := 10;
     isSelected := true |}.

Definition refused_daw : Daw :=
  {| isPlaying := false; isRecording := false; isLooping := false;
     playheadPosition :=
       Js.add (Js.round64 (1 # 10)) (Js.round64 (7 # 10));
     projectState :=
       {| tracks := [set_clips [refused_clip] example_track];
          loopRegion := None |};
     runtimeAudioBuffers := {[ "file-a" := {| buffer_duration := 10 |} ]};
     isSnapping := true; zoomLevel := 1; editingAction := None;
     sourcesRef := ∅; animationFrameRef := false; startTimeRef := 0;
     pauseTimeRef := 0; persisted := None; pendingPlay := false;
     started := []; stopped := [] |}.

(** The example session during a trim of the clip's start that began with
    the pointer at 0 s. *)
Definition example_trimming : Daw :=
  set_editingAction
    (Some (ClipEdit trim_start example_clip 1 0 example_clip)) example_daw.


Definition example_set_loop : Daw :=
  handleRulerInteraction 100 0 true 0 example_daw.

(** A track with two effects, EQ first, and the live source of its clip. *)
Definition example_eq : Effect :=
  {| effect_id := "fx-1";
     effect_kind := EQ {| frequency := 1000; gain := 3; q := 1 |} |}.

Definition example_compressor : Effect :=
  {| effect_id := "fx-2";
     effect_kind :=
       Compressor {| threshold := -24; ratio := 12; attack := 3 # 1000;
                     release := 1 # 4; knee := 30 |} |}.

Definition effects_track : Track :=
  {| id := 1; name := "Audio 1"; trackType := audio; volume := 8 # 10;
     pan := 0; isMuted := false; isSoloed := false;
     effects := [example_eq; example_compressor];
     clips := [example_clip] |}.

Definition example_sources : gmap string SourceNode :=
  {[ "clip-a" := {| source_buffer := "file-a"; source_when := 5;
                    source_offset := 3; source_duration := 7 |} ]}.

(** A project stored in the oldest format: a bare array holding one track
    without [trackType], with an inline clip and no [clips] list. *)
Definition legacy_track : StoredTrack :=
  {| stored_id := 1; stored_name := "Track 1"; stored_trackType := None;
     stored_volume := 8 # 10; stored_pan := 0; stored_isMuted := false;
     stored_isSoloed := false; stored_effects := [];
     stored_audioClip :=
       Some {| inline_fileId := "file-a"; inline_name := "take.wav";
               inline_startTime := 2; inline_duration := 10 |};
     stored_clips := None |}.

Definition legacy_project : StoredProject := StoredArray [legacy_track].

(** The session after the alt-press of [example_set_loop] and a pointer move
    at the same place. *)
Definition zero_loop_daw : Daw :=
  handleTimelineMouseMove 100 0 example_set_loop.

(** A bare track array whose track holds an inline clip of duration 0. *)
Definition empty_legacy_project : StoredProject :=
  StoredArray
    [{| stored_id := 1; stored_name := "Track 1"; stored_trackType := None;
        stored_volume := 8 # 10; stored_pan := 0; stored_isMuted := false;
        stored_isSoloed := false; stored_effects := [];
        stored_audioClip :=
          Some {| inline_fileId := "file-a"; inline_name := "take.wav";
                  inline_startTime := 2; inline_duration := 0 |};
        stored_clips := None |}].

(** A supply of pairwise distinct identifiers. *)
Fixpoint example_uuid (i : nat) : string :=
  match i with
  | O => "id"
  | S k => String.append "x" (example_uuid k)
  end.

(** The example session with a second, empty audio track. *)
Definition two_track_daw : Daw :=
  set_projectState
    {| tracks := [example_track; set_clips [] (newTrackOf audio [example_track])];
       loopRegion := None |}
    example_daw.

(** A file whose decoding yields a buffer of four seconds, and a decoder
    that rejects empty data. *)
Definition example_file : File :=
  {| file_name := "loop.wav"; file_data := [Byte.x52; Byte.x49] |}.

Definition example_decode (data : ArrayBuffer) : option AudioBuffer :=
  match data with
  | [] => None
  | _ => Some {| buffer_duration := 4 |}
  end.

(** Three render quanta: two with one channel of two frames, one with no
    channel connected. *)
Definition example_blocks : list (list (list Q)) :=
  [ [[1 # 2; - (1 # 2)]]; [[0; 0]]; [] ].

(** * Properties *)

(** ** Facts about the number primitives *)

Lemma js_gt_true a b : Js.gt a b = true <-> b < a.
Proof. unfold Js.gt. destruct (Qlt_le_dec b a); split; intros; try easy; lra. Qed.

Lemma js_gt_false a b : Js.gt a b = false <-> a <= b.
Proof. unfold Js.gt. destruct (Qlt_le_dec b a); split; intros; try easy; lra. Qed.

Lemma js_ge_true a b : Js.ge a b = true <-> b <= a.
Proof. unfold Js.ge. destruct (Qlt_le_dec a b); split; intros; try easy; lra. Qed.

Lemma js_ge_false a b : Js.ge a b = false <-> a < b.
Proof. unfold Js.ge. destruct (Qlt_le_dec a b); split; intros; try easy; lra. Qed.


Lemma js_le_false a b : Js.le a b = false <-> b < a.
Proof. apply js_ge_false. Qed.


Lemma js_Math_max_spec a b :
  (a < b /\ Js.Math_max a b = b) \/ (b <= a /\ Js.Math_max a b = a).
Proof. unfold Js.Math_max. destruct (Qlt_le_dec a b); auto. Qed.

Lemma js_Math_min_spec a b :
  (b < a /\ Js.Math_min a b = b) \/ (a <= b /\ Js.Math_min a b = a).
Proof. unfold Js.Math_min. destruct (Qlt_le_dec b a); auto. Qed.

(** Case analysis on every [Math.max] and [Math.min] in sight. *)
Ltac js_cases :=
  repeat match goal with
  | |- context [Js.Math_max ?a ?b] =>
      let H := fresh "Hmax" in
      destruct (js_Math_max_spec a b) as [[? H] | [? H]];
      rewrite !H in *; clear H
  | |- context [Js.Math_min ?a ?b] =>
      let H := fresh "Hmin" in
      destruct (js_Math_min_spec a b) as [[? H] | [? H]];
      rewrite !H in *; clear H
  | H0 : context [Js.Math_max ?a ?b] |- _ =>
      let H := fresh "Hmax" in
      destruct (js_Math_max_spec a b) as [[? H] | [? H]];
      rewrite !H in *; clear H
  | H0 : context [Js.Math_min ?a ?b] |- _ =>
      let H := fresh "Hmin" in
      destruct (js_Math_min_spec a b) as [[? H] | [? H]];
      rewrite !H in *; clear H
  end.

(** ** Facts about rounding *)

Lemma js_pow2_pos e : 0 < Js.pow2 e.
Proof. apply Qpower_0_lt. reflexivity. Qed.

Lemma js_pow2_plus a b : Js.pow2 (a + b) == Js.pow2 a * Js.pow2 b.
Proof. apply Qpower_plus. discriminate. Qed.

Lemma js_round_half_even_error y :
  Qabs (inject_Z (Js.round_half_even y) - y) <= 1 # 2.
Proof.
  unfold Js.round_half_even.
  pose proof (Qfloor_le y) as Hlo. pose proof (Qlt_floor y) as Hhi.
  rewrite inject_Z_plus in Hhi. change (inject_Z 1) with 1 in Hhi.
  apply Qabs_Qle_condition.
  destruct (Qcompare_spec (y - inject_Z (Qfloor y)) (1 # 2)) as [E|E|E].
  - destruct (Z.even (Qfloor y)); rewrite ?inject_Z_plus;
      change (inject_Z 1) with 1; lra.
  - lra.
  - rewrite inject_Z_plus. change (inject_Z 1) with 1. lra.
Qed.

Lemma js_floor_log2_le x : 0 < x -> Js.pow2 (Js.floor_log2 x) <= x.
Proof.
  intros Hx. unfold Js.floor_log2.
  destruct (Qle_bool (Js.pow2 _) x) eqn:E.
  - apply Qle_bool_iff. exact E.
  - clear E. destruct x as [n d]. cbn [Qnum Qden].
    assert (Hn : (0 < n)%Z).
    { unfold Qlt in Hx. simpl in Hx. lia. }
    pose proof (Z.log2_spec n Hn) as [Hn1 _].
    pose proof (Z.log2_spec (Zpos d) (Pos2Z.is_pos d)) as [_ Hd2].
    pose proof (Z.log2_nonneg n) as Ha.
    pose proof (Z.log2_nonneg (Zpos d)) as Hb.
    revert Hn1 Hd2 Ha Hb.
    generalize (Z.log2 n) as a. generalize (Z.log2 (Zpos d)) as b.
    intros b a Hn1 Hd2 Ha Hb.
    replace (a - b - 1)%Z with (a - Z.succ b)%Z by lia.
    unfold Js.pow2. rewrite Qpower_minus by discriminate.
    change 2 with (inject_Z 2).
    rewrite <- !Zpower_Qpower by lia.
    assert (Hp : (0 < 2 ^ Z.succ b)%Z) by (apply Z.pow_pos_nonneg; lia).
    assert (Hpa : (0 < 2 ^ a)%Z) by (apply Z.pow_pos_nonneg; lia).
    apply Qle_shift_div_r.
    + change 0 with (inject_Z 0). rewrite <- Zlt_Qlt. exact Hp.
    + revert Hn1 Hd2 Hp Hpa.
      generalize (2 ^ a)%Z as A. generalize (2 ^ Z.succ b)%Z as B.
      intros B A Hn1 Hd2 Hp Hpa.
      unfold Qle, Qmult, inject_Z. cbn [Qnum Qden].
      rewrite !Z.mul_1_r. nia.
Qed.

Lemma js_round_half_even_0 y : y == 0 -> Js.round_half_even y = 0%Z.
Proof.
  intros Hy. unfold Js.round_half_even.
  assert (Hf : Qfloor y = 0%Z).
  { rewrite (Qfloor_comp _ _ Hy). reflexivity. }
  rewrite Hf.
  assert (Hc : (y - inject_Z 0 ?= 1 # 2) = Lt).
  { rewrite <- Qlt_alt. change (inject_Z 0) with 0. lra. }
  rewrite Hc. reflexivity.
Qed.

(** Zero is not changed by rounding. *)
Lemma js_round64_0 x : x == 0 -> Js.round64 x == 0.
Proof.
  intros Hx. unfold Js.round64. rewrite Qred_correct.
  rewrite js_round_half_even_0.
  - change (inject_Z 0) with 0. lra.
  - generalize (Js.pow2 (Js.ulp_exponent x)). intros p.
    rewrite Hx. unfold Qdiv. lra.
Qed.

Lemma js_ulp_bound x :
  ~ x == 0 ->
  Js.pow2 (Js.ulp_exponent x) <= Qabs x * Js.EPSILON + Js.MIN_VALUE.
Proof.
  intros Hx.
  pose proof (Qabs_nonneg x) as Hx0.
  pose proof (js_pow2_pos (-52)) as H52.
  pose proof (js_pow2_pos (-1074)) as Hm.
  unfold Js.EPSILON, Js.MIN_VALUE, Js.ulp_exponent.
  destruct (Z.max_spec (Js.floor_log2 (Qabs x) - 52) (-1074))
    as [[_ ->]|[_ ->]].
  - assert (0 <= Qabs x * Js.pow2 (-52)) by (apply Qmult_le_0_compat; lra).
    lra.
  - assert (Hpos : 0 < Qabs x).
    { destruct (Qlt_le_dec 0 (Qabs x)) as [H|H]; [exact H|].
      exfalso. apply Hx.
      assert (Qabs x == 0) by lra.
      apply Qabs_Qle_condition in H. lra. }
    pose proof (js_floor_log2_le _ Hpos) as Hl.
    replace (Js.floor_log2 (Qabs x) - 52)%Z
      with (Js.floor_log2 (Qabs x) + (-52))%Z by lia.
    rewrite js_pow2_plus.
    assert (Js.pow2 (Js.floor_log2 (Qabs x)) * Js.pow2 (-52)
            <= Qabs x * Js.pow2 (-52)).
    { apply Qmult_le_compat_r; lra. }
    lra.
Qed.

Lemma js_rounding_error_nonneg x : 0 <= Js.rounding_error x.
Proof.
  unfold Js.rounding_error, Js.EPSILON, Js.MIN_VALUE.
  pose proof (Qabs_nonneg x). pose proof (js_pow2_pos (-52)).
  pose proof (js_pow2_pos (-1074)).
  assert (0 <= Qabs x * Js.pow2 (-52)) by (apply Qmult_le_0_compat; lra).
  apply Qle_shift_div_l; lra.
Qed.

(** Rounding moves a number by at most half a unit in its last place. *)
Lemma js_round64_error x :
  Qabs (Js.round64 x - x) <= Js.rounding_error x.
Proof.
  destruct (Qeq_dec x 0) as [Hx|Hx].
  - pose proof (js_round64_0 _ Hx) as H0.
    pose proof (js_rounding_error_nonneg x).
    apply Qabs_Qle_condition. lra.
  - pose proof (js_ulp_bound x Hx) as Hb.
    unfold Js.round64, Js.rounding_error. rewrite Qred_correct.
    set (e := Js.ulp_exponent x) in *.
    pose proof (js_pow2_pos e) as He.
    pose proof (js_round_half_even_error (x / Js.pow2 e)) as Hr.
    assert (E : inject_Z (Js.round_half_even (x / Js.pow2 e)) * Js.pow2 e - x
                == (inject_Z (Js.round_half_even (x / Js.pow2 e))
                    - x / Js.pow2 e) * Js.pow2 e).
    { field. lra. }
    rewrite E, Qabs_Qmult, (Qabs_pos (Js.pow2 e)) by lra.
    revert Hr. generalize (Qabs (inject_Z (Js.round_half_even (x / Js.pow2 e))
                           - x / Js.pow2 e)) as r. intros r Hr.
    assert (r * Js.pow2 e <= (1 # 2) * Js.pow2 e).
    { apply Qmult_le_compat_r; lra. }
    apply Qle_shift_div_l; lra.
Qed.

(** The numbers written 0.1, 0.2 and 0.3, and the sum [0.1 + 0.2]. *)
Example js_round64_literals :
  Js.round64 (1 # 10) = 3602879701896397 # 36028797018963968 /\
  Js.round64 (2 # 10) = 3602879701896397 # 18014398509481984 /\
  Js.round64 (3 # 10) = 5404319552844595 # 18014398509481984 /\
  Js.add (Js.round64 (1 # 10)) (Js.round64 (2 # 10))
  = 1351079888211149 # 4503599627370496.
Proof. vm_compute. repeat split. Qed.

(** ** Trimming keeps the clip invariants *)

Lemma gesture_rel_refl type c : gesture_rel type c c.
Proof. split; auto. Qed.

(** One drag frame on the clip of the running gesture. *)
Lemma editClip_frame eps type init cur delta :
  0 <= eps -> clip_inv eps init -> clip_inv eps cur ->
  gesture_rel type init cur ->
  clip_inv eps (editClip type init delta cur) /\
  gesture_rel type init (editClip type init delta cur).
Proof.
  intros Heps (Hi1 & Hi2 & Hi3) (Hc1 & Hc2 & Hc3) [Hsd Hoff].
  destruct type; unfold editClip, clip_inv, gesture_rel.
  - simpl. repeat split; auto; discriminate.
  - destruct (Js.gt _ 0 && Js.ge _ 0) eqn:Hg.
    + apply andb_true_iff in Hg. destruct Hg as [Hd Ho].
      apply js_gt_true in Hd. apply js_ge_true in Ho.
      simpl. rewrite Hsd. repeat split; auto; try discriminate. lra.
    + repeat split; auto; discriminate.
  - destruct (Js.gt _ 0) eqn:Hg.
    + apply js_gt_true in Hg. specialize (Hoff eq_refl).
      simpl. rewrite Hsd, Hoff. repeat split; auto.
      js_cases; lra.
    + repeat split; auto.
Qed.

(** A whole gesture: any number of drag frames, each with its own delta. *)
Lemma editClip_gesture eps type init deltas :
  0 <= eps -> clip_inv eps init ->
  clip_inv eps (fold_left (fun cur d => editClip type init d cur) deltas init).
Proof.
  intros Heps Hinit.
  cut (forall cur, clip_inv eps cur -> gesture_rel type init cur ->
         clip_inv eps
           (fold_left (fun cur d => editClip type init d cur) deltas cur)).
  { intros H. apply H; auto using gesture_rel_refl. }
  induction deltas as [|d ds IH]; intros cur Hcur Hrel; simpl; auto.
  destruct (editClip_frame eps type init cur d Heps Hinit Hcur Hrel).
  apply IH; assumption.
Qed.




(** ** The edit handler on the track list *)

(** [update_found] rewrites the first element that satisfies the test and
    nothing else. *)
Lemma update_found_middle {A} (P : A -> Prop) `{forall x, Decision (P x)}
    (f : A -> option A) (pre post : list A) (x y : A) :
  Forall (fun z => ~ P z) pre -> P x -> f x = Some y ->
  update_found P f (pre ++ x :: post) = Some (pre ++ y :: post).
Proof.
  intros Hpre Hx Hf. unfold update_found.
  assert (Hfind : list_find P (pre ++ x :: post) = Some (length pre, x)).
  { apply list_find_Some. split; [|split].
    - apply list_lookup_middle. reflexivity.
    - exact Hx.
    - intros j z Hj Hlt. rewrite lookup_app_l in Hj by exact Hlt.
      rewrite Forall_forall in Hpre. apply Hpre.
      apply list_elem_of_lookup. eauto. }
  rewrite Hfind, Hf. f_equal.
  replace (length pre) with (length pre + 0)%nat by lia.
  rewrite insert_app_r. reflexivity.
Qed.


(** With no gesture open, or a loop gesture, the handler changes nothing. *)
Lemma handleClipEditing_idle pointerX st :
  (editingAction st = None \/
   exists t, editingAction st = Some (SetLoop t)) ->
  handleClipEditing pointerX st = Some st.
Proof.
  intros [H | [t H]]; unfold handleClipEditing; rewrite H; reflexivity.
Qed.

(** A drag frame with the pointer at 230 px, zoom 1, snapping on: the
    pointer time 2.3 s snaps to the beat at 2.5 s, and the clip's start moves
    there. *)
Example snapped_trim_start_frame :
  pointerTimeOf example_trimming 230 == 5 # 2 /\
  exists st' c',
    handleClipEditing 230 example_trimming = Some st' /\
    tracks (projectState st') = [set_clips [c'] example_track] /\
    startTime c' == 5 # 2 /\ startOffset c' == 5 # 2 /\
    duration c' == 15 # 2 /\ persisted st' = None.
Proof.
  split; [reflexivity|]. eexists. eexists.
  split; [vm_compute; reflexivity|]. repeat split.
Qed.

(** ** Splitting the selected clip *)

Lemma getSelectedClip_from_Some ts c tid :
  getSelectedClip_from ts = Some (c, tid) ->
  exists before track after,
    ts = before ++ track :: after /\ id track = tid /\
    List.find isSelected (clips track) = Some c.
Proof.
  induction ts as [|t ts IH]; simpl; [discriminate|].
  destruct (List.find isSelected (clips t)) as [sel|] eqn:Hf.
  - intros [= -> <-]. exists [], t, ts. auto.
  - intros H. destruct (IH H) as (b & tr & a & -> & Hid & Hsel).
    exists (t :: b), tr, a. auto.
Qed.

Lemma find_Some_lookup {A} (f : A -> bool) (l : list A) x :
  List.find f l = Some x -> f x = true /\ exists k, l !! k = Some x.
Proof.
  intros H. apply List.find_some in H. destruct H as [Hin Hf]. split; auto.
  apply list_elem_of_In, list_elem_of_lookup in Hin. exact Hin.
Qed.

(** In a track whose clip ids are pairwise distinct, looking a clip of the
    track up by its id finds that clip. *)
Lemma list_find_clipId cs c k :
  NoDup (map clipId cs) -> cs !! k = Some c ->
  list_find (fun c' => clipId c' = clipId c) cs = Some (k, c).
Proof.
  intros Hnd Hk. apply list_find_Some. split; [exact Hk|]. split; [reflexivity|].
  intros j y Hj Hlt Heq.
  assert (j = k); [|lia].
  apply (NoDup_lookup (map clipId cs) j k (clipId c)); auto.
  - rewrite list_lookup_fmap, Hj. simpl. congruence.
  - rewrite list_lookup_fmap, Hk. reflexivity.
Qed.

(** Tracks that hold no clip with the id of the split clip are left alone,
    whatever their track id. *)
Lemma splitInTrack_other clip tid c1 c2 (ts : list Track) :
  clipId clip ∉ map clipId (allClips ts) ->
  map (splitInTrack clip tid c1 c2) ts = ts.
Proof.
  induction ts as [|t ts IH]; simpl; auto.
  intros Hn. rewrite map_app in Hn. apply not_elem_of_app in Hn.
  destruct Hn as [Hnt Hn].
  rewrite IH by assumption. unfold splitInTrack.
  destruct (decide (id t = tid)); [|reflexivity].
  destruct (list_find _ (clips t)) as [[i x]|] eqn:Hf; [|reflexivity].
  apply list_find_Some in Hf. destruct Hf as (Hi & Hx & _).
  exfalso. apply Hnt. rewrite <- Hx.
  apply list_elem_of_fmap. exists x. split; [reflexivity|].
  apply list_elem_of_lookup. eauto.
Qed.

Lemma NoDup_clipIds_track (ts : list Track) track :
  NoDup (map clipId (allClips ts)) -> track ∈ ts ->
  NoDup (map clipId (clips track)).
Proof.
  intros Hnd Hin. apply list_elem_of_split in Hin.
  destruct Hin as (b & a & ->). unfold allClips in Hnd.
  rewrite flat_map_app in Hnd. simpl in Hnd.
  rewrite !map_app in Hnd.
  apply NoDup_app in Hnd. destruct Hnd as (_ & _ & Hnd).
  apply NoDup_app in Hnd. tauto.
Qed.

(** Without a selected clip the split command changes nothing. *)
Lemma handleSplit_nothing_selected newId st :
  getSelectedClip st = None -> handleSplit newId st = st.
Proof. intros H. unfold handleSplit. rewrite H. reflexivity. Qed.

(** C2, with the arithmetic of the code.  In a project whose clip ids are
    pairwise distinct, splitting the selected clip [c] at a time [t] with
    [startTime c < t < startTime c (+) duration c], where [(+)] and [(-)]
    are the rounded operations, replaces [c], where it stands in its track,
    by two clips: the first keeps [c]'s id and lasts [d = t (-) startTime c]
    and is selected; the second carries the new id, starts at [t] with
    source offset [startOffset c (+) d], lasts [duration c (-) d] and is
    not selected.  The first half starts where [c] started and ends within
    half a unit in the last place of [t - startTime c] from [t], where the
    second starts; the second ends within the two rounding errors from
    where [c] ended; both meet exactly when the subtractions are exact.  No
    other clip and no other track changes, and clip ids stay pairwise
    distinct when the new id was not in use.  At a time that is not
    strictly between [startTime c] and [startTime c (+) duration c] nothing
    changes. *)
Theorem split_replaces_clip_by_two_halves
    (newId : string) (st : Daw) (c : AudioClip) (trackId : Z) :
  getSelectedClip st = Some (c, trackId) ->
  NoDup (map clipId (allClips (tracks (projectState st)))) ->
  let t := playheadPosition st in
  let d := Js.sub t (startTime c) in
  let c1 := splitFirst c t in
  let c2 := splitSecond newId c t in
  let st' := handleSplit newId st in
  (startTime c < t /\ t < Js.add (startTime c) (duration c) ->
   (exists before track after pre post,
      tracks (projectState st) = before ++ track :: after /\
      id track = trackId /\ clips track = pre ++ c :: post /\
      tracks (projectState st') =
        before ++ set_clips (pre ++ [c1; c2] ++ post) track :: after) /\
   loopRegion (projectState st') = loopRegion (projectState st) /\
   same_identity c c1 /\ startTime c1 = startTime c /\
   startOffset c1 = startOffset c /\
   duration c1 = d /\ isSelected c1 = true /\
   clipId c2 = newId /\ fileId c2 = fileId c /\ clip_name c2 = clip_name c /\
   sourceDuration c2 = sourceDuration c /\ startTime c2 = t /\
   startOffset c2 = Js.add (startOffset c) d /\
   duration c2 = Js.sub (duration c) d /\ isSelected c2 = false /\
   Qabs (startTime c1 + duration c1 - startTime c2)
     <= Js.rounding_error (t - startTime c) /\
   Qabs (startTime c2 + duration c2 - (startTime c + duration c))
     <= Js.rounding_error (t - startTime c)
        + Js.rounding_error (duration c - d) /\
   (d == t - startTime c -> startTime c1 + duration c1 == startTime c2) /\
   (d == t - startTime c -> duration c2 == duration c - d ->
    startTime c2 + duration c2 == startTime c + duration c) /\
   (newId ∉ map clipId (allClips (tracks (projectState st))) ->
    NoDup (map clipId (allClips (tracks (projectState st')))))) /\
  (~ (startTime c < t /\ t < Js.add (startTime c) (duration c)) -> st' = st).
Proof.
  intros Hsel Hcids t d c1 c2 st'.
  assert (Hc_sel : isSelected c = true).
  { unfold getSelectedClip in Hsel.
    apply getSelectedClip_from_Some in Hsel.
    destruct Hsel as (b & tr & a & _ & _ & Hf).
    apply find_Some_lookup in Hf. tauto. }
  split.
  - intros [Hlo Hhi].
    assert (Hguard : Js.le t (startTime c)
                     || Js.ge t (Js.add (startTime c) (duration c)) = false).
    { apply orb_false_iff. split; [apply js_le_false | apply js_ge_false]; lra. }
    pose proof Hsel as Hsel0. unfold getSelectedClip in Hsel0.
    apply getSelectedClip_from_Some in Hsel0.
    destruct Hsel0 as (before & track & after & Hts & Hid & Hfind).
    apply find_Some_lookup in Hfind. destruct Hfind as [_ [k Hk]].
    assert (Htrack : track ∈ tracks (projectState st)).
    { rewrite Hts. apply elem_of_app. right. left. }
    pose proof (NoDup_clipIds_track _ _ Hcids Htrack) as Hnd.
    pose proof (list_find_clipId _ _ _ Hnd Hk) as Hlf.
    assert (Hnew : tracks (projectState st') =
                   before ++ set_clips (take k (clips track) ++ [c1; c2]
                                        ++ drop (S k) (clips track)) track
                          :: after).
    { subst st'. unfold handleSplit. rewrite Hsel. fold t. rewrite Hguard.
      fold c1. fold c2. simpl. rewrite Hts, map_app. simpl.
      assert (Hc_in : clipId c ∈ map clipId (clips track)).
      { apply list_elem_of_fmap. exists c. split; [reflexivity|].
        apply list_elem_of_lookup. eauto. }
      pose proof Hcids as Hsplit. rewrite Hts in Hsplit.
      unfold allClips in Hsplit. rewrite flat_map_app in Hsplit.
      simpl in Hsplit. rewrite !map_app in Hsplit.
      apply NoDup_app in Hsplit. destruct Hsplit as (_ & Hba & Hta).
      apply NoDup_app in Hta. destruct Hta as (_ & Hna & _).
      rewrite !splitInTrack_other.
      - unfold splitInTrack at 1. rewrite decide_True by exact Hid.
        rewrite Hlf. reflexivity.
      - apply Hna. exact Hc_in.
      - intros Hin. apply (Hba _ Hin). apply elem_of_app. left. exact Hc_in. }
    pose proof (js_round64_error (t - startTime c)) as He1.
    pose proof (js_round64_error (duration c - d)) as He2.
    fold (Js.sub t (startTime c)) in He1. fold d in He1.
    fold (Js.sub (duration c) d) in He2.
    apply Qabs_Qle_condition in He1. apply Qabs_Qle_condition in He2.
    split; [|split].
    + exists before, track, after, (take k (clips track)),
        (drop (S k) (clips track)).
      split; [exact Hts|]. split; [exact Hid|].
      split; [|exact Hnew]. symmetry. apply take_drop_middle. exact Hk.
    + subst st'. unfold handleSplit. rewrite Hsel. fold t. rewrite Hguard.
      reflexivity.
    + unfold same_identity.
      change (startTime c1) with (startTime c).
      change (duration c1) with d. change (startTime c2) with t.
      change (duration c2) with (Js.sub (duration c) d).
      split; [simpl; rewrite Hc_sel; tauto|].
      do 12 (split; [reflexivity|]).
      split; [apply Qabs_Qle_condition; lra|].
      split; [apply Qabs_Qle_condition; lra|].
      split; [intros E; lra|].
      split; [intros E1 E2; lra|].
      intros Hfresh. rewrite Hnew.
      assert (Hperm :
        map clipId (allClips (before
          ++ set_clips (take k (clips track) ++ [c1; c2]
                        ++ drop (S k) (clips track)) track :: after))
        ≡ₚ newId :: map clipId (allClips (tracks (projectState st)))).
      { rewrite Hts. unfold allClips. rewrite !flat_map_app. simpl.
        pose proof (take_drop_middle _ _ _ Hk) as Hmid.
        set (pre := take k (clips track)) in *.
        set (post := drop (S k) (clips track)) in *.
        rewrite <- Hmid. rewrite ?map_app. simpl. rewrite ?map_app. simpl.
        solve_Permutation. }
      rewrite Hperm. apply NoDup_cons. split; assumption.
  - intros Hout. subst st'. unfold handleSplit. rewrite Hsel. fold t.
    destruct (Js.le t (startTime c)
              || Js.ge t (Js.add (startTime c) (duration c)))
      eqn:Hg; [reflexivity|].
    apply orb_false_iff in Hg. destruct Hg as [Hg1 Hg2].
    apply js_le_false in Hg1. apply js_ge_false in Hg2. tauto.
Qed.

Lemma split_replaces_clip_by_two_halves_witness :
  getSelectedClip example_daw = Some (example_clip, 1%Z) /\
  NoDup (map clipId (allClips (tracks (projectState example_daw)))) /\
  tracks (projectState (handleSplit "clip-b" example_daw)) =
    [set_clips [splitFirst example_clip 3; splitSecond "clip-b" example_clip 3]
       example_track] /\
  startTime (splitFirst example_clip 3) + duration (splitFirst example_clip 3)
    == startTime (splitSecond "clip-b" example_clip 3).
Proof.
  assert (H1 : getSelectedClip example_daw = Some (example_clip, 1%Z))
    by reflexivity.
  assert (H2 : NoDup (map clipId (allClips (tracks (projectState example_daw)))))
    by (apply (bool_decide_unpack _); vm_compute; exact I).
  split; [exact H1|]. split; [exact H2|].
  split; [vm_compute; reflexivity|].
  pose proof (split_replaces_clip_by_two_halves "clip-b" example_daw
                example_clip 1%Z H1 H2) as T.
  cbv zeta in T. destruct T as [T _].
  assert (Hin : startTime example_clip < playheadPosition example_daw /\
                playheadPosition example_daw
                < Js.add (startTime example_clip) (duration example_clip))
    by (vm_compute; split; reflexivity).
  destruct (T Hin) as (_ & _ & _ & _ & _ & _ & _ & _ & _ & _ & _ & _ & _ & _
                       & _ & _ & _ & E & _).
  apply E. vm_compute. reflexivity.
Defined.

(** The claim as stated fails in the arithmetic of the code.  A clip that
    starts at 0.3 and lasts 1.1, split at 0.9: the first half lasts
    0.6000000000000001 and so ends after 0.9, where the second starts; the
    intervals overlap, also when the end is computed as the code would.  A
    clip that starts at 0.1 and lasts 0.7 is not split at
    0.7999999999999999, although that time is strictly inside the clip: it
    is the rounded sum of start and duration. *)
Lemma split_halves_overlap_in_binary64 :
  (startTime rounding_clip < playheadPosition rounding_daw /\
   playheadPosition rounding_daw
   < startTime rounding_clip + duration rounding_clip) /\
  (exists c1 c2,
     tracks (projectState (handleSplit "clip-b" rounding_daw)) =
       [set_clips [c1; c2] (set_clips [rounding_clip] example_track)] /\
     startTime c2 = playheadPosition rounding_daw /\
     startTime c2 < startTime c1 + duration c1 /\
     ~ startTime c1 + duration c1 == startTime c2 /\
     ~ Js.add (startTime c1) (duration c1) == startTime c2) /\
  (startTime refused_clip < playheadPosition refused_daw /\
   playheadPosition refused_daw
   < startTime refused_clip + duration refused_clip) /\
  handleSplit "clip-b" refused_daw = refused_daw.
Proof.
  split; [vm_compute; split; reflexivity|]. split.
  - exists (splitFirst rounding_clip (playheadPosition rounding_daw)),
      (splitSecond "clip-b" rounding_clip (playheadPosition rounding_daw)).
    split; [vm_compute; reflexivity|]. split; [reflexivity|].
    split; [vm_compute; reflexivity|].
    split; intros H; vm_compute in H; discriminate.
  - split; [vm_compute; split; reflexivity|].
    vm_compute. reflexivity.
Qed.

(** ** Exclusive selection *)

Lemma allClips_selectInTrack key ts :
  allClips (map (selectInTrack key) ts) =
  map (fun c => set_isSelected (hasClipId key c) c) (allClips ts).
Proof.
  unfold allClips. induction ts as [|t ts IH]; simpl; auto.
  rewrite IH, map_app. reflexivity.
Qed.

Lemma selected_after_select key (cs : list AudioClip) :
  List.filter isSelected
    (map (fun c => set_isSelected (hasClipId key c) c) cs) =
  map (set_isSelected true) (List.filter (hasClipId key) cs).
Proof.
  induction cs as [|c cs IH]; simpl; auto.
  destruct (hasClipId key c); simpl; rewrite IH; reflexivity.
Qed.

Lemma hasClipId_true key c : hasClipId key c = true <-> clipId c = key.
Proof. apply String.eqb_eq. Qed.

Lemma filter_hasClipId_absent key (cs : list AudioClip) :
  key ∉ map clipId cs -> List.filter (hasClipId key) cs = [].
Proof.
  induction cs as [|c cs IH]; simpl; auto.
  intros Hn. apply not_elem_of_cons in Hn. destruct Hn as [Hne Hn].
  destruct (hasClipId key c) eqn:E.
  - apply hasClipId_true in E. congruence.
  - auto.
Qed.

(** With pairwise distinct clip ids at most one clip answers to an id. *)
Lemma count_hasClipId key (cs : list AudioClip) :
  NoDup (map clipId cs) ->
  length (List.filter (hasClipId key) cs) =
  if existsb (hasClipId key) cs then 1%nat else 0%nat.
Proof.
  induction cs as [|c cs IH]; simpl; auto.
  intros Hnd. apply NoDup_cons in Hnd. destruct Hnd as [Hn Hnd].
  destruct (hasClipId key c) eqn:E; simpl.
  - apply hasClipId_true in E. subst key.
    rewrite filter_hasClipId_absent by assumption. reflexivity.
  - auto.
Qed.

Lemma selectInTrack_same key t : same_but_clips t (selectInTrack key t).
Proof. unfold same_but_clips. simpl. repeat split; reflexivity. Qed.

Lemma selectInTrack_clips key t :
  Forall2 (fun c c' => same_but_selection c c' /\
                       (isSelected c' = true <-> clipId c = key))
    (clips t) (clips (selectInTrack key t)).
Proof.
  simpl. induction (clips t) as [|c cs IH]; simpl; constructor; auto.
  split.
  - unfold same_but_selection. simpl. repeat split; reflexivity.
  - simpl. apply String.eqb_eq.
Qed.

(** C6. After [selectClip(id)] on a project whose clip ids are pairwise
    distinct, exactly one clip of the whole project is selected when some
    clip carries that id, and none otherwise; the selected clips are those
    carrying the id; every other clip field, every track field and the loop
    region are unchanged. *)
Theorem select_is_exclusive (clipIdToSelect : string) (trackId : Z)
    (st : Daw) :
  NoDup (map clipId (allClips (tracks (projectState st)))) ->
  let st' := handleSelectClip clipIdToSelect trackId st in
  selectedCount (tracks (projectState st')) =
    (if existsb (hasClipId clipIdToSelect)
          (allClips (tracks (projectState st)))
     then 1%nat else 0%nat) /\
  Forall2
    (fun t t' =>
       same_but_clips t t' /\
       Forall2 (fun c c' => same_but_selection c c' /\
                            (isSelected c' = true <->
                             clipId c = clipIdToSelect))
         (clips t) (clips t'))
    (tracks (projectState st)) (tracks (projectState st')) /\
  loopRegion (projectState st') = loopRegion (projectState st).
Proof.
  intros Hnd st'. subst st'. unfold handleSelectClip. simpl.
  split; [|split; [|reflexivity]].
  - unfold selectedCount.
    rewrite allClips_selectInTrack, selected_after_select, length_map.
    apply count_hasClipId. exact Hnd.
  - induction (tracks (projectState st)) as [|t ts IH]; simpl;
      constructor.
    + split; [apply selectInTrack_same | apply selectInTrack_clips].
    + apply IH. unfold allClips in Hnd. simpl in Hnd.
      rewrite map_app in Hnd. apply NoDup_app in Hnd. tauto.
Qed.

Lemma select_is_exclusive_witness :
  NoDup (map clipId (allClips (tracks (projectState example_daw)))) /\
  selectedCount
    (tracks (projectState (handleSelectClip "clip-a" 1 example_daw)))
  = 1%nat /\
  selectedCount
    (tracks (projectState (handleSelectClip "" (-1) example_daw)))
  = 0%nat.
Proof.
  assert (H : NoDup (map clipId (allClips (tracks (projectState example_daw)))))
    by (apply (bool_decide_unpack _); vm_compute; exact I).
  split; [exact H|]. split.
  - apply (select_is_exclusive "clip-a" 1 example_daw H).
  - apply (select_is_exclusive "" (-1) example_daw H).
Defined.

(** ** Scheduling on play *)


Lemma handleSeek_stops newTime deviceNow st :
  isPlaying (handleSeek newTime deviceNow st) = false /\
  pauseTimeRef (handleSeek newTime deviceNow st) = newTime /\
  playheadPosition (handleSeek newTime deviceNow st) = newTime /\
  projectState (handleSeek newTime deviceNow st) = projectState st /\
  runtimeAudioBuffers (handleSeek newTime deviceNow st)
  = runtimeAudioBuffers st.
Proof. repeat split; reflexivity. Qed.

Lemma handlePlay_started deviceNow st :
  isPlaying st = false ->
  started (handlePlay deviceNow st) =
  started st ++ playProject (runtimeAudioBuffers st) (pauseTimeRef st)
                  deviceNow (projectState st).
Proof. intros H. unfold handlePlay. rewrite H. reflexivity. Qed.




(** The session of the end-to-end example, computed. *)
Example seek3_then_play :
  started (handlePlay 5 (handleSeek 3 0 example_daw)) =
  [("clip-a", {| source_buffer := "file-a"; source_when := 5;
                 source_offset := 3; source_duration := 7 |})].
Proof. vm_compute. reflexivity. Qed.

(** ** Loop wrap-around *)

Lemma stopPlaybackOf_current shouldUpdatePosition deviceNow st :
  stopPlaybackOf (isPlaying st) shouldUpdatePosition deviceNow st
  = stopPlayback shouldUpdatePosition deviceNow st.
Proof.
  unfold stopPlaybackOf, stopPlayback.
  destruct (isPlaying st); reflexivity.
Qed.

Lemma handleSeekOf_current newTime deviceNow st :
  handleSeekOf (isPlaying st) newTime deviceNow st
  = handleSeek newTime deviceNow st.
Proof.
  unfold handleSeekOf, handleSeek. rewrite stopPlaybackOf_current.
  reflexivity.
Qed.

Lemma js_trunc_floor x : 0 <= x -> Js.trunc x = Qfloor x.
Proof.
  intros Hx. unfold Js.trunc. destruct x as [n d]. simpl.
  apply Z.quot_div_nonneg; [|lia].
  unfold Qle in Hx. simpl in Hx. lia.
Qed.

(** For a dividend that is not negative and a positive divisor the remainder
    is a number, lies in [[0, b)] and differs from the dividend by a whole
    number of divisors. *)
Lemma js_rem_spec a b :
  0 <= a -> 0 < b ->
  exists r, Js.rem a b = Some r /\ 0 <= r /\ r < b /\
    exists k : Z, (0 <= k)%Z /\ r == a - b * inject_Z k.
Proof.
  intros Ha Hb.
  assert (Hq : 0 <= a / b).
  { apply Qle_shift_div_l; lra. }
  assert (Hb0 : ~ b == 0) by lra.
  unfold Js.rem.
  assert (Hz : Qeq_bool b 0 = false).
  { destruct (Qeq_bool b 0) eqn:E; [|reflexivity].
    apply Qeq_bool_iff in E. contradiction. }
  rewrite Hz, (js_trunc_floor _ Hq).
  pose proof (Qfloor_le (a / b)) as Hlo.
  pose proof (Qlt_floor (a / b)) as Hhi.
  assert (Hk : (0 <= Qfloor (a / b))%Z).
  { change 0%Z with (Qfloor 0). apply Qfloor_resp_le. exact Hq. }
  set (k := Qfloor (a / b)) in *.
  assert (E : a / b * b == a) by (field; exact Hb0).
  assert (Hlo' : inject_Z k * b <= a).
  { apply (Qmult_le_compat_r _ _ b) in Hlo; [|lra].
    rewrite E in Hlo. exact Hlo. }
  assert (Hhi' : a < inject_Z (k + 1) * b).
  { apply (Qmult_lt_compat_r _ _ b) in Hhi; [|lra].
    rewrite E in Hhi. exact Hhi. }
  rewrite inject_Z_plus in Hhi'.
  change (inject_Z 1) with 1 in Hhi'.
  eexists. split; [reflexivity|].
  split; [lra|]. split; [lra|].
  exists k. split; [exact Hk|reflexivity].
Qed.

Lemma js_rem_zero a b r :
  0 < b -> a == 0 -> Js.rem a b = Some r -> r == 0.
Proof.
  intros Hb Ha Hr.
  destruct (js_rem_spec a b) as (r' & Hr' & Hlo & _ & k & Hk & E);
    [lra | exact Hb |].
  rewrite Hr in Hr'. injection Hr' as <-.
  assert (0 <= b * inject_Z k).
  { apply Qmult_le_0_compat; [lra|].
    change 0 with (inject_Z 0). rewrite <- Zle_Qle. exact Hk. }
  lra.
Qed.

(** The remainder by zero is NaN. *)
Lemma js_rem_NaN a b : b == 0 -> Js.rem a b = None.
Proof.
  intros Hb. unfold Js.rem.
  apply Qeq_bool_iff in Hb. rewrite Hb. reflexivity.
Qed.

(** A cycle of the frame callback of a render in which looping was on and a
    loop region [{start, end}] with [start < end] was set: once the elapsed
    time has reached [end] it publishes the position
    [start + ((elapsed - end) mod (end - start))], which lies in
    [[start, end)] and is the elapsed time moved back by a whole number of
    loop lengths.  It stops and forgets the sources and requests no further
    frame; since play was pressed in a render that was not playing,
    [isPlaying] stays as it is and no play is queued. *)
Lemma loop_wraparound (captured st : Daw) (deviceNow : Q)
    (region : LoopRegion) :
  isLooping captured = true ->
  loopRegion (projectState captured) = Some region ->
  loop_start region < loop_end region ->
  let elapsed := deviceNow - startTimeRef st in
  loop_end region <= elapsed ->
  exists r st',
    Js.rem (elapsed - loop_end region) (loop_end region - loop_start region)
    = Some r /\
    animationLoop captured deviceNow st = Some st' /\
    playheadPosition st' = loop_start region + r /\
    pauseTimeRef st' = loop_start region + r /\
    animationFrameRef st' = false /\ sourcesRef st' = ∅ /\
    isPlaying st' = (if isPlaying captured then false else isPlaying st) /\
    pendingPlay st' = (if isPlaying captured then true else pendingPlay st) /\
    loop_start region <= loop_start region + r /\
    loop_start region + r < loop_end region /\
    (exists k : Z,
       (1 <= k)%Z /\
       loop_start region + r
       == elapsed - inject_Z k * (loop_end region - loop_start region)).
Proof.
  intros Hloop Hregion Hlt elapsed Hreach.
  destruct (js_rem_spec (elapsed - loop_end region)
              (loop_end region - loop_start region))
    as (r & Hr & Hlo & Hhi & k & Hk & E); [lra | lra |].
  exists r. eexists. split; [exact Hr|].
  split.
  { unfold animationLoop. rewrite Hregion, Hloop. fold elapsed.
    apply js_ge_true in Hreach. rewrite Hreach. cbn [andb].
    rewrite Hr. reflexivity. }
  do 6 (split; [reflexivity|]).
  split; [lra|]. split; [lra|].
  exists (k + 1)%Z. split; [lia|].
  rewrite inject_Z_plus. change (inject_Z 1) with 1. rewrite E. ring.
Qed.

(** With a loop region of length zero the position published is NaN. *)
Lemma loop_of_length_zero (captured st : Daw) (deviceNow : Q)
    (region : LoopRegion) :
  isLooping captured = true ->
  loopRegion (projectState captured) = Some region ->
  loop_start region == loop_end region ->
  loop_end region <= deviceNow - startTimeRef st ->
  animationLoop captured deviceNow st = None.
Proof.
  intros Hloop Hregion Hz Hreach.
  unfold animationLoop. rewrite Hregion, Hloop.
  apply js_ge_true in Hreach. rewrite Hreach. cbn [andb].
  rewrite js_rem_NaN by lra. reflexivity.
Qed.

(** The frame callback of a render in which looping was off never wraps,
    whatever [isLooping] and the loop region are by now: before the end of
    the song it publishes the elapsed time and requests the next frame. *)
Lemma animationLoop_reads_captured_state (captured st : Daw) (deviceNow : Q) :
  isLooping captured = false ->
  deviceNow - startTimeRef st < SONG_DURATION_SECONDS ->
  exists st',
    animationLoop captured deviceNow st = Some st' /\
    playheadPosition st' = deviceNow - startTimeRef st /\
    animationFrameRef st' = true /\ isPlaying st' = isPlaying st /\
    sourcesRef st' = sourcesRef st /\ pauseTimeRef st' = pauseTimeRef st.
Proof.
  intros Hoff Hsong. unfold animationLoop. rewrite Hoff. cbn [andb].
  apply js_ge_false in Hsong. rewrite Hsong.
  destruct (loopRegion (projectState captured));
    eexists; (split; [reflexivity|]); repeat split.
Qed.

(** C7, at the input where the code departs from it.  Play is pressed at
    device time 100 with the loop region [{start: 2, end: 5}] set and
    looping off, and looping is switched on while playing.  At device time
    106.5 the session is playing with looping enabled and the elapsed time
    6.5 has passed [end]; the claim gives the position
    [2 + ((6.5 - 5) mod 3) = 3.5], the cycle publishes 6.5 and requests the
    next frame.  Had looping been on when play was pressed, the same cycle
    would publish 3.5. *)
Theorem loop_switched_on_while_playing :
  isPlaying late_loop_daw = true /\ isLooping late_loop_daw = true /\
  loopRegion (projectState late_loop_daw)
  = Some {| loop_start := 2; loop_end := 5 |} /\
  (213 # 2) - startTimeRef late_loop_daw == 13 # 2 /\
  (exists r,
     Js.rem ((213 # 2) - startTimeRef late_loop_daw - 5) (5 - 2) = Some r /\
     2 + r == 7 # 2) /\
  (exists st',
     animationLoop loop_region_daw (213 # 2) late_loop_daw = Some st' /\
     playheadPosition st' == 13 # 2 /\ animationFrameRef st' = true /\
     isPlaying st' = true) /\
  (exists st',
     animationLoop (toggleLooping loop_region_daw) (213 # 2) looping_daw
     = Some st' /\
     playheadPosition st' == 7 # 2 /\ animationFrameRef st' = false).
Proof.
  split; [reflexivity|]. split; [reflexivity|]. split; [reflexivity|].
  split; [vm_compute; reflexivity|].
  split; [eexists; split; [vm_compute; reflexivity|vm_compute; reflexivity]|].
  split; eexists; (split; [vm_compute; reflexivity|]);
    split; vm_compute; auto.
Qed.

(** ** The loop gesture *)

Lemma setLoopRegion_ordered anchor time :
  loop_start (setLoopRegion anchor time) <= loop_end (setLoopRegion anchor time)
  /\ (loop_start (setLoopRegion anchor time)
      < loop_end (setLoopRegion anchor time) <-> ~ time == anchor).
Proof.
  unfold setLoopRegion. simpl.
  js_cases; split; try split; intros; lra.
Qed.

(** C10, with [start <= end] in place of [start < end]. Every pointer move
    of a set-loop gesture publishes the region
    [{start: min(anchor, current), end: max(anchor, current)}]; it satisfies
    [start <= end], and [start < end] exactly when the pointer's time
    differs from the anchor. *)
Theorem set_loop_region_ordered (x scrollLeft anchor : Q) (st : Daw) :
  editingAction st = Some (SetLoop anchor) ->
  let time := (x + scrollLeft) / pixelsPerSecond st in
  let st' := handleTimelineMouseMove x scrollLeft st in
  exists region,
    loopRegion (projectState st') = Some region /\
    loop_start region = Js.Math_min anchor time /\
    loop_end region = Js.Math_max anchor time /\
    loop_start region <= loop_end region /\
    (loop_start region < loop_end region <-> ~ time == anchor).
Proof.
  intros Hact time st'. exists (setLoopRegion anchor time).
  split.
  - subst st'. unfold handleTimelineMouseMove. rewrite Hact. reflexivity.
  - split; [reflexivity|]. split; [reflexivity|].
    apply setLoopRegion_ordered.
Qed.

Lemma set_loop_region_ordered_witness :
  editingAction example_set_loop = Some (SetLoop (100 / 100)) /\
  exists region,
    loopRegion (projectState (handleTimelineMouseMove 250 0 example_set_loop))
    = Some region /\
    loop_start region <= loop_end region.
Proof.
  assert (H : editingAction example_set_loop = Some (SetLoop (100 / 100)))
    by reflexivity.
  split; [exact H|].
  destruct (set_loop_region_ordered 250 0 (100 / 100) example_set_loop H)
    as (region & Hr & _ & _ & Hle & _).
  exists region. split; [exact Hr | exact Hle].
Defined.

(** C10 does not hold with [start < end]: an alt-press on the ruler followed
    by a pointer move at the same timeline time publishes a region with
    [start = end]. *)
Lemma set_loop_zero_length_region :
  exists region,
    loopRegion (projectState (handleTimelineMouseMove 100 0 example_set_loop))
    = Some region /\
    ~ loop_start region < loop_end region.
Proof.
  eexists. split; [reflexivity|].
  vm_compute. intros H. discriminate H.
Qed.

(** ** Effective gain *)

Lemma isAnyTrackSoloed_true p :
  isAnyTrackSoloed p = true <->
  exists t, t ∈ tracks p /\ isSoloed t = true.
Proof.
  unfold isAnyTrackSoloed. rewrite existsb_exists.
  split; intros (t & Ht & Hs); exists t; split; auto;
    apply list_elem_of_In; assumption.
Qed.

(** C5. The gain a strip applies is 0 when its track is muted or when some
    track of the project is soloed and this one is not, and the track's
    volume otherwise; it is handed to the gain parameter as the target of
    [setTargetAtTime] with the time constant [RAMP_TIME] = 10 ms, never as
    an immediate value. *)
Theorem effective_gain (now : Q) (p : ProjectState) (track : Track) :
  let target := targetGain (isAnyTrackSoloed p) track in
  (isMuted track = true \/
   ((exists t, t ∈ tracks p /\ isSoloed t = true) /\
    isSoloed track = false) ->
   target = 0) /\
  (isMuted track = false ->
   (forall t, t ∈ tracks p -> isSoloed t = false) \/ isSoloed track = true ->
   target = volume track) /\
  gainEffect now (isAnyTrackSoloed p) track
  = SetTargetAtTime target now RAMP_TIME /\
  (forall v t, gainEffect now (isAnyTrackSoloed p) track
               <> SetValueAtTime v t) /\
  0 < RAMP_TIME /\ RAMP_TIME == 1 / 100.
Proof.
  intros target. subst target. unfold targetGain.
  split; [|split; [|split; [|split; [|split]]]].
  - intros [Hm | [Hany Hs]].
    + rewrite Hm. reflexivity.
    + apply isAnyTrackSoloed_true in Hany. rewrite Hany, Hs.
      rewrite orb_true_r. reflexivity.
  - intros Hm [Hnone | Hs]; rewrite Hm; simpl.
    + destruct (isAnyTrackSoloed p) eqn:Hany; [|reflexivity].
      apply isAnyTrackSoloed_true in Hany. destruct Hany as (t & Ht & Hst).
      rewrite (Hnone t Ht) in Hst. discriminate.
    + rewrite Hs, andb_false_r. reflexivity.
  - reflexivity.
  - intros v t. unfold gainEffect. discriminate.
  - unfold RAMP_TIME. lra.
  - unfold RAMP_TIME. reflexivity.
Qed.

(** The two cases of the specification's example. *)
Example soloed_out_gain track other :
  isMuted track = false -> isSoloed track = false -> isSoloed other = true ->
  targetGain
    (isAnyTrackSoloed {| tracks := [track; other]; loopRegion := None |})
    track = 0.
Proof.
  intros Hm Hs Ho. unfold targetGain, isAnyTrackSoloed. simpl.
  rewrite Hm, Hs, Ho. reflexivity.
Qed.

(** ** Offline export *)






(** The example session exports its one clip: ten seconds at 48 kHz. *)
Example export_example :
  handleExportAudio 48000 example_daw =
  Some {| numberOfChannels := 2; render_length := 480000;
          render_sampleRate := 48000;
          render_sources :=
            [({| source_buffer := "file-a"; source_when := 0;
                 source_offset := 0; source_duration := 10 |},
              Destination)] |}.
Proof. vm_compute. reflexivity. Qed.

(** ** The channel graph *)

Lemma elem_of_connect a b g x :
  x ∈ connect a b g <-> x ∈ g \/ x = (a, b).
Proof.
  unfold connect. destruct (decide ((a, b) ∈ g)) as [Hin|Hin].
  - split; [auto|]. intros [H | ->]; assumption.
  - rewrite elem_of_app, list_elem_of_singleton. reflexivity.
Qed.

Lemma NoDup_connect a b g : NoDup g -> NoDup (connect a b g).
Proof.
  intros Hnd. unfold connect. destruct (decide ((a, b) ∈ g)) as [Hin|Hin].
  - exact Hnd.
  - apply NoDup_app. split; [exact Hnd|]. split.
    + intros x Hx Hy. apply list_elem_of_singleton in Hy. subst x.
      contradiction.
    + apply NoDup_singleton.
Qed.

Lemma elem_of_disconnect a g x :
  x ∈ disconnect a g <-> x ∈ g /\ x.1 <> a.
Proof. unfold disconnect. rewrite list_elem_of_filter. tauto. Qed.

Lemma NoDup_disconnect a g : NoDup g -> NoDup (disconnect a g).
Proof. apply NoDup_filter. Qed.

Lemma elem_of_disconnect_all {K} (f : K -> AudioNode) (ks : list K) g x :
  x ∈ foldr (fun k g => disconnect (f k) g) g ks <->
  x ∈ g /\ forall k, k ∈ ks -> x.1 <> f k.
Proof.
  induction ks as [|k ks IH]; simpl.
  - split; [|tauto]. intros H. split; [exact H|]. intros k Hk. inversion Hk.
  - rewrite elem_of_disconnect, IH. split.
    + intros [[Hx Hall] Hk]. split; [exact Hx|].
      intros j Hj. apply elem_of_cons in Hj. destruct Hj as [-> | Hj];
        auto.
    + intros [Hx Hall]. repeat split; auto.
      * intros j Hj. apply Hall. right. exact Hj.
      * apply Hall. left.
Qed.

Lemma NoDup_disconnect_all {K} (f : K -> AudioNode) (ks : list K) g :
  NoDup g -> NoDup (foldr (fun k g => disconnect (f k) g) g ks).
Proof.
  intros Hnd. induction ks as [|k ks IH]; simpl; auto using NoDup_disconnect.
Qed.

Lemma elem_of_successors g a b : b ∈ successors g a <-> (a, b) ∈ g.
Proof.
  unfold successors. rewrite list_elem_of_fmap. split.
  - intros ([a0 b0] & -> & H). apply list_elem_of_filter in H.
    destruct H as [E H]. simpl in E. subst a0. exact H.
  - intros H. exists (a, b). split; [reflexivity|].
    apply list_elem_of_filter. split; [reflexivity | exact H].
Qed.

Lemma NoDup_successors g a : NoDup g -> NoDup (successors g a).
Proof.
  intros Hnd. unfold successors. apply NoDup_fmap_2_strong.
  - intros [a1 b1] [a2 b2] H1 H2 E. simpl in E. subst b2.
    apply list_elem_of_filter in H1, H2. simpl in H1, H2.
    destruct H1 as [-> _], H2 as [-> _]. reflexivity.
  - apply NoDup_filter. exact Hnd.
Qed.

Lemma NoDup_only {A} (l : list A) (b : A) :
  NoDup l -> (forall x, x ∈ l <-> x = b) -> l = [b].
Proof.
  intros Hnd Hall. destruct l as [|x l].
  - assert (H : b ∈ []) by (apply Hall; reflexivity). inversion H.
  - assert (x = b) by (apply Hall; left). subst x.
    destruct l as [|y l]; [reflexivity|].
    assert (y = b) by (apply Hall; right; left). subst y.
    apply NoDup_cons in Hnd. destruct Hnd as [Hn _].
    exfalso. apply Hn. left.
Qed.

(** A node with a single outgoing connection. *)
Lemma successors_only g a b :
  NoDup g -> (forall y, (a, y) ∈ g <-> y = b) -> successors g a = [b].
Proof.
  intros Hnd Hall. apply NoDup_only.
  - apply NoDup_successors. exact Hnd.
  - intros y. rewrite elem_of_successors. apply Hall.
Qed.

Lemma chain_fold (L : list Effect) (s0 : Chain) :
  let s := fold_left chainEffect L s0 in
  let a := chain_allocated s0 in
  chain_allocated s = (a + length L)%nat /\
  lastNodeForChain s = chainPrev (lastNodeForChain s0) a (length L) /\
  (forall x, x ∈ chain_graph s <->
             x ∈ chain_graph s0 \/
             exists j, (j < length L)%nat /\
                       x = (EffectNode (a + j),
                            chainPrev (lastNodeForChain s0) a j)) /\
  chain_created s =
    chain_created s0
    ++ imap (fun j e => (EffectNode (a + j), effect_kind e)) L /\
  (NoDup (chain_graph s0) -> NoDup (chain_graph s)).
Proof.
  revert s0. induction L as [|e L IH]; intros s0; simpl.
  - split; [lia|]. split; [reflexivity|]. split; [|split].
    + intros x. split; [auto|]. intros [H | (j & Hj & _)]; [exact H | lia].
    + rewrite app_nil_r. reflexivity.
    + auto.
  - destruct (IH (chainEffect s0 e)) as (Ha & Hl & Hg & Hc & Hn).
    simpl in Ha, Hl, Hg, Hc, Hn.
    split; [lia|]. split; [|split; [|split]].
    + rewrite Hl. destruct (length L); simpl; f_equal; lia.
    + intros x. rewrite Hg, elem_of_connect. split.
      * intros [[H | ->] | (j & Hj & ->)].
        -- left. exact H.
        -- right. exists 0%nat. split; [lia|]. simpl.
           rewrite Nat.add_0_r. reflexivity.
        -- right. exists (S j). split; [lia|].
           destruct j; simpl; repeat f_equal; lia.
      * intros [H | (j & Hj & ->)].
        -- left. left. exact H.
        -- destruct j as [|j].
           ++ left. right. simpl. rewrite Nat.add_0_r. reflexivity.
           ++ right. exists j. split; [lia|].
              destruct j; simpl; repeat f_equal; lia.
    + rewrite Hc, <- app_assoc. simpl. f_equal.
      rewrite Nat.add_0_r. f_equal. apply imap_ext.
      intros j x _. simpl. repeat f_equal. lia.
    + intros Hnd. apply Hn. apply NoDup_connect. exact Hnd.
Qed.

Lemma elem_of_trackSources (sourceNodes : gmap string SourceNode) track key :
  key ∈ trackSources sourceNodes track <->
  is_Some (sourceNodes !! key) /\ exists c, c ∈ clips track /\ clipId c = key.
Proof.
  unfold trackSources. rewrite list_elem_of_filter, list_elem_of_fmap.
  rewrite existsb_exists. split.
  - intros [(c & Hc & Hk) ([k v] & -> & Hkv)]. simpl in *.
    apply elem_of_map_to_list in Hkv. split; [eauto|].
    exists c. split; [apply list_elem_of_In; exact Hc|].
    apply String.eqb_eq. exact Hk.
  - intros [[v Hv] (c & Hc & Hk)]. split.
    + exists c. split; [apply list_elem_of_In; exact Hc|].
      apply String.eqb_eq. exact Hk.
    + exists (key, v). split; [reflexivity|].
      apply elem_of_map_to_list. exact Hv.
Qed.

Lemma elem_of_connectSources sourceNodes last cs g x :
  x ∈ connectSources sourceNodes last cs g <->
  x ∈ g \/
  exists c, c ∈ cs /\ is_Some (sourceNodes !! clipId c) /\
            x = (ClipSource (clipId c), last).
Proof.
  unfold connectSources. revert g. induction cs as [|c cs IH]; intros g; simpl.
  - split; [auto|]. intros [H | (c & Hc & _)]; [exact H | inversion Hc].
  - rewrite IH. destruct (sourceNodes !! clipId c) as [v|] eqn:Hv.
    + rewrite elem_of_connect. split.
      * intros [[H | ->] | (c' & Hc' & Hs & ->)]; auto.
        -- right. exists c. split; [left|]. rewrite Hv. eauto.
        -- right. exists c'. split; [right; exact Hc'|]. auto.
      * intros [H | (c' & Hc' & Hs & ->)]; auto.
        apply elem_of_cons in Hc'. destruct Hc' as [-> | Hc'].
        -- left. right. reflexivity.
        -- right. exists c'. auto.
    + split.
      * intros [H | (c' & Hc' & Hs & ->)]; auto.
        right. exists c'. split; [right; exact Hc'|]. auto.
      * intros [H | (c' & Hc' & Hs & ->)]; auto.
        apply elem_of_cons in Hc'. destruct Hc' as [-> | Hc'].
        -- rewrite Hv in Hs. destruct Hs as [? Hs]. discriminate.
        -- right. exists c'. auto.
Qed.

Lemma NoDup_connectSources sourceNodes last cs g :
  NoDup g -> NoDup (connectSources sourceNodes last cs g).
Proof.
  unfold connectSources. revert g. induction cs as [|c cs IH]; intros g Hnd;
    simpl; auto.
  apply IH. destruct (sourceNodes !! clipId c); auto using NoDup_connect.
Qed.

(** The connections a rebuild leaves behind, one by one. *)
Lemma rebuild_graph sourceNodes track strip x :
  let n := length (effects track) in
  let a := allocated strip in
  x ∈ graph (rebuildChain sourceNodes track strip) <->
  (x ∈ graph strip /\
   (forall k, k ∈ trackSources sourceNodes track -> x.1 <> ClipSource k) /\
   (forall o, o ∈ (map_to_list (effectNodesRef strip)).*2 -> x.1 <> o)) \/
  (exists j, (j < n)%nat /\
             x = (EffectNode (a + j), chainPrev PannerNode a j)) \/
  (exists c, c ∈ clips track /\ is_Some (sourceNodes !! clipId c) /\
             x = (ClipSource (clipId c), chainPrev PannerNode a n)) \/
  x = (PannerNode, GainNode) \/ x = (GainNode, Destination) \/
  (meterNodeRef strip = true /\ x = (GainNode, MeterNode)).
Proof.
  intros n a. unfold rebuildChain.
  set (g2 := foldr disconnect _ _).
  set (s0 := {| lastNodeForChain := PannerNode; chain_graph := g2;
                newEffectNodes := ∅; chain_created := created strip;
                chain_allocated := allocated strip |}).
  destruct (chain_fold (reverse (effects track)) s0) as (_ & Hl & Hg & _ & _).
  simpl in Hl, Hg. rewrite length_reverse in Hl, Hg. fold n a in Hl, Hg.
  set (s := fold_left chainEffect (reverse (effects track)) s0) in *.
  fold (connectSources sourceNodes (lastNodeForChain s) (clips track)
          (chain_graph s)).
  assert (Hg2 : x ∈ g2 <->
                x ∈ graph strip /\
                (forall k, k ∈ trackSources sourceNodes track ->
                           x.1 <> ClipSource k) /\
                (forall o, o ∈ (map_to_list (effectNodesRef strip)).*2 ->
                           x.1 <> o)).
  { subst g2. rewrite (elem_of_disconnect_all (fun o => o)).
    rewrite (elem_of_disconnect_all ClipSource). tauto. }
  assert (Hcore :
    x ∈ connect GainNode Destination
          (connect PannerNode GainNode
             (connectSources sourceNodes (lastNodeForChain s) (clips track)
                (chain_graph s))) <->
    x ∈ g2 \/
    (exists j, (j < n)%nat /\
               x = (EffectNode (a + j), chainPrev PannerNode a j)) \/
    (exists c, c ∈ clips track /\ is_Some (sourceNodes !! clipId c) /\
               x = (ClipSource (clipId c), chainPrev PannerNode a n)) \/
    x = (PannerNode, GainNode) \/ x = (GainNode, Destination)).
  { rewrite !elem_of_connect, elem_of_connectSources, Hg, Hl. tauto. }
  simpl. destruct (meterNodeRef strip).
  - rewrite elem_of_connect, Hcore, Hg2. intuition congruence.
  - rewrite Hcore, Hg2. intuition congruence.
Qed.

Lemma rebuild_NoDup sourceNodes track strip :
  NoDup (graph strip) -> NoDup (graph (rebuildChain sourceNodes track strip)).
Proof.
  intros Hnd. unfold rebuildChain.
  set (g2 := foldr disconnect _ _).
  assert (Hg2 : NoDup g2).
  { subst g2. apply (NoDup_disconnect_all (fun o => o)).
    apply (NoDup_disconnect_all ClipSource). exact Hnd. }
  set (s0 := {| lastNodeForChain := PannerNode; chain_graph := g2;
                newEffectNodes := ∅; chain_created := created strip;
                chain_allocated := allocated strip |}).
  destruct (chain_fold (reverse (effects track)) s0) as (_ & _ & _ & _ & Hn).
  specialize (Hn Hg2).
  set (s := fold_left chainEffect (reverse (effects track)) s0) in *.
  fold (connectSources sourceNodes (lastNodeForChain s) (clips track)
          (chain_graph s)).
  simpl.
  destruct (meterNodeRef strip);
    repeat apply NoDup_connect; apply NoDup_connectSources; exact Hn.
Qed.

Lemma rebuild_created sourceNodes track strip :
  created (rebuildChain sourceNodes track strip) =
  created strip
  ++ imap (fun j e => (EffectNode (allocated strip + j), effect_kind e))
       (reverse (effects track)) /\
  allocated (rebuildChain sourceNodes track strip) =
  (allocated strip + length (effects track))%nat.
Proof.
  unfold rebuildChain.
  set (g2 := foldr disconnect _ _).
  set (s0 := {| lastNodeForChain := PannerNode; chain_graph := g2;
                newEffectNodes := ∅; chain_created := created strip;
                chain_allocated := allocated strip |}).
  destruct (chain_fold (reverse (effects track)) s0) as (Ha & _ & _ & Hc & _).
  simpl in Ha, Hc. rewrite length_reverse in Ha. simpl. auto.
Qed.

(** A rebuild keeps the strip well formed. *)
Lemma rebuild_wf sourceNodes track strip :
  strip_wf strip -> strip_wf (rebuildChain sourceNodes track strip).
Proof.
  intros [Hfresh Hcreated Hpanner Hgain Hnd].
  destruct (rebuild_created sourceNodes track strip) as [Hc Ha].
  split.
  - intros k b H. rewrite Ha. apply rebuild_graph in H. simpl in H.
    destruct H as [(H & _) | [(j & Hj & E) | [(c & _ & _ & E) | [E | [E | [_ E]]]]]];
      try discriminate.
    + apply Hfresh in H. lia.
    + inversion E. lia.
  - intros k kind H. rewrite Ha. rewrite Hc in H.
    apply elem_of_app in H. destruct H as [H | H].
    + apply Hcreated in H. lia.
    + apply elem_of_lookup_imap in H. destruct H as (j & e & E & Hj).
      inversion E. apply lookup_lt_Some in Hj.
      rewrite length_reverse in Hj. lia.
  - intros b H. apply rebuild_graph in H. simpl in H.
    destruct H as [(H & _) | [(j & Hj & E) | [(c & _ & _ & E) | [E | [E | [_ E]]]]]];
      try discriminate.
    + apply Hpanner. exact H.
    + inversion E. reflexivity.
  - intros b H. apply rebuild_graph in H. simpl in H.
    destruct H as [(H & _) | [(j & Hj & E) | [(c & _ & _ & E) | [E | [E | [_ E]]]]]];
      try discriminate.
    + apply Hgain. exact H.
    + inversion E. auto.
    + inversion E. auto.
  - apply rebuild_NoDup. exact Hnd.
Qed.

Lemma chainNode_at base n i :
  (i < n)%nat -> chainNode base n i = EffectNode (base + (n - 1 - i)).
Proof. intros H. unfold chainNode. rewrite decide_True by exact H. reflexivity. Qed.

Lemma chainNode_end base n : chainNode base n n = PannerNode.
Proof. unfold chainNode. rewrite decide_False by lia. reflexivity. Qed.

Lemma chainPrev_chainNode base n i :
  (i < n)%nat ->
  chainPrev PannerNode base (n - 1 - i) = chainNode base n (S i).
Proof.
  intros H. unfold chainNode. destruct (decide (S i < n)%nat) as [Hlt|Hge].
  - replace (n - 1 - i)%nat with (S (n - 1 - S i)) by lia. reflexivity.
  - replace (n - 1 - i)%nat with 0%nat by lia. reflexivity.
Qed.

Lemma chainPrev_head base n : chainPrev PannerNode base n = chainNode base n 0.
Proof.
  unfold chainNode. destruct n as [|m]; [reflexivity|].
  destruct (decide (0 < S m)%nat) as [_|H]; [|lia].
  simpl. f_equal. lia.
Qed.

(** Every effect node of the new chain feeds the node of the next declared
    effect, the last one the panner. *)
Lemma rebuild_effect_successor sourceNodes track strip i :
  strip_wf strip -> (i < length (effects track))%nat ->
  let node := chainNode (allocated strip) (length (effects track)) in
  successors (graph (rebuildChain sourceNodes track strip)) (node i)
  = [node (S i)].
Proof.
  intros Hwf Hi node. apply successors_only.
  - apply rebuild_NoDup, Hwf.
  - intros y. subst node. rewrite chainNode_at by exact Hi.
    rewrite rebuild_graph. simpl.
    rewrite <- chainPrev_chainNode by exact Hi. split.
    + intros [(H & _) | [(j & Hj & E) | [(c & _ & _ & E) | [E | [E | [_ E]]]]]];
        try discriminate.
      * apply (wf_fresh _ Hwf) in H. lia.
      * inversion E as [[Hj' Hy]].
        assert (j = length (effects track) - 1 - i)%nat by lia. subst j.
        reflexivity.
    + intros ->. right. left. exists (length (effects track) - 1 - i)%nat.
      split; [lia | reflexivity].
Qed.

(** Every live source of a clip of the track feeds the node of the first
    declared effect, or the panner when the track has no effects. *)
Lemma rebuild_source_successor sourceNodes track strip clip :
  strip_wf strip -> clip ∈ clips track ->
  is_Some (sourceNodes !! clipId clip) ->
  successors (graph (rebuildChain sourceNodes track strip))
    (ClipSource (clipId clip))
  = [chainNode (allocated strip) (length (effects track)) 0].
Proof.
  intros Hwf Hc Hs. apply successors_only.
  - apply rebuild_NoDup, Hwf.
  - intros y. rewrite rebuild_graph. simpl. rewrite chainPrev_head. split.
    + intros [(_ & H & _) | [(j & Hj & E) | [(c & _ & _ & E) | [E | [E | [_ E]]]]]];
        try discriminate.
      * exfalso. apply (H (clipId clip)); [|reflexivity].
        apply elem_of_trackSources. split; [exact Hs|]. eauto.
      * inversion E. reflexivity.
    + intros ->. right. right. left. exists clip. auto.
Qed.

Lemma rebuild_panner_successor sourceNodes track strip :
  strip_wf strip ->
  successors (graph (rebuildChain sourceNodes track strip)) PannerNode
  = [GainNode].
Proof.
  intros Hwf. apply successors_only.
  - apply rebuild_NoDup, Hwf.
  - intros y. split.
    + intros H. apply (wf_panner _ (rebuild_wf sourceNodes track strip Hwf)).
      exact H.
    + intros ->. apply rebuild_graph. simpl. auto.
Qed.

(** The node at position [i] of the new chain was created for the [i]-th
    declared effect. *)
Lemma rebuild_builtInto sourceNodes track strip i e :
  strip_wf strip -> effects track !! i = Some e ->
  builtInto (rebuildChain sourceNodes track strip)
    (chainNode (allocated strip) (length (effects track)) i)
  = Some (effect_kind e).
Proof.
  intros Hwf He.
  pose proof (lookup_lt_Some _ _ _ He) as Hi.
  rewrite chainNode_at by exact Hi.
  set (n := length (effects track)) in *. set (a := allocated strip).
  set (j := (n - 1 - i)%nat).
  unfold builtInto.
  destruct (rebuild_created sourceNodes track strip) as [Hc _]. rewrite Hc.
  fold a.
  assert (Hold : list_find (fun x : AudioNode * EffectKind => x.1 = EffectNode (a + j))
                   (created strip) = None).
  { apply list_find_None, Forall_forall. intros [nd kind] Hin E.
    simpl in E. subst nd. apply (wf_created _ Hwf) in Hin. subst a. lia. }
  rewrite (list_find_app_r _ _ _ Hold).
  assert (Hnew : list_find (fun x : AudioNode * EffectKind => x.1 = EffectNode (a + j))
                   (imap (fun j e => (EffectNode (a + j), effect_kind e))
                      (reverse (effects track)))
                 = Some (j, (EffectNode (a + j), effect_kind e))).
  { apply list_find_Some. split; [|split].
    - rewrite list_lookup_imap, reverse_lookup by (fold n; lia).
      fold n. replace (n - S j)%nat with i by lia. rewrite He. reflexivity.
    - reflexivity.
    - intros j' y Hy Hlt E. apply list_lookup_imap_Some in Hy.
      destruct Hy as (e' & _ & ->). simpl in E. inversion E. lia. }
  rewrite Hnew. reflexivity.
Qed.

(** Followed from position [i] of the new chain, the signal meets the
    declared effects from index [i] on, in declared order. *)
Lemma rebuild_processingOrder sourceNodes track strip :
  strip_wf strip ->
  forall k i fuel,
    (i + k = length (effects track))%nat -> (k < fuel)%nat ->
    processingOrder fuel (rebuildChain sourceNodes track strip)
      (chainNode (allocated strip) (length (effects track)) i)
    = map effect_kind (drop i (effects track)).
Proof.
  intros Hwf. induction k as [|k IH]; intros i fuel Hik Hfuel.
  - assert (i = length (effects track)) by lia. subst i.
    rewrite chainNode_end, drop_all. destruct fuel; reflexivity.
  - destruct fuel as [|fuel]; [lia|].
    assert (Hi : (i < length (effects track))%nat) by lia.
    destruct (lookup_lt_is_Some_2 _ _ Hi) as [e He].
    pose proof (rebuild_builtInto sourceNodes track strip i e Hwf He) as Hb.
    pose proof (rebuild_effect_successor sourceNodes track strip i Hwf Hi)
      as Hs.
    cbv zeta in Hs.
    rewrite (drop_S _ _ _ He). simpl map.
    rewrite <- (IH (S i) fuel) by lia.
    rewrite (chainNode_at _ _ i Hi) in Hb, Hs |- *.
    cbn [processingOrder]. rewrite Hb, Hs. reflexivity.
Qed.

(** C4. After a rebuild of the channel graph of a track with the declared
    effects [e1, ..., en], every live clip source of the track feeds the
    node of [e1] and nothing else, the node of each [ei] feeds the node of
    [e(i+1)] and nothing else, the node of [en] feeds the panner, the panner
    feeds the gain node and the gain node the destination (when the track
    has no effects the sources feed the panner).  The nodes are created and
    wired last declared effect first, yet the signal meets the effects in
    declared order, index 0 first. *)
Theorem effects_process_in_declared_order
    (sourceNodes : gmap string SourceNode) (track : Track) (strip : Strip) :
  strip_wf strip ->
  let strip' := rebuildChain sourceNodes track strip in
  let n := length (effects track) in
  let node := chainNode (allocated strip) n in
  (forall clip,
     clip ∈ clips track -> is_Some (sourceNodes !! clipId clip) ->
     successors (graph strip') (ClipSource (clipId clip)) = [node 0%nat]) /\
  (forall i e,
     effects track !! i = Some e ->
     builtInto strip' (node i) = Some (effect_kind e) /\
     successors (graph strip') (node i) = [node (S i)]) /\
  node n = PannerNode /\
  successors (graph strip') PannerNode = [GainNode] /\
  Destination ∈ successors (graph strip') GainNode /\
  created strip' =
    created strip
    ++ imap (fun j e => (EffectNode (allocated strip + j), effect_kind e))
         (reverse (effects track)) /\
  (forall fuel, (n < fuel)%nat ->
     processingOrder fuel strip' (node 0%nat)
     = map effect_kind (effects track)) /\
  strip_wf strip'.
Proof.
  intros Hwf strip' n node.
  split; [|split; [|split; [|split; [|split; [|split; [|split]]]]]].
  - intros clip Hc Hs. apply rebuild_source_successor; assumption.
  - intros i e He. split.
    + apply rebuild_builtInto; assumption.
    + apply rebuild_effect_successor; [exact Hwf|].
      apply (lookup_lt_Some _ _ _ He).
  - apply chainNode_end.
  - apply rebuild_panner_successor. exact Hwf.
  - apply elem_of_successors, rebuild_graph. simpl. auto 10.
  - apply rebuild_created.
  - intros fuel Hfuel.
    apply (rebuild_processingOrder sourceNodes track strip Hwf n 0 fuel);
      [reflexivity | exact Hfuel].
  - apply rebuild_wf. exact Hwf.
Qed.

Lemma initialStrip_wf : strip_wf initialStrip.
Proof.
  split; simpl; try (intros ? ? H; inversion H); try (intros ? H; inversion H).
  apply NoDup_nil_2.
Qed.

Lemma connectMeter_wf strip : strip_wf strip -> strip_wf (connectMeter strip).
Proof.
  intros [Hfresh Hcreated Hpanner Hgain Hnd]. split; simpl.
  - intros k b H. apply elem_of_connect in H.
    destruct H as [H | H]; [eauto | discriminate].
  - exact Hcreated.
  - intros b H. apply elem_of_connect in H.
    destruct H as [H | H]; [eauto | discriminate].
  - intros b H. apply elem_of_connect in H.
    destruct H as [H | H]; [eauto | inversion H; auto].
  - apply NoDup_connect. exact Hnd.
Qed.

Lemma effects_process_in_declared_order_witness :
  strip_wf (connectMeter initialStrip) /\
  processingOrder 3 (rebuildChain example_sources effects_track
                       (connectMeter initialStrip))
    (chainNode 0 2 0)
  = [effect_kind example_eq; effect_kind example_compressor].
Proof.
  assert (Hwf : strip_wf (connectMeter initialStrip))
    by exact (connectMeter_wf _ initialStrip_wf).
  split; [exact Hwf|].
  pose proof (effects_process_in_declared_order example_sources effects_track
                (connectMeter initialStrip) Hwf) as T.
  cbv zeta in T. destruct T as (_ & _ & _ & _ & _ & _ & T & _).
  apply (T 3%nat). simpl. lia.
Defined.

(** The rebuilt graph of the example, computed: the compressor is wired
    first, into the panner, and the EQ into the compressor. *)
Example rebuild_example :
  graph (rebuildChain example_sources effects_track
           (connectMeter initialStrip)) =
  [(GainNode, MeterNode); (EffectNode 0, PannerNode);
   (EffectNode 1, EffectNode 0); (ClipSource "clip-a", EffectNode 1);
   (PannerNode, GainNode); (GainNode, Destination)] /\
  created (rebuildChain example_sources effects_track
             (connectMeter initialStrip)) =
  [(EffectNode 0, effect_kind example_compressor);
   (EffectNode 1, effect_kind example_eq)].
Proof. split; vm_compute; reflexivity. Qed.

(** ** Loading a stored project *)

Lemma map_clipId_deselect (cs : list AudioClip) :
  map clipId (map (set_isSelected false) cs) = map clipId cs.
Proof. rewrite map_map. reflexivity. Qed.

Lemma clip_wf_inline eps newId a :
  0 <= eps -> 0 <= inline_startTime a -> 0 < inline_duration a ->
  clip_wf eps (clipOfInline newId a).
Proof.
  intros Heps Hs Hd. unfold clip_wf, clip_inv. simpl. repeat split; lra.
Qed.

Lemma deselect_Forall2 (cs : list AudioClip) :
  Forall2 (fun c c' => same_but_selection c c' /\ isSelected c' = false)
    cs (map (set_isSelected false) cs).
Proof.
  induction cs as [|c cs IH]; simpl; constructor; [|exact IH].
  split; [unfold same_but_selection; simpl; tauto | reflexivity].
Qed.

Lemma migrateTrack_from uuid n0 n t :
  (n0 <= n)%nat ->
  migrated_from uuid n0 t (migrateTrack uuid n t).1 /\
  (n <= (migrateTrack uuid n t).2)%nat.
Proof.
  intros Hn. unfold migrateTrack, migrated_from.
  destruct (stored_audioClip t) as [a|] eqn:Ha,
           (stored_clips t) as [cs|] eqn:Hc; simpl;
    (split; [|lia]);
    do 7 (split; [reflexivity|]);
    (split; [intros ty ->; reflexivity|]);
    (split; [intros ->; reflexivity|]).
  - split; [intros cs' [= <-]; apply deselect_Forall2|].
    split; [intros a' E; discriminate E|]. intros E; discriminate E.
  - split; [intros cs' E; discriminate E|].
    split; [|intros _ E; discriminate E].
    intros a' _ [= <-]. exists (clipOfInline (uuid n) a), n.
    simpl. tauto.
  - split; [intros cs' [= <-]; apply deselect_Forall2|].
    split; [intros a' E; discriminate E|]. intros E; discriminate E.
  - split; [intros cs' E; discriminate E|].
    split; [intros a' _ E; discriminate E|]. reflexivity.
Qed.

Lemma migrateTracks_from uuid n0 ts :
  forall n, (n0 <= n)%nat ->
    Forall2 (migrated_from uuid n0) ts (migrateTracks uuid n ts).1.
Proof.
  induction ts as [|t ts IH]; intros n Hn; simpl; [constructor|].
  destruct (migrateTrack_from uuid n0 n t Hn) as [Ht Hle].
  destruct (migrateTrack uuid n t) as [t' n1].
  simpl in Ht, Hle.
  assert (Hn1 : (n0 <= n1)%nat) by lia.
  specialize (IH n1 Hn1). destruct (migrateTracks uuid n1 ts) as [rest' n2].
  simpl in *. constructor; assumption.
Qed.

(** The clips of a migrated track: the stored ones, or the one minted from
    the inline clip under the next identifier. *)
Lemma migrateTrack_clips uuid n t :
  let r := migrateTrack uuid n t in
  (clips r.1 = map (set_isSelected false) (default [] (stored_clips t)) /\
   r.2 = n) \/
  (exists a, stored_audioClip t = Some a /\ stored_clips t = None /\
             clips r.1 = [clipOfInline (uuid n) a] /\ r.2 = S n).
Proof.
  unfold migrateTrack.
  destruct (stored_audioClip t) as [a|], (stored_clips t) as [cs|]; simpl;
    eauto 10.
Qed.

Lemma migrateTracks_cons uuid n t ts :
  migrateTracks uuid n (t :: ts) =
  ((migrateTrack uuid n t).1
     :: (migrateTracks uuid (migrateTrack uuid n t).2 ts).1,
   (migrateTracks uuid (migrateTrack uuid n t).2 ts).2).
Proof.
  simpl. destruct (migrateTrack uuid n t) as [t' n1]. simpl.
  destruct (migrateTracks uuid n1 ts) as [rest' n2]. reflexivity.
Qed.

(** Where the clip ids of the migrated tracks come from. *)
Lemma migrateTracks_ids uuid ts :
  forall n,
    (n <= (migrateTracks uuid n ts).2)%nat /\
    forall x, x ∈ map clipId (allClips (migrateTracks uuid n ts).1) ->
              x ∈ map clipId (storedClips ts) \/
              exists i, (n <= i < (migrateTracks uuid n ts).2)%nat /\
                        x = uuid i.
Proof.
  induction ts as [|t ts IH]; intros n.
  - simpl. split; [lia|]. intros x H. inversion H.
  - rewrite migrateTracks_cons. simpl.
    destruct (IH (migrateTrack uuid n t).2) as [Hle Hids].
    destruct (migrateTrack_clips uuid n t) as [[Hc Hn] | (a & _ & Hnone & Hc & Hn)];
      cbv zeta in *; rewrite Hn in *.
    + split; [exact Hle|]. intros x Hx.
      rewrite map_app, elem_of_app in Hx. rewrite map_app, elem_of_app.
      destruct Hx as [Hx | Hx].
      * left. left. rewrite Hc, map_clipId_deselect in Hx. exact Hx.
      * destruct (Hids x Hx) as [H | (i & Hi & ->)]; [auto|].
        right. exists i. split; [lia | reflexivity].
    + split; [lia|]. intros x Hx.
      rewrite map_app, elem_of_app in Hx. rewrite map_app, elem_of_app.
      destruct Hx as [Hx | Hx].
      * rewrite Hc in Hx. apply list_elem_of_singleton in Hx. simpl in Hx.
        right. exists n. split; [lia | exact Hx].
      * destruct (Hids x Hx) as [H | (i & Hi & ->)]; [auto|].
        right. exists i. split; [lia | reflexivity].
Qed.

Lemma migrateTracks_NoDup uuid ts :
  forall n,
    NoDup (map clipId (storedClips ts)) ->
    (forall i j, (n <= i)%nat -> (n <= j)%nat -> uuid i = uuid j -> i = j) ->
    (forall i, (n <= i)%nat -> uuid i ∉ map clipId (storedClips ts)) ->
    NoDup (map clipId (allClips (migrateTracks uuid n ts).1)).
Proof.
  induction ts as [|t ts IH]; intros n Hnd Hinj Hfresh.
  - simpl. constructor.
  - rewrite migrateTracks_cons. simpl.
    simpl in Hnd, Hfresh. rewrite map_app in Hnd, Hfresh.
    apply NoDup_app in Hnd. destruct Hnd as (Hnd1 & Hdisj & Hnd2).
    pose proof (migrateTracks_ids uuid ts (migrateTrack uuid n t).2)
      as [Hle Hids].
    destruct (migrateTrack_clips uuid n t) as [[Hc Hn] | (a & _ & Hnone & Hc & Hn)];
      cbv zeta in *; rewrite Hn in *; rewrite map_app; apply NoDup_app.
    + split; [|split].
      * rewrite Hc, map_clipId_deselect. exact Hnd1.
      * intros x Hx Hx'. rewrite Hc, map_clipId_deselect in Hx.
        destruct (Hids x Hx') as [H | (i & Hi & ->)].
        -- exact (Hdisj x Hx H).
        -- apply (Hfresh i); [lia|]. apply elem_of_app. left. exact Hx.
      * apply IH; auto.
        intros i Hi H. apply (Hfresh i Hi). apply elem_of_app. right. exact H.
    + split; [|split].
      * rewrite Hc. simpl. apply NoDup_singleton.
      * intros x Hx Hx'. rewrite Hc in Hx. simpl in Hx.
        apply list_elem_of_singleton in Hx. subst x.
        destruct (Hids _ Hx') as [H | (i & Hi & E)].
        -- apply (Hfresh n); [lia|]. apply elem_of_app. right. exact H.
        -- apply Hinj in E; lia.
      * apply IH; auto.
        -- intros i j Hi Hj. apply Hinj; lia.
        -- intros i Hi H. apply (Hfresh i); [lia|].
           apply elem_of_app. right. exact H.
Qed.

Lemma migrateTracks_clips_wf eps uuid ts :
  0 <= eps ->
  forall n,
    Forall (clip_wf eps) (storedClips ts) -> Forall inline_inv ts ->
    Forall (fun c => clip_wf eps c /\ isSelected c = false)
      (allClips (migrateTracks uuid n ts).1).
Proof.
  intros Heps. induction ts as [|t ts IH]; intros n Hwf Hinl.
  - simpl. constructor.
  - rewrite migrateTracks_cons. simpl. simpl in Hwf.
    apply Forall_app in Hwf. destruct Hwf as [Hwf1 Hwf2].
    apply Forall_cons in Hinl. destruct Hinl as [Hinl1 Hinl2].
    apply Forall_app. split; [|apply IH; assumption].
    destruct (migrateTrack_clips uuid n t) as [[Hc _] | (a & Ha & _ & Hc & _)];
      cbv zeta in *; rewrite Hc.
    + apply Forall_fmap. eapply Forall_impl; [exact Hwf1|].
      intros c Hcw. simpl. split; [exact Hcw | reflexivity].
    + constructor; [|constructor]. split; [|reflexivity].
      unfold inline_inv in Hinl1. rewrite Ha in Hinl1.
      apply clip_wf_inline; tauto.
Qed.

Lemma migrated_from_ids uuid n ts ts' :
  Forall2 (migrated_from uuid n) ts ts' -> map id ts' = map stored_id ts.
Proof.
  induction 1 as [|s t ss tt Hst _ IH]; simpl; [reflexivity|].
  destruct Hst as (-> & _). rewrite IH. reflexivity.
Qed.

Lemma migrated_from_mix uuid n ts ts' :
  Forall2 (migrated_from uuid n) ts ts' ->
  Forall (fun s => mix_inv (stored_volume s) (stored_pan s)
                     (stored_effects s)) ts ->
  Forall track_inv ts'.
Proof.
  induction 1 as [|s t ss tt Hst _ IH]; intros Hall; constructor.
  - apply Forall_cons in Hall. destruct Hall as [Hs _].
    destruct Hst as (_ & _ & Hv & Hp & _ & _ & He & _).
    unfold track_inv. rewrite Hv, Hp, He. exact Hs.
  - apply IH. apply Forall_cons in Hall. tauto.
Qed.

Lemma none_selected (cs : list AudioClip) :
  Forall (fun c => isSelected c = false) cs -> List.filter isSelected cs = [].
Proof.
  induction 1 as [|c cs Hc _ IH]; simpl; [reflexivity|].
  rewrite Hc. exact IH.
Qed.

(** Writing a project and reading it back clears the selection and changes
    nothing else; no identifier is minted. *)
Lemma migrateTracks_stored uuid n (ts : list Track) :
  migrateTracks uuid n (map storeTrack ts) =
  (map (fun t => set_clips (map (set_isSelected false) (clips t)) t) ts, n).
Proof.
  induction ts as [|t ts IH]; simpl; [reflexivity|].
  rewrite IH. destruct t; reflexivity.
Qed.

Lemma save_then_load uuid n p :
  getProject uuid n (Some (saveProject p)) = Some (deselectAll p).
Proof.
  unfold getProject, saveProject, deselectAll. simpl.
  rewrite migrateTracks_stored. reflexivity.
Qed.

Lemma allClips_deselect (ts : list Track) :
  allClips (map (fun t => set_clips (map (set_isSelected false) (clips t)) t)
              ts)
  = map (set_isSelected false) (allClips ts).
Proof.
  unfold allClips. induction ts as [|t ts IH]; simpl; [reflexivity|].
  rewrite IH, map_app. reflexivity.
Qed.

Lemma deselectAll_inv eps p : project_inv eps p -> project_inv eps (deselectAll p).
Proof.
  intros [Hids Htr Hcids Hclips Hsel Hreg]. split; simpl.
  - rewrite map_map. simpl. exact Hids.
  - apply Forall_fmap. eapply Forall_impl; [exact Htr|]. intros t Ht. exact Ht.
  - rewrite allClips_deselect, map_clipId_deselect. exact Hcids.
  - rewrite allClips_deselect. apply Forall_fmap.
    eapply Forall_impl; [exact Hclips|]. intros c Hc. exact Hc.
  - unfold selectedCount. rewrite allClips_deselect, none_selected.
    + simpl. lia.
    + apply Forall_fmap, Forall_forall. intros c _. reflexivity.
  - exact Hreg.
Qed.

(** No clip of a loaded project is selected. *)
Lemma migrateTracks_unselected uuid ts :
  forall n,
    Forall (fun c => isSelected c = false)
      (allClips (migrateTracks uuid n ts).1).
Proof.
  induction ts as [|t ts IH]; intros n; [constructor|].
  rewrite migrateTracks_cons. simpl.
  apply Forall_app. split; [|apply IH].
  unfold migrateTrack.
  destruct (stored_audioClip t), (stored_clips t); simpl;
    try (apply Forall_fmap, Forall_forall; intros c _; reflexivity);
    repeat constructor.
Qed.

(** The invariants of a loaded project, from those of the stored value. *)
Lemma getProject_inv eps uuid n sp :
  0 <= eps -> stored_inv eps sp -> uuid_fresh uuid n sp ->
  project_inv eps
    {| tracks := (migrateTracks uuid n (stored_tracks sp)).1;
       loopRegion := stored_region sp |}.
Proof.
  intros Heps [Hids Htr Hcids Hclips Hinl Hreg] [Hinj Hfresh].
  pose proof (migrateTracks_from uuid n (stored_tracks sp) n (le_n n))
    as Hfrom.
  pose proof (migrateTracks_clips_wf eps uuid (stored_tracks sp) Heps n
                Hclips Hinl) as Hwf.
  split; simpl.
  - rewrite (migrated_from_ids _ _ _ _ Hfrom). exact Hids.
  - apply (migrated_from_mix _ _ _ _ Hfrom Htr).
  - apply migrateTracks_NoDup; assumption.
  - eapply Forall_impl; [exact Hwf|]. intros c [Hc _]. exact Hc.
  - unfold selectedCount.
    rewrite none_selected by apply migrateTracks_unselected.
    simpl. lia.
  - exact Hreg.
Qed.

(** C9, for stored values that are well formed.  Loading a stored value,
    whatever its shape, yields a project in the current shape.  A bare
    track array gives [loopRegion = null], an object keeps its loop region
    ([null] when it has none).  Track by track, in order: id, name, volume,
    pan, mute, solo and effects are kept; [trackType] is kept, or [audio]
    when missing; a [clips] list is kept with every clip unselected; an
    inline [audioClip] without a [clips] list becomes a one-clip list whose
    clip has a minted id, the file, name, start time and duration of the
    inline clip, [startOffset = 0], [sourceDuration] equal to the duration
    and is not selected; with neither, the list is empty.  No clip of the
    result is selected.  [getProject] checks nothing: the result satisfies
    the invariants of the data model when the stored value satisfies them
    in its own shape and the minted ids are fresh.  Loading what
    [saveProject] wrote yields the saved project with its selection
    cleared, which satisfies the invariants when the saved project did. *)
Theorem getProject_upgrades_stored_shapes
    (eps : Q) (uuid : nat -> string) (n : nat) (sp : StoredProject) :
  exists p,
    getProject uuid n (Some sp) = Some p /\
    (exists ts,
       (sp = StoredArray ts /\ loopRegion p = None \/
        exists region, sp = StoredObject ts region /\ loopRegion p = region)
       /\
       Forall2
         (fun (s : StoredTrack) (t : Track) =>
            id t = stored_id s /\ name t = stored_name s /\
            volume t = stored_volume s /\ pan t = stored_pan s /\
            isMuted t = stored_isMuted s /\ isSoloed t = stored_isSoloed s /\
            effects t = stored_effects s /\
            (forall ty, stored_trackType s = Some ty -> trackType t = ty) /\
            (stored_trackType s = None -> trackType t = audio) /\
            (forall cs,
               stored_clips s = Some cs ->
               Forall2 (fun c c' => same_but_selection c c' /\
                                    isSelected c' = false)
                 cs (clips t)) /\
            (forall a,
               stored_clips s = None -> stored_audioClip s = Some a ->
               exists c k,
                 clips t = [c] /\ (n <= k)%nat /\ clipId c = uuid k /\
                 fileId c = inline_fileId a /\ clip_name c = inline_name a /\
                 startTime c = inline_startTime a /\ startOffset c = 0 /\
                 duration c = inline_duration a /\
                 sourceDuration c = inline_duration a /\
                 isSelected c = false) /\
            (stored_clips s = None -> stored_audioClip s = None ->
             clips t = []))
         ts (tracks p)) /\
    Forall (fun c => isSelected c = false) (allClips (tracks p)) /\
    (0 <= eps -> stored_inv eps sp -> uuid_fresh uuid n sp ->
     project_inv eps p) /\
    (forall saved,
       sp = saveProject saved ->
       p = deselectAll saved /\ (project_inv eps saved -> project_inv eps p)).
Proof.
  eexists. split; [reflexivity|]. simpl.
  split; [|split; [|split]].
  - exists (stored_tracks sp). split.
    + destruct sp as [ts|ts region]; simpl; eauto.
    + exact (migrateTracks_from uuid n (stored_tracks sp) n (le_n n)).
  - apply migrateTracks_unselected.
  - apply getProject_inv.
  - intros saved ->.
    pose proof (save_then_load uuid n saved) as E.
    unfold getProject in E.
    assert (E' : {| tracks :=
                      (migrateTracks uuid n
                         (stored_tracks (saveProject saved))).1;
                    loopRegion := stored_region (saveProject saved) |}
                 = deselectAll saved) by congruence.
    split; [exact E'|]. rewrite E'. apply deselectAll_inv.
Qed.

Lemma example_uuid_inj i j : example_uuid i = example_uuid j -> i = j.
Proof.
  revert j. induction i as [|i IH]; intros [|j] H; simpl in H;
    try discriminate; auto.
  injection H as H. f_equal. apply IH. exact H.
Defined.

Lemma legacy_project_inv : stored_inv (1 # 1000) legacy_project.
Proof.
  split; simpl.
  - apply NoDup_singleton.
  - constructor; [|constructor]. unfold mix_inv, in_range. simpl.
    repeat split; try lra. constructor.
  - apply NoDup_nil_2.
  - constructor.
  - constructor; [|constructor]. unfold inline_inv. simpl. split; lra.
  - exact I.
Defined.

Lemma legacy_uuid_fresh : uuid_fresh example_uuid 0 legacy_project.
Proof.
  split.
  - intros i j _ _. apply example_uuid_inj.
  - intros i _ H. simpl in H. inversion H.
Defined.

Lemma getProject_upgrades_stored_shapes_witness :
  0 <= 1 # 1000 /\ stored_inv (1 # 1000) legacy_project /\
  uuid_fresh example_uuid 0 legacy_project /\
  exists p,
    getProject example_uuid 0 (Some legacy_project) = Some p /\
    project_inv (1 # 1000) p.
Proof.
  assert (Heps : 0 <= 1 # 1000) by lra.
  split; [exact Heps|]. split; [exact legacy_project_inv|].
  split; [exact legacy_uuid_fresh|].
  destruct (getProject_upgrades_stored_shapes (1 # 1000) example_uuid 0
              legacy_project)
    as (p & Hp & _ & _ & Hinv & _).
  exists p. split; [exact Hp|].
  exact (Hinv Heps legacy_project_inv legacy_uuid_fresh).
Defined.

(** The legacy project of the example, loaded. *)
Example load_legacy_project :
  getProject example_uuid 0 (Some legacy_project) =
  Some {| tracks :=
            [{| id := 1; name := "Track 1"; trackType := audio;
                volume := 8 # 10; pan := 0; isMuted := false;
                isSoloed := false; effects := [];
                clips := [{| clipId := "id"; fileId := "file-a";
                             clip_name := "take.wav"; startTime := 2;
                             startOffset := 0; duration := 10;
                             sourceDuration := 10; isSelected := false |}] |}];
          loopRegion := None |}.
Proof. reflexivity. Qed.

(** The claim as stated fails: [getProject] hands back what the store
    holds.  The project saved at the end of a set-loop gesture whose pointer
    never left the anchor has a loop region of length zero, and so has the
    project loaded from it; a legacy track whose inline clip has duration 0
    is loaded with a clip of duration 0.  Neither result satisfies the
    invariants of the data model, whatever the tolerance. *)
Lemma load_keeps_what_was_stored :
  (exists saved p region,
     persisted (handleRulerInteractionEnd zero_loop_daw) = Some saved /\
     getProject example_uuid 0 (Some (saveProject saved)) = Some p /\
     loopRegion p = Some region /\ loop_start region == loop_end region /\
     forall eps, ~ project_inv eps p) /\
  (exists p c,
     getProject example_uuid 0 (Some empty_legacy_project) = Some p /\
     c ∈ allClips (tracks p) /\ duration c == 0 /\
     forall eps, ~ project_inv eps p).
Proof.
  split.
  - eexists. eexists. eexists.
    split; [reflexivity|]. split; [reflexivity|]. split; [reflexivity|].
    split; [vm_compute; reflexivity|].
    intros eps [_ _ _ _ _ Hreg]. vm_compute in Hreg. discriminate Hreg.
  - eexists. eexists.
    split; [reflexivity|]. split; [left|].
    split; [reflexivity|].
    intros eps [_ _ _ Hclips _ _]. simpl in Hclips.
    apply Forall_cons in Hclips. destruct Hclips as [(_ & _ & H & _) _].
    simpl in H. lra.
Qed.


(** * Further properties of the handlers *)

(** ** Selection lookup *)

Lemma allClips_app (a b : list Track) :
  allClips (a ++ b) = allClips a ++ allClips b.
Proof. unfold allClips. apply flat_map_app. Qed.

Lemma selectedCount_app (a b : list Track) :
  selectedCount (a ++ b) = (selectedCount a + selectedCount b)%nat.
Proof.
  unfold selectedCount. rewrite allClips_app, List.filter_app, length_app.
  reflexivity.
Qed.

Lemma find_isSelected_None (cs : list AudioClip) :
  List.find isSelected cs = None <-> List.filter isSelected cs = [].
Proof.
  induction cs as [|c cs IH]; simpl; [tauto|].
  destruct (isSelected c); [split; discriminate | exact IH].
Qed.

(** [getSelectedClip()] answers [null] exactly when no clip of the project
    is selected; otherwise it answers a selected clip together with the id
    of a track that holds it, and no earlier track holds a selected clip. *)
Lemma getSelectedClip_spec (st : Daw) :
  (getSelectedClip st = None <->
   selectedCount (tracks (projectState st)) = 0%nat) /\
  (forall c tid,
     getSelectedClip st = Some (c, tid) ->
     isSelected c = true /\
     exists before track after,
       tracks (projectState st) = before ++ track :: after /\
       id track = tid /\ c ∈ clips track /\
       selectedCount before = 0%nat).
Proof.
  unfold getSelectedClip.
  induction (tracks (projectState st)) as [|t ts [IHn IHs]]; simpl.
  - split; [split; reflexivity|]. intros c tid H. discriminate.
  - change (t :: ts) with ([t] ++ ts). rewrite selectedCount_app.
    unfold selectedCount at 1. unfold allClips. simpl. rewrite app_nil_r.
    destruct (List.find isSelected (clips t)) as [sel|] eqn:Hf.
    + split.
      * split; [discriminate|]. intros H.
        apply List.find_some in Hf. destruct Hf as [Hin Hs].
        assert (Hin' : In sel (List.filter isSelected (clips t)))
          by (apply List.filter_In; auto).
        destruct (List.filter isSelected (clips t)); [inversion Hin'|].
        simpl in H. lia.
      * intros c tid [= <- <-]. pose proof Hf as Hf'.
        apply List.find_some in Hf'. destruct Hf' as [Hin Hs].
        split; [exact Hs|]. exists [], t, ts.
        repeat split; auto. apply list_elem_of_In. exact Hin.
    + pose proof (proj1 (find_isSelected_None _) Hf) as Hnil.
      rewrite Hnil. simpl. split; [exact IHn|].
      intros c tid H. destruct (IHs c tid H) as (Hs & b & tr & a & -> & Hid & Hc & Hb).
      split; [exact Hs|]. exists (t :: b), tr, a. repeat split; auto.
      change (t :: b) with ([t] ++ b). rewrite selectedCount_app, Hb.
      unfold selectedCount, allClips. simpl. rewrite app_nil_r, Hnil.
      reflexivity.
Qed.

(** ** Adding and removing tracks *)

Lemma fold_max_id (ts : list Track) (acc : Z) :
  (acc <= fold_left (fun maxId t => Z.max (id t) maxId) ts acc)%Z /\
  forall t, t ∈ ts ->
            (id t <= fold_left (fun maxId t => Z.max (id t) maxId) ts acc)%Z.
Proof.
  revert acc. induction ts as [|t ts IH]; intros acc; simpl.
  - split; [lia|]. intros t H. inversion H.
  - destruct (IH (Z.max (id t) acc)) as [Hacc Hall]. split; [lia|].
    intros t' Ht'. apply elem_of_cons in Ht'. destruct Ht' as [-> | Ht'].
    + lia.
    + apply Hall. exact Ht'.
Qed.

Lemma nextTrackId_fresh (ts : list Track) :
  (1 <= nextTrackId ts)%Z /\
  forall t, t ∈ ts -> (id t < nextTrackId ts)%Z.
Proof.
  unfold nextTrackId. destruct (fold_max_id ts 0) as [H0 Hall].
  split; [lia|]. intros t Ht. specialize (Hall t Ht). lia.
Qed.

Lemma newTrackOf_inv type ts : track_inv (newTrackOf type ts).
Proof.
  unfold track_inv, mix_inv, in_range. simpl.
  repeat split; try lra. constructor.
Qed.

(** X1. [handleAddTrack] appends one empty track of the requested type whose
    id is at least 1 and larger than every id in use, leaves every other
    track and the loop region as they were, writes the new project to the
    store, and keeps the invariants of the data model. *)
Theorem add_track_fresh_id (eps : Q) (type : TrackType) (st : Daw) :
  let p := projectState st in
  let st' := handleAddTrack type st in
  let t := newTrackOf type (tracks p) in
  tracks (projectState st') = tracks p ++ [t] /\
  (1 <= id t)%Z /\ (forall t0, t0 ∈ tracks p -> (id t0 < id t)%Z) /\
  trackType t = type /\ clips t = [] /\ effects t = [] /\
  loopRegion (projectState st') = loopRegion p /\
  persisted st' = Some (projectState st') /\
  (project_inv eps p -> project_inv eps (projectState st')).
Proof.
  intros p st' t. destruct (nextTrackId_fresh (tracks p)) as [H1 Hlt].
  repeat split; try reflexivity; auto.
  - destruct H as [Hids _ _ _ _ _]. simpl. rewrite map_app. simpl.
    apply NoDup_app. split; [exact Hids|]. split; [|apply NoDup_singleton].
    intros x Hx Hx'. apply list_elem_of_singleton in Hx'. subst x.
    apply list_elem_of_fmap in Hx. destruct Hx as (t0 & E & Ht0).
    specialize (Hlt t0 Ht0). fold p in E. simpl in E. lia.
  - destruct H as [_ Htr _ _ _ _]. simpl. apply Forall_app. split; [exact Htr|].
    constructor; [apply newTrackOf_inv | constructor].
  - destruct H as [_ _ Hc _ _ _]. simpl. rewrite allClips_app. simpl.
    rewrite app_nil_r. exact Hc.
  - destruct H as [_ _ _ Hc _ _]. simpl. rewrite allClips_app. simpl.
    rewrite app_nil_r. exact Hc.
  - destruct H as [_ _ _ _ Hs _]. simpl. rewrite selectedCount_app.
    unfold selectedCount at 2. simpl. fold p. lia.
  - destruct H as [_ _ _ _ _ Hr]. exact Hr.
Qed.

Lemma Forall_of_sublist {A} (P : A -> Prop) (l' l : list A) :
  l' `sublist_of` l -> Forall P l -> Forall P l'.
Proof.
  intros Hsub Hall. apply Forall_forall. intros x Hx.
  rewrite Forall_forall in Hall. apply Hall.
  apply (elem_of_sublist _ _ _ Hx Hsub).
Qed.

Lemma filter_all {A} (P : A -> Prop) `{forall x, Decision (P x)} (l : list A) :
  Forall P l -> filter P l = l.
Proof.
  induction 1 as [|x l Hx _ IH]; [reflexivity|].
  rewrite filter_cons_True by exact Hx. rewrite IH. reflexivity.
Qed.

Lemma allClips_sublist (ts' ts : list Track) :
  ts' `sublist_of` ts -> allClips ts' `sublist_of` allClips ts.
Proof.
  induction 1 as [|t l k _ IH|t l k _ IH]; simpl.
  - constructor.
  - apply sublist_app; [reflexivity | exact IH].
  - apply sublist_inserts_l. exact IH.
Qed.

Lemma selected_sublist (cs' cs : list AudioClip) :
  cs' `sublist_of` cs ->
  (length (List.filter isSelected cs') <= length (List.filter isSelected cs))%nat.
Proof.
  induction 1 as [|c l k _ IH|c l k _ IH]; simpl; auto.
  - destruct (isSelected c); simpl; lia.
  - destruct (isSelected c); simpl; lia.
Qed.

(** Dropping tracks, or clips of tracks, keeps the invariants. *)
Lemma project_inv_shrink eps (p : ProjectState) (ts' : list Track) :
  project_inv eps p ->
  map id ts' `sublist_of` map id (tracks p) ->
  Forall track_inv ts' ->
  allClips ts' `sublist_of` allClips (tracks p) ->
  project_inv eps (set_tracks ts' p).
Proof.
  intros [Hids Htr Hcids Hclips Hsel Hreg] Hsub Htr' Hcsub. split; simpl.
  - apply (sublist_NoDup _ _ Hids Hsub).
  - exact Htr'.
  - apply (sublist_NoDup _ (map clipId (allClips (tracks p)))); [exact Hcids|].
    apply fmap_sublist. exact Hcsub.
  - apply (Forall_of_sublist _ _ _ Hcsub Hclips).
  - unfold selectedCount in *. pose proof (selected_sublist _ _ Hcsub). lia.
  - exact Hreg.
Qed.

(** X2. [handleRemoveTrack(id)] keeps exactly the tracks whose id differs,
    in their order and unchanged, so no track with that id and none of its
    clips remains; the invariants of the data model are kept, and removing
    an id that no track carries changes no track. *)
Theorem remove_track_cascades (eps : Q) (trackId : Z) (st : Daw) :
  let p := projectState st in
  let st' := handleRemoveTrack trackId st in
  (forall t, t ∈ tracks (projectState st') <-> t ∈ tracks p /\ id t <> trackId)
  /\
  sublist (tracks (projectState st')) (tracks p) /\
  (trackId ∉ map id (tracks (projectState st'))) /\
  (forall c, c ∈ allClips (tracks (projectState st')) <->
             exists t, t ∈ tracks p /\ id t <> trackId /\ c ∈ clips t) /\
  (trackId ∉ map id (tracks p) -> tracks (projectState st') = tracks p) /\
  loopRegion (projectState st') = loopRegion p /\
  (project_inv eps p -> project_inv eps (projectState st')).
Proof.
  intros p st'. subst st'. unfold handleRemoveTrack. fold p. simpl.
  split; [|split; [|split; [|split; [|split; [|split]]]]].
  - intros t. rewrite list_elem_of_filter. cbv beta. tauto.
  - apply sublist_filter.
  - intros H. apply list_elem_of_fmap in H. destruct H as (t & -> & Ht).
    apply list_elem_of_filter in Ht. destruct Ht as [Hne _]. congruence.
  - intros c. unfold allClips. rewrite list_elem_of_In, in_flat_map. split.
    + intros (t & Ht & Hc). apply list_elem_of_In, list_elem_of_filter in Ht.
      destruct Ht as [Hne Ht]. apply list_elem_of_In in Hc.
      exists t. auto.
    + intros (t & Ht & Hne & Hc). exists t. split.
      * apply list_elem_of_In, list_elem_of_filter. auto.
      * apply list_elem_of_In. exact Hc.
  - intros Hn. apply filter_all, Forall_forall. intros t Ht E.
    apply Hn. rewrite <- E. apply list_elem_of_fmap. eauto.
  - reflexivity.
  - intros Hinv. apply (project_inv_shrink eps p); auto.
    + apply fmap_sublist, sublist_filter.
    + apply (Forall_of_sublist _ _ _ (sublist_filter _ _)).
      destruct Hinv. assumption.
    + apply allClips_sublist, sublist_filter.
Qed.

(** ** Changing one track *)

Lemma trackChange_other (u : Track) (ts : list Track) :
  id u ∉ map id ts ->
  map (fun t => if decide (id t = id u) then u else t) ts = ts.
Proof.
  induction ts as [|t ts IH]; simpl; auto.
  intros Hn. apply not_elem_of_cons in Hn. destruct Hn as [Hne Hn].
  rewrite IH by exact Hn. rewrite decide_False by congruence. reflexivity.
Qed.

Lemma trackChange_at (u : Track) (before after : list Track) (t0 : Track) :
  NoDup (map id (before ++ t0 :: after)) -> id t0 = id u ->
  map (fun t => if decide (id t = id u) then u else t) (before ++ t0 :: after)
  = before ++ u :: after.
Proof.
  intros Hnd Hid. rewrite map_app in Hnd. simpl in Hnd.
  apply NoDup_app in Hnd. destruct Hnd as (_ & Hba & Hta).
  apply NoDup_cons in Hta. destruct Hta as [Hna _].
  rewrite map_app. simpl. rewrite decide_True by exact Hid.
  rewrite !trackChange_other; [reflexivity | |].
  - rewrite <- Hid. exact Hna.
  - rewrite <- Hid. intros Hin. apply (Hba _ Hin). left.
Qed.

(** X3. [handleTrackChange(updatedTrack)] on a project whose track ids are
    pairwise distinct puts [updatedTrack] in the place of the track that
    carries its id and touches no other track; when no track carries the id
    nothing changes.  The list of track ids is the same afterwards. *)
Theorem track_change_replaces_by_id (updatedTrack : Track) (st : Daw) :
  NoDup (map id (tracks (projectState st))) ->
  let p := projectState st in
  let st' := handleTrackChange updatedTrack st in
  (forall before t0 after,
     tracks p = before ++ t0 :: after -> id t0 = id updatedTrack ->
     tracks (projectState st') = before ++ updatedTrack :: after) /\
  (id updatedTrack ∉ map id (tracks p) ->
   tracks (projectState st') = tracks p) /\
  map id (tracks (projectState st')) = map id (tracks p) /\
  loopRegion (projectState st') = loopRegion p.
Proof.
  intros Hnd p st'. subst st'. unfold handleTrackChange. fold p. simpl.
  split; [|split; [|split]].
  - intros before t0 after Hts Hid. fold p in Hnd. rewrite Hts in Hnd |- *.
    apply trackChange_at; assumption.
  - apply trackChange_other.
  - induction (tracks p) as [|t ts IH]; simpl; [reflexivity|].
    rewrite IH. destruct (decide (id t = id updatedTrack)); congruence.
  - reflexivity.
Qed.

(** ** Solo *)

Lemma toggleSolo_twice t : toggleSolo (toggleSolo t) = t.
Proof. destruct t. unfold toggleSolo. simpl. rewrite negb_involutive. reflexivity. Qed.

Lemma toggleMute_twice t : toggleMute (toggleMute t) = t.
Proof. destruct t. unfold toggleMute. simpl. rewrite negb_involutive. reflexivity. Qed.

Lemma isAnyTrackSoloed_false p :
  isAnyTrackSoloed p = false <-> forall t, t ∈ tracks p -> isSoloed t = false.
Proof.
  split.
  - intros H t Ht. destruct (isSoloed t) eqn:E; [|reflexivity].
    assert (isAnyTrackSoloed p = true) by (apply isAnyTrackSoloed_true; eauto).
    congruence.
  - intros H. destruct (isAnyTrackSoloed p) eqn:E; [|reflexivity].
    apply isAnyTrackSoloed_true in E. destruct E as (t & Ht & Hs).
    rewrite (H t Ht) in Hs. discriminate.
Qed.

(** X4. In a project with pairwise distinct track ids where no track is
    soloed, pressing solo on a track leaves that track at its own gain
    (its volume, or 0 when it is muted) and sets the gain target of every
    other track to 0; pressing solo on it again restores the track list, and
    with it every track's own gain. *)
Theorem solo_silences_other_tracks (st : Daw) (a : Track)
    (before after : list Track) :
  tracks (projectState st) = before ++ a :: after ->
  NoDup (map id (tracks (projectState st))) ->
  isAnyTrackSoloed (projectState st) = false ->
  let st' := handleTrackChange (toggleSolo a) st in
  let st'' := handleTrackChange (toggleSolo (toggleSolo a)) st' in
  tracks (projectState st') = before ++ toggleSolo a :: after /\
  (forall t, t ∈ before ++ after ->
             targetGain (isAnyTrackSoloed (projectState st')) t = 0) /\
  targetGain (isAnyTrackSoloed (projectState st')) (toggleSolo a)
  = (if isMuted a then 0 else volume a) /\
  tracks (projectState st'') = tracks (projectState st) /\
  (forall t, t ∈ tracks (projectState st'') ->
             targetGain (isAnyTrackSoloed (projectState st'')) t
             = if isMuted t then 0 else volume t).
Proof.
  intros Hts Hnd Hnone st' st''.
  assert (Hnew : tracks (projectState st') = before ++ toggleSolo a :: after).
  { change (tracks (projectState st'))
      with (map (fun t => if decide (id t = id (toggleSolo a))
                          then toggleSolo a else t)
              (tracks (projectState st))).
    rewrite Hts.
    apply trackChange_at; [rewrite <- Hts; exact Hnd | reflexivity]. }
  assert (Hall : forall t, t ∈ tracks (projectState st) -> isSoloed t = false).
  { apply isAnyTrackSoloed_false. exact Hnone. }
  assert (Hany : isAnyTrackSoloed (projectState st') = true).
  { apply isAnyTrackSoloed_true. exists (toggleSolo a). split.
    - rewrite Hnew. apply elem_of_app. right. left.
    - simpl. rewrite (Hall a); [reflexivity|].
      rewrite Hts. apply elem_of_app. right. left. }
  assert (Hnd' : NoDup (map id (tracks (projectState st')))).
  { rewrite Hnew, map_app. simpl. rewrite Hts, map_app in Hnd. exact Hnd. }
  assert (Hback : tracks (projectState st'') = tracks (projectState st)).
  { change (tracks (projectState st''))
      with (map (fun t => if decide (id t = id (toggleSolo (toggleSolo a)))
                          then toggleSolo (toggleSolo a) else t)
              (tracks (projectState st'))).
    rewrite Hnew, Hts.
    rewrite trackChange_at; [| rewrite <- Hnew; exact Hnd' | reflexivity].
    rewrite toggleSolo_twice. reflexivity. }
  split; [exact Hnew|]. split; [|split; [|split; [exact Hback|]]].
  - intros t Ht. rewrite Hany. unfold targetGain.
    assert (isSoloed t = false) as ->.
    { apply Hall. rewrite Hts. apply elem_of_app in Ht.
      apply elem_of_app. destruct Ht; [left | right; right]; assumption. }
    simpl. rewrite orb_true_r. reflexivity.
  - rewrite Hany. unfold targetGain. simpl.
    rewrite (Hall a) by (rewrite Hts; apply elem_of_app; right; left).
    simpl. rewrite orb_false_r. reflexivity.
  - intros t Ht. rewrite Hback in Ht.
    assert (Hnone'' : isAnyTrackSoloed (projectState st'') = false).
    { apply isAnyTrackSoloed_false. rewrite Hback. exact Hall. }
    rewrite Hnone''. unfold targetGain. simpl. rewrite orb_false_r.
    reflexivity.
Qed.

Lemma solo_silences_other_tracks_witness :
  tracks (projectState two_track_daw)
  = [] ++ example_track
       :: [set_clips [] (newTrackOf audio [example_track])] /\
  NoDup (map id (tracks (projectState two_track_daw))) /\
  isAnyTrackSoloed (projectState two_track_daw) = false /\
  targetGain
    (isAnyTrackSoloed
       (projectState (handleTrackChange (toggleSolo example_track)
                        two_track_daw)))
    (set_clips [] (newTrackOf audio [example_track])) = 0.
Proof.
  assert (H1 : tracks (projectState two_track_daw)
               = [] ++ example_track
                    :: [set_clips [] (newTrackOf audio [example_track])])
    by reflexivity.
  assert (H2 : NoDup (map id (tracks (projectState two_track_daw))))
    by (apply (bool_decide_unpack _); vm_compute; exact I).
  assert (H3 : isAnyTrackSoloed (projectState two_track_daw) = false)
    by reflexivity.
  split; [exact H1|]. split; [exact H2|]. split; [exact H3|].
  pose proof (solo_silences_other_tracks two_track_daw example_track [] _
                H1 H2 H3) as T.
  cbv zeta in T. destruct T as (_ & T & _).
  apply T. left.
Defined.

Lemma track_change_replaces_by_id_witness :
  NoDup (map id (tracks (projectState two_track_daw))) /\
  tracks (projectState (handleTrackChange (toggleMute example_track)
                          two_track_daw))
  = [] ++ toggleMute example_track
       :: [set_clips [] (newTrackOf audio [example_track])].
Proof.
  assert (H2 : NoDup (map id (tracks (projectState two_track_daw))))
    by (apply (bool_decide_unpack _); vm_compute; exact I).
  split; [exact H2|].
  apply (proj1 (track_change_replaces_by_id (toggleMute example_track)
                  two_track_daw H2) [] example_track); reflexivity.
Defined.

(** ** Delete, copy, cut and paste *)

Lemma allClips_cons (t : Track) (ts : list Track) :
  allClips (t :: ts) = clips t ++ allClips ts.
Proof. reflexivity. Qed.

(** With pairwise distinct clip ids, a clip id found in one track is found
    in no other. *)
Lemma clipId_only_in_its_track (before after : list Track) (T : Track) c :
  NoDup (map clipId (allClips (before ++ T :: after))) -> c ∈ clips T ->
  (clipId c ∉ map clipId (allClips before)) /\
  (clipId c ∉ map clipId (allClips after)).
Proof.
  intros Hnd Hc. rewrite allClips_app in Hnd.
  change (T :: after) with ([T] ++ after) in Hnd. rewrite allClips_app in Hnd.
  unfold allClips at 2 in Hnd. simpl in Hnd. rewrite app_nil_r in Hnd.
  rewrite !map_app in Hnd.
  assert (Hin : clipId c ∈ map clipId (clips T)).
  { apply list_elem_of_fmap. eauto. }
  apply NoDup_app in Hnd. destruct Hnd as (_ & Hba & Hta).
  apply NoDup_app in Hta. destruct Hta as (_ & Hna & _).
  split.
  - intros H. apply (Hba _ H). apply elem_of_app. left. exact Hin.
  - apply Hna. exact Hin.
Qed.

Lemma filter_clipId_absent key (cs : list AudioClip) :
  key ∉ map clipId cs -> filter (fun c => clipId c <> key) cs = cs.
Proof.
  intros Hn. apply filter_all, Forall_forall. intros c Hc E. apply Hn.
  rewrite <- E. apply list_elem_of_fmap. eauto.
Qed.

Lemma allClips_absent_track key (ts : list Track) t :
  key ∉ map clipId (allClips ts) -> t ∈ ts -> key ∉ map clipId (clips t).
Proof.
  intros Hn Ht H. apply Hn. apply list_elem_of_fmap in H.
  destruct H as (c & -> & Hc). apply list_elem_of_fmap. exists c.
  split; [reflexivity|]. unfold allClips.
  apply list_elem_of_In, in_flat_map. exists t.
  split; apply list_elem_of_In; assumption.
Qed.

Lemma deleteInTrack_absent clip tid (ts : list Track) :
  clipId clip ∉ map clipId (allClips ts) ->
  map (deleteInTrack clip tid) ts = ts.
Proof.
  induction ts as [|t ts IH]; simpl; auto.
  intros Hn. unfold allClips in Hn. simpl in Hn. rewrite map_app in Hn.
  apply not_elem_of_app in Hn. destruct Hn as [Hnt Hn].
  rewrite IH by exact Hn. unfold deleteInTrack.
  destruct (decide (id t = tid)); [|reflexivity].
  rewrite filter_clipId_absent by exact Hnt. destruct t; reflexivity.
Qed.

Lemma filter_allClips_absent key (ts : list Track) :
  key ∉ map clipId (allClips ts) ->
  filter (fun c => clipId c <> key) (allClips ts) = allClips ts.
Proof. apply filter_clipId_absent. Qed.

Lemma no_elements {A} (l : list A) : (forall x, x ∉ l) -> l = [].
Proof.
  destruct l as [|x l]; [reflexivity|]. intros H. exfalso. apply (H x). left.
Qed.

Lemma same_but_clips_inv t t' :
  same_but_clips t t' -> track_inv t -> track_inv t'.
Proof.
  intros (_ & _ & _ & Hv & Hp & _ & _ & He) H. unfold track_inv in *.
  rewrite Hv, Hp, He. exact H.
Qed.

Lemma NoDup_fmap_before {A B} (f : A -> B) (pre post : list A) (x : A) :
  NoDup (map f (pre ++ x :: post)) -> Forall (fun z => f z <> f x) pre.
Proof.
  intros Hnd. rewrite map_app in Hnd. simpl in Hnd.
  apply NoDup_app in Hnd. destruct Hnd as (_ & Hd & _).
  apply Forall_forall. intros z Hz E. apply (Hd (f z)).
  - apply list_elem_of_fmap. eauto.
  - rewrite E. left.
Qed.

(** Where the selected clip sits in a project with distinct track and clip
    ids: the lookups by id of the handlers find that track and that clip. *)
Lemma selected_clip_position eps (st : Daw) (c : AudioClip) (tid : Z) :
  project_inv eps (projectState st) ->
  getSelectedClip st = Some (c, tid) ->
  exists before track after pre post,
    tracks (projectState st) = before ++ track :: after /\
    id track = tid /\ Forall (fun t => id t <> tid) before /\
    clips track = pre ++ c :: post /\
    Forall (fun z => clipId z <> clipId c) pre /\ isSelected c = true.
Proof.
  intros [Hids _ Hcids _ _ _] Hsel.
  destruct (proj2 (getSelectedClip_spec st) c tid Hsel)
    as (Hs & before & track & after & Hts & Hid & Hc & _).
  apply list_elem_of_split in Hc. destruct Hc as (pre & post & Hcs).
  exists before, track, after, pre, post.
  rewrite Hts in Hids, Hcids.
  split; [exact Hts|]. split; [exact Hid|]. split.
  { rewrite <- Hid. apply (NoDup_fmap_before id before after track Hids). }
  split; [exact Hcs|]. split; [|exact Hs].
  rewrite allClips_app, allClips_cons, Hcs, !map_app in Hcids.
  apply NoDup_app in Hcids. destruct Hcids as (_ & _ & Hcids).
  apply NoDup_app in Hcids. destruct Hcids as (Hcids & _ & _).
  rewrite <- map_app in Hcids.
  apply (NoDup_fmap_before clipId pre post c Hcids).
Qed.

(** Where the selected clip is deleted from, and what is left. *)
Lemma delete_selected_spec (eps : Q) (st : Daw) (c : AudioClip) (tid : Z) :
  getSelectedClip st = Some (c, tid) ->
  project_inv eps (projectState st) ->
  let p := projectState st in
  let st' := handleDeleteSelected st in
  exists before track after pre post,
    tracks p = before ++ track :: after /\ id track = tid /\
    clips track = pre ++ c :: post /\
    filter (fun x => clipId x <> clipId c) (clips track) = pre ++ post /\
    tracks (projectState st')
    = before ++ set_clips (pre ++ post) track :: after /\
    (clipId c ∉ map clipId (allClips before ++ (pre ++ post)
                            ++ allClips after)) /\
    getSelectedClip st' = None /\
    persisted st' = Some (projectState st') /\
    playheadPosition st' = playheadPosition st /\
    loopRegion (projectState st') = loopRegion p /\
    project_inv eps (projectState st').
Proof.
  intros Hsel Hinv p st'.
  destruct (selected_clip_position eps st c tid Hinv Hsel)
    as (before & track & after & pre & post & Hts & Hid & _ & Hcs & _ & Hs).
  fold p in Hts.
  destruct Hinv as [Hids Htr Hcids Hclips Hcount Hreg].
  fold p in Hids, Htr, Hcids, Hclips, Hcount, Hreg.
  assert (Hc : c ∈ clips track).
  { rewrite Hcs. apply elem_of_app. right. left. }
  pose proof Hcids as Hcids0. rewrite Hts in Hcids0.
  destruct (clipId_only_in_its_track before after track c Hcids0 Hc)
    as [Hnb Hna].
  assert (Hpp : (clipId c ∉ map clipId pre) /\ (clipId c ∉ map clipId post)).
  { rewrite allClips_app, allClips_cons, Hcs, !map_app in Hcids0.
    apply NoDup_app in Hcids0. destruct Hcids0 as (_ & _ & Hcids0).
    apply NoDup_app in Hcids0. destruct Hcids0 as (Hcids0 & _ & _).
    simpl in Hcids0. apply NoDup_app in Hcids0.
    destruct Hcids0 as (_ & Hd & Hcids0).
    apply NoDup_cons in Hcids0. destruct Hcids0 as [Hpost _].
    split; [|exact Hpost]. intros H. apply (Hd _ H). left. }
  destruct Hpp as [Hpre Hpost].
  assert (Hfilter : filter (fun x => clipId x <> clipId c) (clips track)
                    = pre ++ post).
  { rewrite Hcs, filter_app, filter_cons_False by (intros H; apply H; reflexivity).
    rewrite !filter_clipId_absent by assumption. reflexivity. }
  assert (Hnew : tracks (projectState st')
                 = before ++ set_clips (pre ++ post) track :: after).
  { subst st'. unfold handleDeleteSelected. rewrite Hsel. fold p. simpl.
    rewrite Hts, map_app. simpl.
    rewrite !deleteInTrack_absent by assumption.
    unfold deleteInTrack at 1. rewrite decide_True by exact Hid.
    rewrite Hfilter. reflexivity. }
  assert (Hall : allClips (tracks (projectState st'))
                 = allClips before ++ (pre ++ post) ++ allClips after).
  { rewrite Hnew, allClips_app, allClips_cons. reflexivity. }
  assert (Hold : allClips (tracks p)
                 = allClips before ++ (pre ++ c :: post) ++ allClips after).
  { rewrite Hts, allClips_app, allClips_cons, Hcs. reflexivity. }
  assert (Hnone : selectedCount (tracks (projectState st')) = 0%nat).
  { unfold selectedCount in Hcount |- *. rewrite Hall. rewrite Hold in Hcount.
    rewrite !List.filter_app in Hcount |- *. simpl in Hcount.
    rewrite Hs in Hcount. rewrite !length_app in Hcount |- *.
    simpl in Hcount. lia. }
  exists before, track, after, pre, post.
  split; [exact Hts|]. split; [exact Hid|]. split; [exact Hcs|].
  split; [exact Hfilter|]. split; [exact Hnew|]. split.
  { rewrite !map_app. rewrite !not_elem_of_app. auto. }
  split; [apply (proj1 (getSelectedClip_spec st')); exact Hnone|].
  split; [subst st'; unfold handleDeleteSelected; rewrite Hsel; reflexivity|].
  split; [subst st'; unfold handleDeleteSelected; rewrite Hsel; reflexivity|].
  split; [subst st'; unfold handleDeleteSelected; rewrite Hsel; reflexivity|].
  assert (E : projectState st'
              = set_tracks (before ++ set_clips (pre ++ post) track :: after)
                  p).
  { rewrite <- Hnew. subst st'. unfold handleDeleteSelected. rewrite Hsel.
    reflexivity. }
  rewrite E. apply project_inv_shrink.
  - split; assumption.
  - rewrite Hts, !map_app. reflexivity.
  - rewrite Hts in Htr. apply Forall_app in Htr. destruct Htr as [Hb Ha].
    apply Forall_cons in Ha. destruct Ha as [Ht Ha].
    apply Forall_app. split; [exact Hb|]. constructor; [exact Ht | exact Ha].
  - rewrite <- Hnew, Hall, Hold.
    apply sublist_app; [reflexivity|]. apply sublist_app; [|reflexivity].
    apply sublist_app; [reflexivity|]. apply sublist_cons. reflexivity.
Qed.

(** X5. Deleting the selected clip: it is filtered out of its track, every other
    clip of the project stays where it is, no clip is selected afterwards,
    the result is written to the store, and the invariants of the data model
    are kept. *)
Theorem delete_selected_removes_only_that_clip
    (eps : Q) (st : Daw) (c : AudioClip) (tid : Z) :
  getSelectedClip st = Some (c, tid) ->
  project_inv eps (projectState st) ->
  let p := projectState st in
  let st' := handleDeleteSelected st in
  (exists before track after,
     tracks p = before ++ track :: after /\ id track = tid /\
     c ∈ clips track /\
     tracks (projectState st') =
       before
       ++ set_clips (filter (fun x => clipId x <> clipId c) (clips track))
            track
       :: after) /\
  (forall x, x ∈ allClips (tracks (projectState st')) <->
             x ∈ allClips (tracks p) /\ x <> c) /\
  getSelectedClip st' = None /\
  persisted st' = Some (projectState st') /\
  project_inv eps (projectState st').
Proof.
  intros Hsel Hinv p st'.
  destruct (delete_selected_spec eps st c tid Hsel Hinv)
    as (before & track & after & pre & post & Hts & Hid & Hcs & Hfilter
        & Hnew & Habsent & Hnone & Hpersist & _ & _ & Hinv').
  fold p in Hts. fold st' in Hnew, Hnone, Hpersist, Hinv'.
  assert (Hc : c ∈ clips track).
  { rewrite Hcs. apply elem_of_app. right. left. }
  split; [|split; [|split; [|split]]]; try assumption.
  - exists before, track, after. rewrite Hfilter. auto.
  - intros x. rewrite Hnew, Hts, !allClips_app, !allClips_cons, Hcs.
    simpl clips. rewrite !map_app, !not_elem_of_app in Habsent.
    destruct Habsent as (Hab & (Hpre & Hpost) & Haa).
    assert (Hne : forall l : list AudioClip,
               clipId c ∉ map clipId l -> x ∈ l -> x <> c).
    { intros l Hl Hx ->. apply Hl. apply list_elem_of_fmap. eauto. }
    rewrite !elem_of_app, elem_of_cons. split.
    + intros [H | [[H | H] | H]]; split; eauto 6.
    + intros [[H | [[H | [H | H]] | H]] Hx]; auto. contradiction.
Qed.

Lemma example_project_inv : project_inv (1 # 1000) example_project.
Proof.
  split.
  - apply (bool_decide_unpack _). vm_compute. reflexivity.
  - constructor; [|constructor].
    unfold track_inv, mix_inv, in_range. simpl.
    repeat split; try lra. constructor.
  - apply (bool_decide_unpack _). vm_compute. reflexivity.
  - constructor; [|constructor].
    unfold clip_wf, clip_inv. simpl. repeat split; lra.
  - apply le_n.
  - exact I.
Qed.

Lemma delete_selected_removes_only_that_clip_witness :
  getSelectedClip (handleDeleteSelected example_daw) = None /\
  project_inv (1 # 1000) (projectState (handleDeleteSelected example_daw)).
Proof.
  pose proof (delete_selected_removes_only_that_clip (1 # 1000) example_daw
                example_clip 1 eq_refl example_project_inv) as T.
  cbv zeta in T. destruct T as (_ & _ & Hnone & _ & Hinv).
  split; [exact Hnone | exact Hinv].
Defined.

(** *** Paste *)

Lemma pasteInTrack_other tid nc (ts : list Track) :
  tid ∉ map id ts -> map (pasteInTrack tid nc) ts = ts.
Proof.
  induction ts as [|t ts IH]; simpl; auto.
  intros Hn. apply not_elem_of_cons in Hn. destruct Hn as [Hne Hn].
  rewrite IH by exact Hn. unfold pasteInTrack.
  rewrite decide_False by congruence. reflexivity.
Qed.

Lemma pasteInTrack_at nc (before after : list Track) (T : Track) :
  NoDup (map id (before ++ T :: after)) ->
  map (pasteInTrack (id T) nc) (before ++ T :: after)
  = before ++ set_clips (clips T ++ [nc]) T :: after.
Proof.
  intros Hnd. rewrite map_app in Hnd. simpl in Hnd.
  apply NoDup_app in Hnd. destruct Hnd as (_ & Hba & Hta).
  apply NoDup_cons in Hta. destruct Hta as [Hna _].
  rewrite map_app. simpl. unfold pasteInTrack at 2.
  rewrite decide_True by reflexivity.
  rewrite !pasteInTrack_other; [reflexivity | exact Hna |].
  intros Hin. apply (Hba _ Hin). left.
Qed.

(** The track pasted into is an audio track of the project; there is none
    exactly when the project has no audio track; and when some audio track
    holds a selected clip, the track pasted into holds one. *)
Lemma pasteTarget_spec (ts : list Track) :
  (pasteTarget ts = None <-> forall t, t ∈ ts -> trackType t <> audio) /\
  (forall T, pasteTarget ts = Some T ->
     T ∈ ts /\ trackType T = audio /\
     ((exists t c, t ∈ ts /\ trackType t = audio /\ c ∈ clips t /\
                   isSelected c = true) ->
      exists c, c ∈ clips T /\ isSelected c = true)).
Proof.
  unfold pasteTarget.
  destruct (List.find (fun t => existsb isSelected (clips t) && isAudio t) ts)
    as [T0|] eqn:Hf1.
  - apply List.find_some in Hf1. destruct Hf1 as [Hin Hb].
    apply andb_prop in Hb. destruct Hb as [Hex Haud].
    apply bool_decide_eq_true in Haud.
    split.
    + split; [discriminate|]. intros H. exfalso.
      apply (H T0); [apply list_elem_of_In; exact Hin | exact Haud].
    + intros T [= <-]. split; [apply list_elem_of_In; exact Hin|].
      split; [exact Haud|]. intros _.
      apply existsb_exists in Hex. destruct Hex as (c & Hc & Hs).
      exists c. split; [apply list_elem_of_In; exact Hc | exact Hs].
  - split.
    + split.
      * intros Hf2 t Ht Ha. apply list_elem_of_In in Ht.
        pose proof (List.find_none _ _ Hf2 t Ht) as Hb.
        unfold isAudio in Hb. apply bool_decide_eq_false in Hb. contradiction.
      * intros H. destruct (List.find isAudio ts) as [T|] eqn:Hf2;
          [|reflexivity].
        apply List.find_some in Hf2. destruct Hf2 as [Hin Ha].
        apply bool_decide_eq_true in Ha. exfalso.
        apply (H T); [apply list_elem_of_In; exact Hin | exact Ha].
    + intros T Hf2. apply List.find_some in Hf2. destruct Hf2 as [Hin Ha].
      apply bool_decide_eq_true in Ha.
      split; [apply list_elem_of_In; exact Hin|]. split; [exact Ha|].
      intros (t & c & Ht & Hta & Hc & Hs). exfalso.
      apply list_elem_of_In in Ht.
      pose proof (List.find_none _ _ Hf1 t Ht) as Hb. simpl in Hb.
      apply andb_false_iff in Hb. destruct Hb as [Hb | Hb].
      * assert (existsb isSelected (clips t) = true).
        { apply existsb_exists. exists c.
          split; [apply list_elem_of_In; exact Hc | exact Hs]. }
        congruence.
      * unfold isAudio in Hb. apply bool_decide_eq_false in Hb. contradiction.
Qed.

Lemma selectedCount_cons t ts :
  selectedCount (t :: ts)
  = (length (List.filter isSelected (clips t)) + selectedCount ts)%nat.
Proof.
  unfold selectedCount. rewrite allClips_cons, List.filter_app, length_app.
  reflexivity.
Qed.

(** The first element a predicate holds of. *)
Lemma find_first {A} (f : A -> bool) (l : list A) :
  match List.find f l with
  | Some x =>
      exists before after,
        l = before ++ x :: after /\ f x = true /\
        Forall (fun y => f y = false) before
  | None => Forall (fun y => f y = false) l
  end.
Proof.
  induction l as [|y l IH]; simpl; [constructor|].
  destruct (f y) eqn:E.
  - exists [], l. split; [reflexivity|]. split; [exact E|constructor].
  - destruct (List.find f l) as [x|].
    + destruct IH as (before & after & -> & Hx & Hb).
      exists (y :: before), after. split; [reflexivity|].
      split; [exact Hx|]. constructor; assumption.
    + constructor; assumption.
Qed.

Lemma existsb_isSelected (cs : list AudioClip) :
  existsb isSelected cs = true <-> exists c, c ∈ cs /\ isSelected c = true.
Proof.
  rewrite existsb_exists. split; intros (c & Hc & Hs); exists c;
    (split; [apply list_elem_of_In; exact Hc | exact Hs]).
Qed.

(** The track pasted into, by position: the first audio track that holds a
    selected clip, or, when no audio track holds one, the first audio
    track. *)
Lemma pasteTarget_first (ts : list Track) :
  match pasteTarget ts with
  | Some T =>
      exists before after,
        ts = before ++ T :: after /\ trackType T = audio /\
        (((exists c, c ∈ clips T /\ isSelected c = true) /\
          Forall (fun t => ~ (trackType t = audio /\
                              exists c, c ∈ clips t /\ isSelected c = true))
            before) \/
         (Forall (fun t => ~ (trackType t = audio /\
                              exists c, c ∈ clips t /\ isSelected c = true))
            ts /\
          Forall (fun t => trackType t <> audio) before))
  | None => Forall (fun t => trackType t <> audio) ts
  end.
Proof.
  assert (Hno : forall l : list Track,
            Forall (fun y => existsb isSelected (clips y) && isAudio y = false)
              l ->
            Forall (fun t => ~ (trackType t = audio /\
                                exists c, c ∈ clips t /\ isSelected c = true))
              l).
  { intros l Hl. eapply Forall_impl; [exact Hl|]. intros t Ht [Ha Hs].
    apply existsb_isSelected in Hs. unfold isAudio in Ht.
    rewrite Hs, bool_decide_eq_true_2 in Ht by exact Ha. discriminate. }
  assert (Hna : forall l : list Track,
            Forall (fun y => isAudio y = false) l ->
            Forall (fun t => trackType t <> audio) l).
  { intros l Hl. eapply Forall_impl; [exact Hl|]. intros t Ht.
    unfold isAudio in Ht. apply bool_decide_eq_false in Ht. exact Ht. }
  unfold pasteTarget.
  pose proof (find_first
                (fun t => existsb isSelected (clips t) && isAudio t) ts) as H1.
  destruct (List.find (fun t => existsb isSelected (clips t) && isAudio t) ts)
    as [T|].
  - destruct H1 as (before & after & Hts & HT & Hb).
    apply andb_prop in HT. destruct HT as [Hs Ha].
    apply bool_decide_eq_true in Ha. apply existsb_isSelected in Hs.
    exists before, after. split; [exact Hts|]. split; [exact Ha|].
    left. split; [exact Hs | apply Hno; exact Hb].
  - pose proof (find_first isAudio ts) as H2.
    destruct (List.find isAudio ts) as [T|].
    + destruct H2 as (before & after & Hts & Ha & Hb).
      apply bool_decide_eq_true in Ha.
      exists before, after. split; [exact Hts|]. split; [exact Ha|].
      right. split; [apply Hno; exact H1 | apply Hna; exact Hb].
    + apply Hna. exact H2.
Qed.

(** X6. Pasting with an empty clipboard, or into a project without an audio
    track, changes nothing.  Otherwise, in a project that satisfies the
    invariants of the data model, exactly one track [T] changes: the first
    audio track that holds a selected clip or, when no audio track holds
    one, the first audio track.  [T] gains one clip at its end: it carries
    the new id, starts at the playhead, is not selected, and has the file,
    name, source offset, duration and source duration of the clipboard
    clip.  The selection is as before, the result is written to the store,
    and when the new id is unused, the playhead is not negative and the
    clipboard clip satisfies the clip invariants, the invariants of the data
    model are kept. *)
Theorem paste_appends_copy_at_playhead
    (eps : Q) (clipboard : AudioClip) (newId : string) (st : Daw) :
  project_inv eps (projectState st) ->
  let p := projectState st in
  let st' := handlePaste (Some clipboard) newId st in
  let holdsSelected (t : Track) :=
    exists c, c ∈ clips t /\ isSelected c = true in
  handlePaste None newId st = st /\
  ((forall t, t ∈ tracks p -> trackType t <> audio) -> st' = st) /\
  ((exists t, t ∈ tracks p /\ trackType t = audio) ->
   exists before T after newClip,
     tracks p = before ++ T :: after /\ trackType T = audio /\
     ((holdsSelected T /\
       Forall (fun t => ~ (trackType t = audio /\ holdsSelected t)) before) \/
      (Forall (fun t => ~ (trackType t = audio /\ holdsSelected t))
         (tracks p) /\
       Forall (fun t => trackType t <> audio) before)) /\
     tracks (projectState st')
     = before ++ set_clips (clips T ++ [newClip]) T :: after /\
     clipId newClip = newId /\
     startTime newClip = playheadPosition st /\
     isSelected newClip = false /\
     fileId newClip = fileId clipboard /\
     clip_name newClip = clip_name clipboard /\
     startOffset newClip = startOffset clipboard /\
     duration newClip = duration clipboard /\
     sourceDuration newClip = sourceDuration clipboard /\
     loopRegion (projectState st') = loopRegion p /\
     selectedCount (tracks (projectState st')) = selectedCount (tracks p) /\
     persisted st' = Some (projectState st') /\
     ((newId ∉ map clipId (allClips (tracks p))) ->
      0 <= playheadPosition st -> clip_inv eps clipboard ->
      project_inv eps (projectState st'))).
Proof.
  intros Hinv p st' holdsSelected.
  destruct (pasteTarget_spec (tracks p)) as [Hnone _].
  split; [reflexivity|]. split.
  - intros Hno. apply Hnone in Hno. subst st'. unfold handlePaste.
    fold p. rewrite Hno. reflexivity.
  - intros (t0 & Ht0 & Ha0).
    pose proof (pasteTarget_first (tracks p)) as Hfirst.
    destruct (pasteTarget (tracks p)) as [T|] eqn:HT.
    2:{ exfalso. rewrite Forall_forall in Hfirst. exact (Hfirst t0 Ht0 Ha0). }
    destruct Hfirst as (before & after & Hts & Haud & Hwhich).
    set (newClip := pastedClip newId (playheadPosition st) clipboard).
    destruct Hinv as [Hids Htr Hcids Hclips Hcount Hreg].
    fold p in Hids, Htr, Hcids, Hclips, Hcount, Hreg.
    assert (Hnew : tracks (projectState st')
                   = before ++ set_clips (clips T ++ [newClip]) T :: after).
    { subst st'. unfold handlePaste. fold p. rewrite HT. simpl.
      rewrite Hts in Hids |- *. apply pasteInTrack_at. exact Hids. }
    assert (Hall : forall f : AudioClip -> string,
               Permutation
                 (map f (allClips (tracks (projectState st'))))
                 (f newClip :: map f (allClips (tracks p)))).
    { intros f. rewrite Hnew, Hts, !allClips_app, !allClips_cons. simpl.
      rewrite !map_app. simpl. solve_Permutation. }
    exists before, T, after, newClip.
    split; [exact Hts|]. split; [exact Haud|]. split; [exact Hwhich|].
    split; [exact Hnew|].
    do 8 (split; [reflexivity|]).
    split.
    { subst st'. unfold handlePaste. fold p. rewrite HT. reflexivity. }
    split.
    { rewrite Hnew, Hts. unfold selectedCount.
      rewrite !allClips_app, !allClips_cons. simpl.
      rewrite !List.filter_app. simpl. rewrite !length_app. simpl. lia. }
    split.
    { subst st'. unfold handlePaste. fold p. rewrite HT. reflexivity. }
    intros Hfresh Hplay Hclip. split.
    + replace (tracks (projectState st')) with
        (map (pasteInTrack (id T) newClip) (tracks p)).
      2:{ subst st'. unfold handlePaste. fold p. rewrite HT. reflexivity. }
      rewrite map_map.
      replace (map (fun x => id (pasteInTrack (id T) newClip x)) (tracks p))
        with (map id (tracks p)); [exact Hids|].
      apply map_ext. intros t. unfold pasteInTrack.
      destruct (decide (id t = id T)); reflexivity.
    + rewrite Hnew. rewrite Hts in Htr.
      apply Forall_app in Htr. destruct Htr as [Hb Ha].
      apply Forall_cons in Ha. destruct Ha as [Ht Ha].
      apply Forall_app. split; [exact Hb|]. constructor; [exact Ht | exact Ha].
    + rewrite (Hall clipId). apply NoDup_cons. split; [|exact Hcids].
      exact Hfresh.
    + rewrite Hnew, !allClips_app, !allClips_cons. simpl.
      rewrite Hts, !allClips_app, !allClips_cons in Hclips.
      apply Forall_app in Hclips. destruct Hclips as [Hb Hrest].
      apply Forall_app in Hrest. destruct Hrest as [Ht Ha].
      apply Forall_app. split; [exact Hb|].
      apply Forall_app. split; [|exact Ha].
      apply Forall_app. split; [exact Ht|].
      constructor; [|constructor]. split; [exact Hplay | exact Hclip].
    + replace (selectedCount (tracks (projectState st')))
        with (selectedCount (tracks p)); [exact Hcount|].
      rewrite Hnew, Hts. unfold selectedCount.
      rewrite !allClips_app, !allClips_cons. simpl.
      rewrite !List.filter_app. simpl. rewrite !length_app. simpl. lia.
    + replace (loopRegion (projectState st')) with (loopRegion p);
        [exact Hreg|].
      subst st'. unfold handlePaste. fold p. rewrite HT. reflexivity.
Qed.

Lemma paste_appends_copy_at_playhead_witness :
  project_inv (1 # 1000) example_project /\
  handlePaste None "clip-b" example_daw = example_daw /\
  exists before T after newClip,
    tracks (projectState (handlePaste (Some example_clip) "clip-b" example_daw))
    = before ++ set_clips (clips T ++ [newClip]) T :: after /\
    clipId newClip = "clip-b"%string /\
    startTime newClip = playheadPosition example_daw.
Proof.
  pose proof (paste_appends_copy_at_playhead (1 # 1000) example_clip "clip-b"
                example_daw example_project_inv) as T.
  cbv zeta in T. destruct T as (Hnone & _ & Hsome).
  split; [exact example_project_inv|]. split; [exact Hnone|].
  assert (Haudio : exists t, t ∈ tracks (projectState example_daw)
                             /\ trackType t = audio).
  { exists example_track. split; [left | reflexivity]. }
  destruct (Hsome Haudio)
    as (before & T & after & newClip & _ & _ & _ & Hnew & Hid & Hstart & _).
  exists before, T, after, newClip. auto.
Defined.

(** *** Cut, then paste *)

Lemma getSelectedClip_None_deselected st :
  getSelectedClip st = None ->
  forall c, c ∈ allClips (tracks (projectState st)) -> isSelected c = false.
Proof.
  intros H c Hc. apply (proj1 (getSelectedClip_spec st)) in H.
  unfold selectedCount in H. destruct (isSelected c) eqn:E; [|reflexivity].
  assert (Hin : In c (List.filter isSelected (allClips (tracks (projectState st)))))
    by (apply List.filter_In; split; [apply list_elem_of_In|]; assumption).
  destruct (List.filter isSelected _); [inversion Hin | discriminate].
Qed.

(** ** Replacing one clip by a clip with the same id and selection *)

Lemma project_inv_replace_clip eps (p : ProjectState)
    (before after : list Track) (track : Track)
    (pre post : list AudioClip) (c c' : AudioClip) :
  project_inv eps p ->
  tracks p = before ++ track :: after ->
  clips track = pre ++ c :: post ->
  clipId c' = clipId c -> isSelected c' = isSelected c -> clip_wf eps c' ->
  project_inv eps
    (set_tracks (before ++ set_clips (pre ++ c' :: post) track :: after) p).
Proof.
  intros [Hids Htr Hcids Hclips Hsel Hreg] Hts Hcs Hid Hs Hwf.
  rewrite Hts in Hids, Htr, Hcids, Hclips, Hsel.
  unfold selectedCount in Hsel.
  rewrite allClips_app, allClips_cons, Hcs in Hcids, Hclips, Hsel.
  split; simpl.
  - rewrite map_app in Hids |- *. exact Hids.
  - apply Forall_app in Htr. destruct Htr as [Hb Ha].
    apply Forall_cons in Ha. destruct Ha as [Ht Ha].
    apply Forall_app. split; [exact Hb|]. constructor; [exact Ht | exact Ha].
  - rewrite allClips_app, allClips_cons. simpl.
    rewrite !map_app in Hcids |- *. simpl in Hcids |- *. rewrite Hid.
    exact Hcids.
  - rewrite allClips_app, allClips_cons. simpl.
    apply Forall_app in Hclips. destruct Hclips as [Hb Hclips].
    apply Forall_app in Hclips. destruct Hclips as [Ht Ha].
    apply Forall_app in Ht. destruct Ht as [Hpre Hpost].
    apply Forall_cons in Hpost. destruct Hpost as [_ Hpost].
    apply Forall_app. split; [exact Hb|].
    apply Forall_app. split; [|exact Ha].
    apply Forall_app. split; [exact Hpre|].
    constructor; [exact Hwf | exact Hpost].
  - unfold selectedCount. rewrite allClips_app, allClips_cons. simpl.
    rewrite !List.filter_app in Hsel |- *. simpl in Hsel |- *. rewrite Hs.
    rewrite !length_app in Hsel |- *.
    destruct (isSelected c); simpl in Hsel |- *; exact Hsel.
  - exact Hreg.
Qed.

(** ** Nudge *)

(** X7. In a project that satisfies the invariants of the data model,
    [handleNudge] never raises.  With a clip selected, that clip alone moves
    by a hundredth of a second, earlier for [left] and later for [right],
    stopping at time 0; its other fields, the playhead and the invariants
    are kept and the result is written to the store.  With no clip selected
    the project is untouched and the playhead moves instead, by the same
    amount and with the same stop at 0. *)
Theorem nudge_moves_clip_or_playhead
    (eps : Q) (direction : NudgeDirection) (deviceNow : Q) (st : Daw) :
  project_inv eps (projectState st) ->
  let p := projectState st in
  let amount :=
    match direction with
    | nudge_left => - (1 # 100)
    | nudge_right => 1 # 100
    end in
  (forall c tid, getSelectedClip st = Some (c, tid) ->
     exists st' before track after pre post,
       handleNudge direction deviceNow st = Some st' /\
       tracks p = before ++ track :: after /\ id track = tid /\
       clips track = pre ++ c :: post /\
       tracks (projectState st')
       = before ++ set_clips (pre ++ nudgeClip amount c :: post) track
         :: after /\
       0 <= startTime (nudgeClip amount c) /\
       (0 <= startTime c + amount ->
        startTime (nudgeClip amount c) == startTime c + amount) /\
       (startTime c + amount <= 0 -> startTime (nudgeClip amount c) == 0) /\
       set_startTime (startTime c) (nudgeClip amount c) = c /\
       playheadPosition st' = playheadPosition st /\
       persisted st' = Some (projectState st') /\
       project_inv eps (projectState st')) /\
  (getSelectedClip st = None ->
     exists st',
       handleNudge direction deviceNow st = Some st' /\
       projectState st' = p /\ persisted st' = persisted st /\
       0 <= playheadPosition st' /\
       (0 <= playheadPosition st + amount ->
        playheadPosition st' == playheadPosition st + amount) /\
       (playheadPosition st + amount <= 0 -> playheadPosition st' == 0) /\
       pauseTimeRef st' = playheadPosition st').
Proof.
  intros Hinv p amount.
  assert (Ha : amount = nudgeAmount direction)
    by (destruct direction; reflexivity).
  clearbody amount. subst amount. set (amount := nudgeAmount direction).
  split.
  - intros c tid Hsel.
    destruct (selected_clip_position eps st c tid Hinv Hsel)
      as (before & track & after & pre & post & Hts & Hid & Hb & Hcs & Hpre & Hs).
    fold p in Hts.
    assert (Hn : handleNudge direction deviceNow st
                 = Some (updateProjectState
                           (set_tracks
                              (before
                               ++ set_clips (pre ++ nudgeClip amount c :: post)
                                    track :: after) p) true st)).
    { unfold handleNudge. rewrite Hsel. fold amount. fold p. rewrite Hts.
      rewrite (update_found_middle _ _ before after track
                 (set_clips (pre ++ nudgeClip amount c :: post) track));
        auto.
      rewrite Hcs.
      rewrite (update_found_middle _ _ pre post c (nudgeClip amount c)); auto. }
    eexists. exists before, track, after, pre, post.
    split; [exact Hn|]. split; [exact Hts|]. split; [exact Hid|].
    split; [exact Hcs|]. split; [reflexivity|].
    assert (Hmax : 0 <= startTime (nudgeClip amount c) /\
                   (0 <= startTime c + amount ->
                    startTime (nudgeClip amount c) == startTime c + amount) /\
                   (startTime c + amount <= 0 ->
                    startTime (nudgeClip amount c) == 0)).
    { change (startTime (nudgeClip amount c))
        with (Js.Math_max 0 (startTime c + amount)).
      destruct (js_Math_max_spec 0 (startTime c + amount)) as [[? E] | [? E]];
        rewrite E; repeat split; intros; lra. }
    destruct Hmax as (Hge & Hfree & Hstop).
    split; [exact Hge|]. split; [exact Hfree|]. split; [exact Hstop|].
    split; [destruct c; reflexivity|]. split; [reflexivity|].
    split; [reflexivity|].
    apply (project_inv_replace_clip eps p before after track pre post c);
      auto.
    destruct Hinv as [_ _ _ Hclips _ _]. fold p in Hclips.
    rewrite Hts, allClips_app, allClips_cons, Hcs in Hclips.
    apply Forall_app in Hclips. destruct Hclips as [_ Hclips].
    apply Forall_app in Hclips. destruct Hclips as [Hclips _].
    apply Forall_app in Hclips. destruct Hclips as [_ Hclips].
    apply Forall_cons in Hclips. destruct Hclips as [[_ Hc] _].
    split; [exact Hge | exact Hc].
  - intros Hsel. eexists. split.
    { unfold handleNudge. rewrite Hsel. reflexivity. }
    fold amount.
    split; [reflexivity|]. split; [reflexivity|].
    change (playheadPosition
              (handleSeek (Js.Math_max 0 (playheadPosition st + amount))
                 deviceNow st))
      with (Js.Math_max 0 (playheadPosition st + amount)).
    destruct (js_Math_max_spec 0 (playheadPosition st + amount))
      as [[? E] | [? E]];
      rewrite E; repeat split; intros; lra.
Qed.

Lemma nudge_moves_clip_or_playhead_witness :
  project_inv (1 # 1000) (projectState example_daw) /\
  exists st',
    handleNudge nudge_left 0 example_daw = Some st' /\
    project_inv (1 # 1000) (projectState st').
Proof.
  split; [exact example_project_inv|].
  destruct (proj1 (nudge_moves_clip_or_playhead (1 # 1000) nudge_left 0
                     example_daw example_project_inv)
              example_clip 1%Z eq_refl)
    as (st' & _ & _ & _ & _ & _ & Hn & _ & _ & _ & _ & _ & _ & _ & _ & _ & _
        & Hinv).
  exists st'. split; [exact Hn | exact Hinv].
Defined.

(** ** Zoom *)

Lemma zoom_step_inv c st : zoom_inv st -> zoom_inv (zoom c st).
Proof.
  unfold zoom_inv. intros [Hlo Hhi]. destruct c; simpl.
  - destruct (js_Math_min_spec (zoomLevel st * (3 # 2)) 32) as [[? E] | [? E]];
      rewrite E; split; lra.
  - assert (Hdiv : zoomLevel st / (3 # 2) == zoomLevel st * (2 # 3))
      by (field).
    destruct (js_Math_max_spec (zoomLevel st / (3 # 2)) (1 # 10))
      as [[? E] | [? E]]; rewrite E; split; lra.
Qed.

Lemma zoomAll_frame cs st :
  projectState (zoomAll cs st) = projectState st /\
  playheadPosition (zoomAll cs st) = playheadPosition st /\
  persisted (zoomAll cs st) = persisted st.
Proof.
  revert st. unfold zoomAll.
  induction cs as [|c cs IH]; intros st; simpl; [auto|].
  destruct (IH (zoom c st)) as (-> & -> & ->). destruct c; auto.
Qed.

(** X8. Whatever sequence of zoom-in and zoom-out presses is made, a zoom level
    inside [0.1, 32] (the initial level is 1) stays inside it, so the
    timeline scale stays between 10 and 3200 pixels per second and is never
    zero; the project and the playhead are not touched.  One zoom-in
    multiplies the level by 1.5 and stops at 32; one zoom-out divides it by
    1.5 and stops at 0.1. *)
Theorem zoom_level_stays_in_range (cs : list ZoomCommand) (st : Daw) :
  1 # 10 <= zoomLevel st -> zoomLevel st <= 32 ->
  let st' := zoomAll cs st in
  1 # 10 <= zoomLevel st' /\ zoomLevel st' <= 32 /\
  10 <= pixelsPerSecond st' /\ pixelsPerSecond st' <= 3200 /\
  projectState st' = projectState st /\
  playheadPosition st' = playheadPosition st /\
  (zoomLevel st * (3 # 2) <= 32 ->
   zoomLevel (handleZoomIn st) == zoomLevel st * (3 # 2)) /\
  (32 <= zoomLevel st * (3 # 2) -> zoomLevel (handleZoomIn st) == 32) /\
  (1 # 10 <= zoomLevel st / (3 # 2) ->
   zoomLevel (handleZoomOut st) == zoomLevel st / (3 # 2)) /\
  (zoomLevel st / (3 # 2) <= 1 # 10 ->
   zoomLevel (handleZoomOut st) == 1 # 10).
Proof.
  intros Hlo0 Hhi0 st'.
  assert (Hinv : zoom_inv st) by (split; assumption).
  assert (Hinv' : zoom_inv st').
  { subst st'. clear Hlo0 Hhi0. revert st Hinv. unfold zoomAll.
    induction cs as [|c cs IH]; intros st Hinv; simpl; [exact Hinv|].
    apply IH, zoom_step_inv, Hinv. }
  destruct (zoomAll_frame cs st) as (Hp & Hh & _).
  destruct Hinv' as [Hlo Hhi].
  split; [exact Hlo|]. split; [exact Hhi|].
  unfold pixelsPerSecond, INITIAL_PIXELS_PER_SECOND.
  split; [lra|]. split; [lra|]. split; [exact Hp|]. split; [exact Hh|].
  simpl.
  split; [|split; [|split]]; intros H.
  - destruct (js_Math_min_spec (zoomLevel st * (3 # 2)) 32) as [[? E] | [? E]];
      rewrite E; lra.
  - destruct (js_Math_min_spec (zoomLevel st * (3 # 2)) 32) as [[? E] | [? E]];
      rewrite E; lra.
  - destruct (js_Math_max_spec (zoomLevel st / (3 # 2)) (1 # 10))
      as [[? E] | [? E]]; rewrite E; lra.
  - destruct (js_Math_max_spec (zoomLevel st / (3 # 2)) (1 # 10))
      as [[? E] | [? E]]; rewrite E; lra.
Qed.

Lemma zoom_level_stays_in_range_witness :
  1 # 10 <= zoomLevel example_daw /\ zoomLevel example_daw <= 32 /\
  zoomLevel (zoomAll [ZoomIn; ZoomIn; ZoomOut] example_daw) <= 32.
Proof.
  assert (H1 : 1 # 10 <= zoomLevel example_daw) by (simpl; lra).
  assert (H2 : zoomLevel example_daw <= 32) by (simpl; lra).
  split; [exact H1|]. split; [exact H2|].
  exact (proj1 (proj2 (zoom_level_stays_in_range [ZoomIn; ZoomIn; ZoomOut]
                         example_daw H1 H2))).
Defined.

(** ** Play, then stop *)

(** What [sourcesRef] holds after the sources started by one play were
    registered, when no two of them share a key. *)
Lemma registerSources_lookup_old (new : list (string * SourceNode))
    (m : gmap string SourceNode) (k : string) :
  k ∉ map fst new -> registerSources new m !! k = m !! k.
Proof.
  revert m. induction new as [|[k0 s0] new IH]; intros m Hk; [reflexivity|].
  simpl in Hk. apply not_elem_of_cons in Hk. destruct Hk as [Hne Hk].
  unfold registerSources. simpl.
  change (registerSources new (<[k0:=s0]> m) !! k = m !! k).
  rewrite IH by exact Hk. apply lookup_insert_ne. congruence.
Qed.

Lemma registerSources_lookup_new (new : list (string * SourceNode))
    (m : gmap string SourceNode) (k : string) (s : SourceNode) :
  NoDup (map fst new) -> (k, s) ∈ new ->
  registerSources new m !! k = Some s.
Proof.
  revert m. induction new as [|[k0 s0] new IH]; intros m Hnd Hin;
    [inversion Hin|].
  simpl in Hnd. apply NoDup_cons in Hnd. destruct Hnd as [Hk0 Hnd].
  unfold registerSources. simpl.
  change (registerSources new (<[k0:=s0]> m) !! k = Some s).
  apply elem_of_cons in Hin. destruct Hin as [[= -> ->] | Hin].
  - rewrite registerSources_lookup_old by exact Hk0.
    apply lookup_insert_eq.
  - apply IH; assumption.
Qed.

Lemma registerSources_empty (new : list (string * SourceNode)) :
  NoDup (map fst new) -> map_to_list (registerSources new ∅) ≡ₚ new.
Proof.
  intros Hnd.
  assert (E : registerSources new ∅ = list_to_map new).
  { apply map_eq. intros k.
    destruct (decide (k ∈ map fst new)) as [Hin|Hout].
    - apply list_elem_of_fmap in Hin. destruct Hin as ([k' s] & -> & Hin).
      simpl. rewrite (registerSources_lookup_new _ _ _ _ Hnd Hin).
      symmetry. apply elem_of_list_to_map; assumption.
    - rewrite registerSources_lookup_old by exact Hout.
      rewrite lookup_empty. symmetry.
      apply not_elem_of_list_to_map. exact Hout. }
  rewrite E. apply map_to_list_to_map. exact Hnd.
Qed.

(** The keys play registers sources under are clip ids of the project, each
    at most once and in the order of the clips. *)
Lemma playProject_keys buffers pauseTime deviceNow (p : ProjectState) :
  map fst (playProject buffers pauseTime deviceNow p)
  `sublist_of` map clipId (allClips (tracks p)).
Proof.
  unfold playProject, allClips.
  induction (tracks p) as [|t ts IH]; simpl; [constructor|].
  rewrite !map_app. apply sublist_app; [|exact IH].
  unfold playTrack. destruct (audible _ t); [|apply sublist_nil_l].
  induction (clips t) as [|c cs IHc]; simpl; [constructor|].
  rewrite map_app. unfold playClip at 1.
  destruct (buffers !! fileId c) as [b|]; [|apply sublist_cons; exact IHc].
  destruct (scheduleClip _ _ b c) as [s|]; [|apply sublist_cons; exact IHc].
  simpl. apply sublist_skip. exact IHc.
Qed.

Lemma playProject_NoDup buffers pauseTime deviceNow (p : ProjectState) :
  NoDup (map clipId (allClips (tracks p))) ->
  NoDup (map fst (playProject buffers pauseTime deviceNow p)).
Proof.
  intros Hnd. eapply sublist_NoDup; [exact Hnd | apply playProject_keys].
Qed.

(** X10. Starting playback at device time [now0] from a paused session with
    no live source, in a project whose clip ids are pairwise distinct, and
    pressing stop at device time [now1]: [source.stop] is called on exactly
    the sources that play started, they are forgotten, the frame loop is
    cancelled, and the playhead and the pause position are both
    [now1 - (now0 - pause)], the device time minus the epoch play set, or 0
    when that reaches the song length of 240 s.  The project is not
    touched, and pressing play while playing does nothing. *)
Theorem stop_after_play_keeps_elapsed_time (now0 now1 : Q) (st : Daw) :
  isPlaying st = false -> sourcesRef st = ∅ ->
  NoDup (map clipId (allClips (tracks (projectState st)))) ->
  let st1 := handlePlay now0 st in
  let st2 := handleStop now1 st1 in
  let elapsed := now1 - (now0 - pauseTimeRef st) in
  isPlaying st1 = true /\ handlePlay now1 st1 = st1 /\
  (exists new,
     started st1 = started st ++ new /\ started st2 = started st1 /\
     stopped st1 = stopped st /\
     stopped st2 ≡ₚ stopped st ++ map snd new) /\
  isPlaying st2 = false /\ sourcesRef st2 = ∅ /\
  animationFrameRef st2 = false /\
  projectState st2 = projectState st /\ persisted st2 = persisted st /\
  pauseTimeRef st2 = playheadPosition st2 /\
  (elapsed < 240 -> playheadPosition st2 = elapsed) /\
  (240 <= elapsed -> playheadPosition st2 = 0).
Proof.
  intros Hstopped Hnone Hids st1 st2 elapsed.
  assert (H1 : isPlaying st1 = true).
  { subst st1. unfold handlePlay. rewrite Hstopped. reflexivity. }
  assert (Hstart : startTimeRef st1 = now0 - pauseTimeRef st).
  { subst st1. unfold handlePlay. rewrite Hstopped. reflexivity. }
  split; [exact H1|]. split.
  { unfold handlePlay at 1. rewrite H1. reflexivity. }
  split.
  { exists (playProject (runtimeAudioBuffers st) (pauseTimeRef st) now0
              (projectState st)).
    split; [apply handlePlay_started; exact Hstopped|].
    split; [reflexivity|].
    split; [subst st1; unfold handlePlay; rewrite Hstopped; reflexivity|].
    change (stopped st2) with (stopSources st1). unfold stopSources.
    subst st1. unfold handlePlay. rewrite Hstopped. simpl. rewrite Hnone.
    apply Permutation_app_head, fmap_Permutation, registerSources_empty.
    apply playProject_NoDup. exact Hids. }
  split; [reflexivity|]. split; [reflexivity|]. split; [reflexivity|]. split.
  { subst st2 st1. unfold handlePlay. rewrite Hstopped. reflexivity. }
  split.
  { subst st2 st1. unfold handlePlay. rewrite Hstopped. reflexivity. }
  split; [reflexivity|].
  change (playheadPosition st2)
    with (if Js.gt SONG_DURATION_SECONDS (now1 - startTimeRef st1)
          then now1 - startTimeRef st1 else 0).
  rewrite Hstart. fold elapsed. unfold SONG_DURATION_SECONDS.
  destruct (Js.gt 240 elapsed) eqn:E.
  - apply js_gt_true in E. split; [reflexivity|]. intros; lra.
  - apply js_gt_false in E. split; [|reflexivity]. intros; lra.
Qed.

Lemma stop_after_play_keeps_elapsed_time_witness :
  isPlaying example_daw = false /\ sourcesRef example_daw = ∅ /\
  playheadPosition (handleStop 12 (handlePlay 10 example_daw)) == 2 /\
  stopped (handleStop 12 (handlePlay 10 example_daw))
  = [{| source_buffer := "file-a"; source_when := 10 + 0;
        source_offset := 0; source_duration := 10 |}].
Proof.
  split; [reflexivity|]. split; [reflexivity|].
  assert (Hids : NoDup (map clipId
                          (allClips (tracks (projectState example_daw)))))
    by (apply (bool_decide_unpack _); vm_compute; exact I).
  pose proof (stop_after_play_keeps_elapsed_time 10 12 example_daw eq_refl
                eq_refl Hids) as T.
  cbv zeta in T. destruct T as (_ & _ & _ & _ & _ & _ & _ & _ & _ & Hlt & _).
  split; [|vm_compute; reflexivity].
  rewrite Hlt; [reflexivity|]. simpl. lra.
Defined.

(** ** What play starts *)




(** ** Importing an audio file *)

Lemma first_match_split {A} (P : A -> Prop) `{forall x, Decision (P x)}
    (l : list A) :
  (exists pre x post,
     l = pre ++ x :: post /\ Forall (fun z => ~ P z) pre /\ P x) \/
  Forall (fun z => ~ P z) l.
Proof.
  induction l as [|a l IH].
  - right. constructor.
  - destruct (decide (P a)) as [Ha|Ha].
    + left. exists [], a, l. split; [reflexivity|]. split; [constructor|exact Ha].
    + destruct IH as [(pre & x & post & -> & Hpre & Hx) | Hall].
      * left. exists (a :: pre), x, post.
        split; [reflexivity|]. split; [constructor; assumption | exact Hx].
      * right. constructor; assumption.
Qed.

Lemma update_found_none {A} (P : A -> Prop) `{forall x, Decision (P x)}
    (f : A -> option A) (l : list A) :
  Forall (fun z => ~ P z) l -> update_found P f l = None.
Proof.
  intros Hall. unfold update_found.
  destruct (list_find P l) as [[i x]|] eqn:Hf; [|reflexivity].
  apply list_find_Some in Hf. destruct Hf as (Hi & Hx & _).
  rewrite Forall_forall in Hall. exfalso. apply (Hall x); [|exact Hx].
  apply list_elem_of_lookup. eauto.
Qed.

Lemma find_isAudio_first (ts : list Track) :
  match List.find isAudio ts with
  | Some T =>
      exists before after,
        ts = before ++ T :: after /\ trackType T = audio /\
        Forall (fun t => trackType t <> audio) before
  | None => Forall (fun t => trackType t <> audio) ts
  end.
Proof.
  induction ts as [|t ts IH]; simpl; [constructor|].
  unfold isAudio at 1.
  destruct (bool_decide_reflect (trackType t = audio)) as [Ha|Ha].
  - exists [], ts. split; [reflexivity|]. split; [exact Ha | constructor].
  - destruct (List.find isAudio ts) as [T|].
    + destruct IH as (before & after & -> & HT & Hb).
      exists (t :: before), after. split; [reflexivity|].
      split; [exact HT | constructor; assumption].
    + constructor; assumption.
Qed.

(** Where [importedTracks] puts the clip. *)
Lemma importedTracks_spec (target : option Z) (file : File)
    (newClip : AudioClip) (ts : list Track) :
  (exists before T after,
     ts = before ++ T :: after /\ trackType T = audio /\
     importedTracks target file newClip ts
     = before ++ set_clips (clips T ++ [newClip]) T :: after /\
     ((Some (id T) = target /\
       Forall (fun t => ~ (Some (id t) = target /\ trackType t = audio))
         before) \/
      (Forall (fun t => ~ (Some (id t) = target /\ trackType t = audio)) ts /\
       Forall (fun t => trackType t <> audio) before))) \/
  (Forall (fun t => trackType t <> audio) ts /\
   importedTracks target file newClip ts
   = ts ++ [importedTrack file newClip ts]).
Proof.
  unfold importedTracks.
  destruct (first_match_split
              (fun t => Some (id t) = target /\ trackType t = audio) ts)
    as [(before & T & after & Hts & Hb & HT & Ha) | Hno1].
  - left. exists before, T, after. split; [exact Hts|]. split; [exact Ha|].
    split; [|left; auto].
    rewrite Hts.
    rewrite (update_found_middle _ _ before after T
               (set_clips (clips T ++ [newClip]) T)); auto.
  - rewrite (update_found_none _ _ _ Hno1).
    destruct (first_match_split (fun t => trackType t = audio) ts)
      as [(before & T & after & Hts & Hb & Ha) | Hno2].
    + left. exists before, T, after. split; [exact Hts|]. split; [exact Ha|].
      split; [|right; auto].
      rewrite Hts.
      rewrite (update_found_middle _ _ before after T
                 (set_clips (clips T ++ [newClip]) T)); auto.
    + right. split; [exact Hno2|].
      rewrite (update_found_none _ _ _ Hno2). reflexivity.
Qed.

Lemma project_inv_push_clip eps (p : ProjectState)
    (before after : list Track) (T : Track) (newClip : AudioClip) :
  project_inv eps p -> tracks p = before ++ T :: after ->
  (clipId newClip ∉ map clipId (allClips (tracks p))) ->
  isSelected newClip = false -> clip_wf eps newClip ->
  project_inv eps
    (set_tracks (before ++ set_clips (clips T ++ [newClip]) T :: after) p).
Proof.
  intros [Hids Htr Hcids Hclips Hsel Hreg] Hts Hfresh Hns Hwf.
  rewrite Hts in Hids, Htr, Hcids, Hclips, Hsel, Hfresh.
  unfold selectedCount in Hsel.
  rewrite allClips_app, allClips_cons in Hcids, Hclips, Hsel, Hfresh.
  split; simpl.
  - rewrite map_app in Hids |- *. exact Hids.
  - apply Forall_app in Htr. destruct Htr as [Hb Ha].
    apply Forall_cons in Ha. destruct Ha as [Ht Ha].
    apply Forall_app. split; [exact Hb|]. constructor; [exact Ht | exact Ha].
  - rewrite allClips_app, allClips_cons. simpl.
    apply (NoDup_Permutation_proper _
             (clipId newClip
              :: map clipId (allClips before ++ clips T ++ allClips after))).
    + rewrite !map_app. simpl. solve_Permutation.
    + apply NoDup_cons. split; assumption.
  - rewrite allClips_app, allClips_cons. simpl.
    apply Forall_app in Hclips. destruct Hclips as [Hb Hclips].
    apply Forall_app in Hclips. destruct Hclips as [Ht Ha].
    apply Forall_app. split; [exact Hb|].
    apply Forall_app. split; [|exact Ha].
    apply Forall_app. split; [exact Ht|]. constructor; [exact Hwf|constructor].
  - unfold selectedCount. rewrite allClips_app, allClips_cons. simpl.
    rewrite !List.filter_app in Hsel |- *. simpl.
    rewrite !List.filter_app. simpl. rewrite Hns, app_nil_r.
    rewrite !length_app in Hsel |- *. exact Hsel.
  - exact Hreg.
Qed.

Lemma list_find_middle {A} (P : A -> Prop) `{forall x, Decision (P x)}
    (pre post : list A) (x : A) :
  Forall (fun z => ~ P z) pre -> P x ->
  list_find P (pre ++ x :: post) = Some (length pre, x).
Proof.
  intros Hpre Hx. apply list_find_Some. split; [|split].
  - apply list_lookup_middle. reflexivity.
  - exact Hx.
  - intros j z Hj Hlt. rewrite lookup_app_l in Hj by exact Hlt.
    rewrite Forall_forall in Hpre. apply Hpre.
    apply list_elem_of_lookup. eauto.
Qed.

Lemma first_match_unique {A} (P : A -> Prop) `{forall x, Decision (P x)}
    (pre post pre' post' : list A) (x x' : A) :
  pre ++ x :: post = pre' ++ x' :: post' ->
  Forall (fun z => ~ P z) pre -> P x ->
  Forall (fun z => ~ P z) pre' -> P x' ->
  pre = pre'.
Proof.
  intros E Hpre Hx Hpre' Hx'.
  pose proof (list_find_middle P pre post x Hpre Hx) as H1.
  pose proof (list_find_middle P pre' post' x' Hpre' Hx') as H2.
  rewrite E in H1. rewrite H1 in H2. injection H2 as Hlen _.
  apply (f_equal (take (length pre))) in E.
  rewrite take_app_length in E. rewrite Hlen in E.
  rewrite take_app_length in E. exact E.
Qed.

Lemma project_inv_add_track eps (p : ProjectState) (t : Track)
    (c : AudioClip) :
  project_inv eps p -> (id t ∉ map id (tracks p)) -> track_inv t ->
  clips t = [c] -> (clipId c ∉ map clipId (allClips (tracks p))) ->
  isSelected c = false -> clip_wf eps c ->
  project_inv eps (set_tracks (tracks p ++ [t]) p).
Proof.
  intros [Hids Htr Hcids Hclips Hsel Hreg] Hid Ht Hc Hfresh Hns Hwf.
  split; simpl.
  - rewrite map_app. simpl.
    apply (NoDup_Permutation_proper _ (id t :: map id (tracks p))).
    + solve_Permutation.
    + apply NoDup_cons. split; assumption.
  - apply Forall_app. split; [exact Htr|]. constructor; [exact Ht|constructor].
  - rewrite allClips_app, allClips_cons, Hc. simpl. rewrite map_app. simpl.
    apply (NoDup_Permutation_proper _
             (clipId c :: map clipId (allClips (tracks p)))).
    + solve_Permutation.
    + apply NoDup_cons. split; assumption.
  - rewrite allClips_app, allClips_cons, Hc. simpl.
    apply Forall_app. split; [exact Hclips|].
    constructor; [exact Hwf|constructor].
  - unfold selectedCount in *. rewrite allClips_app, allClips_cons, Hc. simpl.
    rewrite List.filter_app. simpl. rewrite Hns, app_nil_r. exact Hsel.
  - exact Hreg.
Qed.

(** [name.split('.')[0]] is the part of the name before its first dot. *)
Lemma beforeDot_spec (s : string) :
  exists rest,
    s = String.append (beforeDot s) rest /\
    (rest = EmptyString \/ exists r, rest = String "."%char r) /\
    forall c, In c (String.list_ascii_of_string (beforeDot s)) -> c <> "."%char.
Proof.
  induction s as [|a s (rest & Hs & Hrest & Hno)]; simpl.
  - exists EmptyString. split; [reflexivity|]. split; [left; reflexivity|].
    intros c [].
  - destruct (Ascii.eqb_spec a (Ascii.ascii_of_nat 46)) as [->|Hne].
    + exists (String "."%char s). split; [reflexivity|].
      split; [right; eauto|]. intros c [].
    + exists rest. split.
      { change (String a s
                = String a (String.append (beforeDot s) rest)).
        f_equal. exact Hs. }
      split; [exact Hrest|].
      intros c [<- | Hc]; [exact Hne | exact (Hno c Hc)].
Qed.

(** X12. Importing a file into a project that satisfies the invariants of the
    data model.  With no file chosen nothing happens; when decoding fails the
    handler stops before anything is stored or changed.  Otherwise the file's
    bytes are stored under the new file id, the decoded buffer is registered
    under it, and one new clip is appended to exactly one track.  The clip
    carries the new clip id and the new file id, is named after the file,
    starts at the playhead with source offset 0, lasts as long as the
    buffer, which is also its source duration, and is not selected.  The
    track is the first audio track with the id of the selected clip's track;
    when no clip is selected or no audio track has that id, the first audio
    track; else a new track appended to a project that had no audio
    track: of audio type, volume 0.8, pan 0, not muted, not
    soloed, without effects, with an id that is at least 1 and larger than
    every id in use, and named by the part of the file name before its
    first dot, or [Audio] when that is empty.  The project is written to the
    store, and with an unused clip id, a tolerance and a playhead that are
    not negative and a buffer of positive length the invariants are kept. *)
Theorem import_places_clip_on_audio_track
    (eps : Q) (decodeAudioData : ArrayBuffer -> option AudioBuffer)
    (file : File) (others : list File) (newFileId newClipId : string)
    (db : AudioStore) (st : Daw) :
  project_inv eps (projectState st) ->
  let p := projectState st in
  let run := handleFileSelected decodeAudioData in
  run [] newFileId newClipId db st = Some (db, st) /\
  (decodeAudioData (file_data file) = None ->
   run (file :: others) newFileId newClipId db st = None) /\
  (forall audioBuffer,
     decodeAudioData (file_data file) = Some audioBuffer ->
     exists db' st' newClip,
       run (file :: others) newFileId newClipId db st = Some (db', st') /\
       getAudioFile newFileId db' = Some (file_data file) /\
       (forall k, k <> newFileId ->
                  getAudioFile k db' = getAudioFile k db) /\
       runtimeAudioBuffers st' !! newFileId = Some audioBuffer /\
       (forall k, k <> newFileId ->
                  runtimeAudioBuffers st' !! k = runtimeAudioBuffers st !! k) /\
       persisted st' = Some (projectState st') /\
       loopRegion (projectState st') = loopRegion p /\
       clipId newClip = newClipId /\ fileId newClip = newFileId /\
       clip_name newClip = file_name file /\
       startTime newClip = playheadPosition st /\
       startOffset newClip = 0 /\
       duration newClip = buffer_duration audioBuffer /\
       sourceDuration newClip = buffer_duration audioBuffer /\
       isSelected newClip = false /\
       ((exists before T after,
           tracks p = before ++ T :: after /\ trackType T = audio /\
           tracks (projectState st')
           = before ++ set_clips (clips T ++ [newClip]) T :: after /\
           (((exists c, getSelectedClip st = Some (c, id T)) /\
             Forall (fun t => ~ (id t = id T /\ trackType t = audio))
               before) \/
            ((forall c tid,
                getSelectedClip st = Some (c, tid) ->
                Forall (fun t => ~ (id t = tid /\ trackType t = audio))
                  (tracks p)) /\
             Forall (fun t => trackType t <> audio) before))) \/
        (Forall (fun t => trackType t <> audio) (tracks p) /\
         exists newTrack prefix rest,
           tracks (projectState st') = tracks p ++ [newTrack] /\
           clips newTrack = [newClip] /\ trackType newTrack = audio /\
           volume newTrack = 8 # 10 /\ pan newTrack = 0 /\
           isMuted newTrack = false /\ isSoloed newTrack = false /\
           effects newTrack = [] /\
           (1 <= id newTrack)%Z /\
           (forall t, t ∈ tracks p -> (id t < id newTrack)%Z) /\
           file_name file = String.append prefix rest /\
           (rest = EmptyString \/ exists r, rest = String "."%char r) /\
           (forall c, In c (String.list_ascii_of_string prefix) -> c <> "."%char) /\
           (prefix = EmptyString -> name newTrack = "Audio"%string) /\
           (prefix <> EmptyString -> name newTrack = prefix))) /\
       ((newClipId ∉ map clipId (allClips (tracks p))) -> 0 <= eps ->
        0 <= playheadPosition st -> 0 < buffer_duration audioBuffer ->
        project_inv eps (projectState st'))).
Proof.
  intros Hinv p run. subst run. split; [reflexivity|]. split.
  { intros Hdec. unfold handleFileSelected. rewrite Hdec. reflexivity. }
  intros audioBuffer Hdec.
  set (newClip := importedClip newClipId newFileId file audioBuffer
                    (playheadPosition st)).
  unfold handleFileSelected. rewrite Hdec. fold p. fold newClip.
  eexists _, _, newClip. split; [reflexivity|].
  split; [apply lookup_insert_eq|].
  split; [intros k Hk; apply lookup_insert_ne; congruence|].
  split; [apply lookup_insert_eq|].
  split; [intros k Hk; apply lookup_insert_ne; congruence|].
  split; [reflexivity|]. split; [reflexivity|].
  do 8 (split; [reflexivity|]).
  change (tracks (projectState
                    (updateProjectState
                       (set_tracks
                          (importedTracks (importTargetId st) file newClip
                             (tracks p)) p) true
                       (set_runtimeAudioBuffers
                          (<[newFileId:=audioBuffer]> (runtimeAudioBuffers st))
                          st))))
    with (importedTracks (importTargetId st) file newClip (tracks p)).
  change (projectState
            (updateProjectState
               (set_tracks
                  (importedTracks (importTargetId st) file newClip
                     (tracks p)) p) true
               (set_runtimeAudioBuffers
                  (<[newFileId:=audioBuffer]> (runtimeAudioBuffers st))
                  st)))
    with (set_tracks
            (importedTracks (importTargetId st) file newClip (tracks p)) p).
  assert (Hwf : 0 <= eps -> 0 <= playheadPosition st ->
                0 < buffer_duration audioBuffer -> clip_wf eps newClip).
  { intros He Hp Hd. unfold clip_wf, clip_inv. simpl. repeat split; lra. }
  destruct (importedTracks_spec (importTargetId st) file newClip (tracks p))
    as [(before & T & after & Hts & Ha & Hnew & Hwhich) | [Hno Hnew]].
  - split.
    + left. exists before, T, after. split; [exact Hts|]. split; [exact Ha|].
      split; [exact Hnew|].
      destruct Hwhich as [[Hid Hb] | [Hall Hb]].
      2:{ right. split; [|exact Hb]. intros c tid Hsel.
          unfold importTargetId in Hall. rewrite Hsel in Hall.
          eapply Forall_impl; [exact Hall|]. intros t Ht [E Hta].
          apply Ht. split; [congruence | exact Hta]. }
      unfold importTargetId in Hid, Hb.
      destruct (getSelectedClip st) as [[c tid]|] eqn:Hsel.
      * left. split; [exists c; congruence|].
        eapply Forall_impl; [exact Hb|]. intros t Ht [E Hta].
        apply Ht. split; [congruence | exact Hta].
      * right. split; [intros c tid Hc; discriminate Hc|].
        fold p in Hid, Hb.
        pose proof (find_isAudio_first (tracks p)) as Hfirst.
        destruct (List.find isAudio (tracks p)) as [T1|]; [|discriminate].
        destruct Hfirst as (before1 & after1 & Hts1 & Ha1 & Hb1).
        assert (before1 = before) as <-; [|exact Hb1].
        apply (first_match_unique
                 (fun t => Some (id t) = Some (id T1) /\ trackType t = audio)
                 before1 after1 before after T1 T); auto.
        -- congruence.
        -- apply Forall_forall. intros z Hz [_ Hza].
           rewrite Forall_forall in Hb1. apply (Hb1 z Hz Hza).
    + intros Hfresh He Hp Hd. rewrite Hnew.
      apply project_inv_push_clip; auto.
  - destruct (nextTrackId_fresh (tracks p)) as [Hone Hlt].
    split.
    + right. split; [exact Hno|].
      destruct (beforeDot_spec (file_name file)) as (rest & Hname & Hrest & Hdot).
      exists (importedTrack file newClip (tracks p)),
        (beforeDot (file_name file)), rest.
      split; [exact Hnew|].
      do 7 (split; [reflexivity|]).
      split; [exact Hone|]. split; [exact Hlt|]. split; [exact Hname|].
      split; [exact Hrest|]. split; [exact Hdot|].
      simpl. split; intros E.
      * rewrite decide_True by exact E. reflexivity.
      * rewrite decide_False by exact E. reflexivity.
    + intros Hfresh He Hp Hd. rewrite Hnew.
      apply (project_inv_add_track eps p _ newClip); auto.
      * intros Hin. apply list_elem_of_fmap in Hin.
        destruct Hin as (t0 & E & Ht0).
        specialize (Hlt t0 Ht0). simpl in E. lia.
      * unfold track_inv, mix_inv, in_range. simpl.
        repeat split; try lra. constructor.
Qed.

Lemma import_places_clip_on_audio_track_witness :
  project_inv (1 # 1000) (projectState example_daw) /\
  exists db' st',
    handleFileSelected example_decode [example_file] "file-b" "clip-b" ∅
      example_daw = Some (db', st') /\
    getAudioFile "file-b" db' = Some (file_data example_file) /\
    runtimeAudioBuffers st' !! "file-b" = Some {| buffer_duration := 4 |}.
Proof.
  split; [exact example_project_inv|].
  destruct (proj2 (proj2 (import_places_clip_on_audio_track (1 # 1000)
                            example_decode example_file [] "file-b" "clip-b"
                            ∅ example_daw example_project_inv))
              {| buffer_duration := 4 |} eq_refl)
    as (db' & st' & newClip & Hrun & Hfile & _ & Hbuf & _).
  exists db', st'. split; [exact Hrun|]. split; [exact Hfile | exact Hbuf].
Defined.

(** ** Loading on startup *)

(** The buffer the startup loop can obtain for a file id. *)
Lemma loadClipBuffer_lookup decodeAudioData db newBuffers clip f :
  loadClipBuffer decodeAudioData db newBuffers clip !! f
  = match newBuffers !! f with
    | Some b => Some b
    | None =>
        if decide (fileId clip = f /\ f <> EmptyString)
        then getAudioFile f db ≫= decodeAudioData
        else None
    end.
Proof.
  unfold loadClipBuffer.
  destruct (bool_decide_reflect (fileId clip <> EmptyString)) as [Hne|He];
    simpl.
  - destruct (bool_decide_reflect (newBuffers !! fileId clip = None))
      as [Hnone|Hsome]; simpl.
    + destruct (decide (fileId clip = f)) as [<-|Hf].
      * rewrite Hnone. rewrite decide_True by auto.
        destruct (getAudioFile (fileId clip) db) as [data|]; simpl;
          [|exact Hnone].
        destruct (decodeAudioData data) as [b|]; simpl;
          [apply lookup_insert_eq | exact Hnone].
      * assert (E : (match getAudioFile (fileId clip) db with
                     | Some audioData =>
                         match decodeAudioData audioData with
                         | Some audioBuffer =>
                             <[fileId clip:=audioBuffer]> newBuffers
                         | None => newBuffers
                         end
                     | None => newBuffers
                     end) !! f = newBuffers !! f).
        { destruct (getAudioFile (fileId clip) db) as [data|]; [|reflexivity].
          destruct (decodeAudioData data); [|reflexivity].
          apply lookup_insert_ne. exact Hf. }
        rewrite E. destruct (newBuffers !! f); [reflexivity|].
        rewrite decide_False by tauto. reflexivity.
    + destruct (newBuffers !! f) as [b|] eqn:Hb; [reflexivity|].
      rewrite decide_False; [reflexivity|].
      intros [<- _]. contradiction.
  - destruct (newBuffers !! f) as [b|] eqn:Hb; [reflexivity|].
    rewrite decide_False; [reflexivity|].
    intros [<- Hne]. contradiction.
Qed.

Lemma loadBuffers_fold decodeAudioData db (cs : list AudioClip) acc f :
  fold_left (loadClipBuffer decodeAudioData db) cs acc !! f
  = match acc !! f with
    | Some b => Some b
    | None =>
        if decide (f ∈ map fileId cs /\ f <> EmptyString)
        then getAudioFile f db ≫= decodeAudioData
        else None
    end.
Proof.
  revert acc. induction cs as [|c cs IH]; intros acc; cbn [fold_left List.map].
  - destruct (acc !! f); [reflexivity|].
    destruct (decide (f ∈ [] /\ f <> EmptyString)) as [[H _]|];
      [inversion H | reflexivity].
  - rewrite IH, loadClipBuffer_lookup.
    destruct (acc !! f) as [b|]; [reflexivity|].
    destruct (decide (f ∈ fileId c :: map fileId cs /\ f <> EmptyString))
      as [[Hin Hne]|Hn];
      destruct (decide (fileId c = f /\ f <> EmptyString)) as [[Hf Hne1]|Hn1];
      destruct (decide (f ∈ map fileId cs /\ f <> EmptyString))
        as [[Hin' Hne2]|Hn2];
      try (destruct (getAudioFile f db ≫= decodeAudioData); reflexivity);
      try reflexivity; exfalso;
      first [ apply Hn; split; [first [rewrite Hf; left | right; assumption]
                               | assumption]
            | apply elem_of_cons in Hin; destruct Hin as [-> | Hin];
              [apply Hn1 | apply Hn2]; split; auto ].
Qed.

Lemma createInitialProject_inv eps : project_inv eps createInitialProject.
Proof.
  split.
  - apply (bool_decide_unpack _). vm_compute. reflexivity.
  - repeat (constructor; [unfold track_inv, mix_inv, in_range; simpl;
                          repeat split; try lra; constructor|]).
    constructor.
  - apply NoDup_nil_2.
  - constructor.
  - apply le_0_n.
  - exact I.
Qed.

(** X13. What the startup effect publishes.  With nothing stored, the session
    starts from the initial project (one audio and one MIDI track, no clips),
    which satisfies the invariants of the data model and is written to the
    store.  With a stored project, the session gets the migrated project, and
    the buffer map holds a buffer for a file id exactly when the id is not
    empty, some clip of the project refers to it, the audio-file store has
    data under it and the data decodes; the buffer is the decoded data.  A
    clip whose file is missing or does not decode is kept, without a
    buffer. *)
Theorem startup_loads_project_and_buffers
    (eps : Q) (decodeAudioData : ArrayBuffer -> option AudioBuffer)
    (uuid : nat -> string) (n : nat) (result : option StoredProject)
    (db : AudioStore) (st : Daw) :
  let st' := loadProject decodeAudioData uuid n result db st in
  (result = None ->
   projectState st' = createInitialProject /\
   persisted st' = Some createInitialProject /\
   runtimeAudioBuffers st' = runtimeAudioBuffers st /\
   project_inv eps (projectState st') /\
   map trackType (tracks (projectState st')) = [audio; midi] /\
   allClips (tracks (projectState st')) = []) /\
  (forall stored savedProject,
     result = Some stored ->
     getProject uuid n result = Some savedProject ->
     projectState st' = savedProject /\ persisted st' = persisted st /\
     forall f b,
       runtimeAudioBuffers st' !! f = Some b <->
       (f <> EmptyString /\
        (exists clip, clip ∈ allClips (tracks savedProject) /\
                      fileId clip = f) /\
        exists data, getAudioFile f db = Some data /\
                     decodeAudioData data = Some b)).
Proof.
  intros st'. split.
  - intros ->. subst st'. unfold loadProject. simpl.
    split; [reflexivity|]. split; [reflexivity|]. split; [reflexivity|].
    split; [apply createInitialProject_inv|]. split; reflexivity.
  - intros stored savedProject -> Hget. subst st'. unfold loadProject.
    rewrite Hget. split; [reflexivity|]. split; [reflexivity|].
    intros f b.
    change (runtimeAudioBuffers
              (set_runtimeAudioBuffers
                 (loadBuffers decodeAudioData db savedProject)
                 (set_projectState savedProject st)))
      with (loadBuffers decodeAudioData db savedProject).
    unfold loadBuffers. rewrite loadBuffers_fold, lookup_empty.
    destruct (decide (f ∈ map fileId (allClips (tracks savedProject))
                      /\ f <> EmptyString)) as [[Hin Hne]|Hn].
    + split.
      * intros Hb. split; [exact Hne|]. split.
        -- apply list_elem_of_fmap in Hin. destruct Hin as (c & -> & Hc).
           exists c. auto.
        -- destruct (getAudioFile f db) as [data|]; [|discriminate].
           exists data. auto.
      * intros (_ & _ & data & Hd & Hb). rewrite Hd. exact Hb.
    + split; [discriminate|].
      intros (Hne & (c & Hc & Hf) & _). exfalso. apply Hn.
      split; [|exact Hne]. apply list_elem_of_fmap. exists c. auto.
Qed.

Lemma importedTracks_holds_clip target file newClip ts :
  newClip ∈ allClips (importedTracks target file newClip ts).
Proof.
  destruct (importedTracks_spec target file newClip ts)
    as [(before & T & after & _ & _ & -> & _) | [_ ->]];
    rewrite allClips_app, allClips_cons; apply elem_of_app; right;
    apply elem_of_app; left.
  - simpl. apply elem_of_app. right. left.
  - simpl. left.
Qed.

(** X14. An imported file survives a restart: when the import succeeded with a
    file id that is not empty, loading the project and the audio-file store
    it left behind gives the same project with the selection cleared, still
    holding the imported clip, and the buffer map again holds the decoded
    buffer under the file's id. *)
Theorem imported_file_survives_restart
    (decodeAudioData : ArrayBuffer -> option AudioBuffer)
    (uuid : nat -> string) (n : nat)
    (file : File) (others : list File) (newFileId newClipId : string)
    (db db' : AudioStore) (st st' st0 : Daw) (audioBuffer : AudioBuffer) :
  newFileId <> EmptyString ->
  decodeAudioData (file_data file) = Some audioBuffer ->
  handleFileSelected decodeAudioData (file :: others) newFileId newClipId
    db st = Some (db', st') ->
  let newClip :=
    importedClip newClipId newFileId file audioBuffer (playheadPosition st) in
  let restarted :=
    loadProject decodeAudioData uuid n
      (option_map saveProject (persisted st')) db' st0 in
  projectState restarted = deselectAll (projectState st') /\
  newClip ∈ allClips (tracks (projectState restarted)) /\
  runtimeAudioBuffers restarted !! newFileId = Some audioBuffer.
Proof.
  intros Hne Hdec Hrun newClip restarted.
  unfold handleFileSelected in Hrun. rewrite Hdec in Hrun.
  injection Hrun as <- <-. fold newClip in restarted |- *.
  set (p' := set_tracks
               (importedTracks (importTargetId st) file newClip
                  (tracks (projectState st))) (projectState st)).
  assert (Hload : restarted
                  = set_runtimeAudioBuffers
                      (loadBuffers decodeAudioData
                         (saveAudioFile newFileId (file_data file) db)
                         (deselectAll p'))
                      (set_projectState (deselectAll p') st0)).
  { subst restarted. unfold loadProject. simpl persisted. simpl option_map.
    rewrite save_then_load. reflexivity. }
  rewrite Hload.
  assert (Hin : newClip ∈ allClips (tracks (deselectAll p'))).
  { simpl. rewrite allClips_deselect. apply list_elem_of_fmap.
    exists newClip. split; [reflexivity|].
    apply importedTracks_holds_clip. }
  split; [reflexivity|]. split; [exact Hin|].
  change (runtimeAudioBuffers
            (set_runtimeAudioBuffers
               (loadBuffers decodeAudioData
                  (saveAudioFile newFileId (file_data file) db)
                  (deselectAll p'))
               (set_projectState (deselectAll p') st0)))
    with (loadBuffers decodeAudioData
            (saveAudioFile newFileId (file_data file) db) (deselectAll p')).
  unfold loadBuffers. rewrite loadBuffers_fold, lookup_empty.
  rewrite decide_True.
  - assert (E : getAudioFile newFileId
                  (saveAudioFile newFileId (file_data file) db)
                = Some (file_data file)) by apply lookup_insert_eq.
    rewrite E. exact Hdec.
  - split; [|exact Hne]. apply list_elem_of_fmap. exists newClip.
    split; [reflexivity | exact Hin].
Qed.

Lemma imported_file_survives_restart_witness :
  exists db' st',
    handleFileSelected example_decode [example_file] "file-b" "clip-b" ∅
      example_daw = Some (db', st') /\
    runtimeAudioBuffers
      (loadProject example_decode example_uuid 0
         (option_map saveProject (persisted st')) db' example_daw)
    !! "file-b" = Some {| buffer_duration := 4 |}.
Proof.
  eexists _, _. split; [reflexivity|].
  assert (Hne : "file-b"%string <> EmptyString) by discriminate.
  exact (proj2 (proj2 (imported_file_survives_restart example_decode
                         example_uuid 0 example_file [] "file-b" "clip-b"
                         ∅ _ example_daw _ example_daw
                         {| buffer_duration := 4 |} Hne eq_refl eq_refl))).
Defined.

(** ** The rotary control *)

Lemma js_Math_round_bounds (x : Q) :
  x - (1 # 2) < inject_Z (Js.Math_round x) /\
  inject_Z (Js.Math_round x) <= x + (1 # 2).
Proof.
  unfold Js.Math_round.
  pose proof (Qfloor_le (x + (1 # 2))) as Hle.
  pose proof (Qlt_floor (x + (1 # 2))) as Hlt.
  rewrite inject_Z_plus in Hlt. change (inject_Z 1) with 1 in Hlt.
  split; lra.
Qed.

Lemma js_Math_round_integer (k : Z) : Js.Math_round (inject_Z k) = k.
Proof.
  unfold Js.Math_round.
  pose proof (Qfloor_le (inject_Z k + (1 # 2))) as Hle.
  pose proof (Qlt_floor (inject_Z k + (1 # 2))) as Hlt.
  set (r := Qfloor (inject_Z k + (1 # 2))) in *.
  assert (H1 : inject_Z r < inject_Z (k + 1)).
  { rewrite inject_Z_plus. change (inject_Z 1) with 1. lra. }
  assert (H2 : inject_Z k < inject_Z (r + 1)).
  { rewrite inject_Z_plus in Hlt |- *. change (inject_Z 1) with 1 in *. lra. }
  rewrite <- Zlt_Qlt in H1, H2. lia.
Qed.

Lemma js_Math_round_mono (x y : Q) :
  x <= y -> (Js.Math_round x <= Js.Math_round y)%Z.
Proof.
  intros H. unfold Js.Math_round. apply Qfloor_resp_le. lra.
Qed.

Lemma knobRotation_spec (angle : Q) :
  -135 <= knobRotation angle /\ knobRotation angle <= 135 /\
  (-135 <= angle + 90 -> angle + 90 <= 135 ->
   knobRotation angle = angle + 90) /\
  (angle + 90 <= -135 -> knobRotation angle == -135) /\
  (135 <= angle + 90 -> knobRotation angle == 135).
Proof.
  unfold knobRotation. cbv zeta.
  destruct (Js.gt (-135) (angle + 90)) eqn:E1.
  - apply js_gt_true in E1.
    destruct (Js.gt (-135) 135) eqn:E2;
      [apply js_gt_true in E2; lra|].
    repeat split; intros; lra.
  - apply js_gt_false in E1.
    destruct (Js.gt (angle + 90) 135) eqn:E2.
    + apply js_gt_true in E2. repeat split; intros; lra.
    + apply js_gt_false in E2. repeat split; intros; lra.
Qed.

Lemma knobRotation_mono (a1 a2 : Q) :
  a1 <= a2 -> knobRotation a1 <= knobRotation a2.
Proof.
  intros H.
  destruct (knobRotation_spec a1) as (L1 & H1 & M1 & Lo1 & Hi1).
  destruct (knobRotation_spec a2) as (L2 & H2 & M2 & Lo2 & Hi2).
  destruct (Qlt_le_dec (-135) (a1 + 90)) as [Ha|Ha].
  - destruct (Qlt_le_dec (a2 + 90) 135) as [Hb|Hb].
    + rewrite M1, M2; lra.
    + specialize (Hi2 Hb). lra.
  - specialize (Lo1 Ha). lra.
Qed.

Lemma clamp_mono (lo hi x y : Q) :
  x <= y ->
  Js.Math_max lo (Js.Math_min hi x) <= Js.Math_max lo (Js.Math_min hi y).
Proof.
  intros H.
  destruct (js_Math_min_spec hi x) as [[? E1]|[? E1]];
    destruct (js_Math_min_spec hi y) as [[? E2]|[? E2]]; rewrite ?E1, ?E2;
    match goal with
    | |- Js.Math_max ?a ?b <= Js.Math_max ?c ?d =>
        destruct (js_Math_max_spec a b) as [[? E3]|[? E3]];
        destruct (js_Math_max_spec c d) as [[? E4]|[? E4]];
        rewrite ?E3, ?E4
    end; lra.
Qed.

(** X15. The value a knob hands to [onChange], for [min <= max] and a positive
    step: it lies in [[min, max]]; it is [min], [max] or a whole multiple of
    the step; unless it was clamped it is within half a step of the value
    the pointer angle stands for; and it does not decrease when the angle
    grows. *)
Theorem knob_value_in_range (min max step angle : Q) :
  min <= max -> 0 < step ->
  let v := knobValue min max step angle in
  let raw := min + (knobRotation angle + 135) / 270 * (max - min) in
  min <= v /\ v <= max /\
  (v = min \/ v = max \/ exists k : Z, v = inject_Z k * step) /\
  min <= raw /\ raw <= max /\
  (min < v -> v < max -> raw - step / 2 < v /\ v <= raw + step / 2) /\
  (forall angle', angle <= angle' ->
                  v <= knobValue min max step angle').
Proof.
  intros Hmm Hstep v raw.
  destruct (knobRotation_spec angle) as (Hlo & Hhi & _).
  assert (Hraw : min <= raw /\ raw <= max).
  { subst raw.
    assert (Hp : 0 <= (knobRotation angle + 135) / 270 <= 1).
    { split.
      - apply Qle_shift_div_l; lra.
      - apply Qle_shift_div_r; lra. }
    split; nra. }
  set (snapped := inject_Z (Js.Math_round (raw / step)) * step).
  assert (Hv : v = Js.Math_max min (Js.Math_min max snapped)) by reflexivity.
  assert (Hsn : raw - step / 2 < snapped /\ snapped <= raw + step / 2).
  { subst snapped.
    destruct (js_Math_round_bounds (raw / step)) as [H1 H2].
    assert (E : raw / step * step == raw) by (field; lra).
    set (d := raw / step) in *.
    set (z := inject_Z (Js.Math_round d)) in *.
    assert (E1 : (d - (1 # 2)) * step == raw - step / 2)
      by (rewrite <- E; field).
    assert (E2 : (d + (1 # 2)) * step == raw + step / 2)
      by (rewrite <- E; field).
    split.
    - rewrite <- E1. apply Qmult_lt_compat_r; assumption.
    - rewrite <- E2. apply Qmult_le_compat_r; [assumption | lra]. }
  split; [|split; [|split; [|split; [|split; [|split]]]]].
  - rewrite Hv.
    destruct (js_Math_max_spec min (Js.Math_min max snapped))
      as [[? E]|[? E]]; rewrite E; lra.
  - rewrite Hv.
    destruct (js_Math_min_spec max snapped) as [[? E1]|[? E1]]; rewrite E1;
      match goal with
      | |- Js.Math_max ?a ?b <= _ =>
          destruct (js_Math_max_spec a b) as [[? E]|[? E]]; rewrite E
      end; lra.
  - rewrite Hv.
    destruct (js_Math_min_spec max snapped) as [[? E1]|[? E1]]; rewrite E1;
      match goal with
      | |- Js.Math_max ?a ?b = _ \/ _ =>
          destruct (js_Math_max_spec a b) as [[? E]|[? E]]; rewrite E
      end; auto.
    right. right. eexists. reflexivity.
  - apply Hraw.
  - apply Hraw.
  - intros H1 H2. rewrite Hv in H1, H2 |- *.
    destruct (js_Math_min_spec max snapped) as [[? E1]|[? E1]];
      rewrite E1 in *;
      match goal with
      | |- context [Js.Math_max ?a ?b] =>
          destruct (js_Math_max_spec a b) as [[? E]|[? E]];
          rewrite E in *
      end; lra.
  - intros angle' Hle. subst v. unfold knobValue. cbv zeta.
    apply clamp_mono. apply Qmult_le_compat_r; [|lra].
    rewrite <- Zle_Qle. apply js_Math_round_mono.
    apply Qmult_le_compat_r; [|apply Qlt_le_weak, Qinv_lt_0_compat; exact Hstep].
    pose proof (knobRotation_mono angle angle' Hle) as Hrot.
    assert ((knobRotation angle + 135) / 270
            <= (knobRotation angle' + 135) / 270).
    { apply Qmult_le_compat_r; [lra|]. discriminate. }
    nra.
Qed.

Lemma knob_value_in_range_witness :
  20 <= knobValue 20 20000 1 30 /\ knobValue 20 20000 1 30 <= 20000.
Proof.
  assert (H1 : 20 <= 20000) by lra. assert (H2 : 0 < 1) by lra.
  pose proof (knob_value_in_range 20 20000 1 30 H1 H2) as T.
  cbv zeta in T. destruct T as (Hlo & Hhi & _).
  split; [exact Hlo | exact Hhi].
Defined.

(** The value handed to [onChange] when the clamped rotation stands for a
    whole multiple of the step inside the range. *)
Lemma knobValue_on_grid (min max step angle rot : Q) (k : Z) :
  0 < step -> knobRotation angle == rot ->
  min + (rot + 135) / 270 * (max - min) == inject_Z k * step ->
  min <= inject_Z k * step -> inject_Z k * step <= max ->
  knobValue min max step angle == inject_Z k * step.
Proof.
  intros Hstep Hrot Hraw Hlo Hhi. unfold knobValue. cbv zeta.
  assert (Eraw : min + (knobRotation angle + 135) / 270 * (max - min)
                 == inject_Z k * step).
  { rewrite Hrot. exact Hraw. }
  assert (Ediv : (min + (knobRotation angle + 135) / 270 * (max - min))
                   / step == inject_Z k).
  { transitivity (inject_Z k * step / step);
      [apply Qdiv_comp; [exact Eraw | reflexivity]|].
    field. lra. }
  assert (Eround : Js.Math_round
                     ((min + (knobRotation angle + 135) / 270
                             * (max - min)) / step) = k).
  { unfold Js.Math_round. rewrite Ediv. apply js_Math_round_integer. }
  rewrite Eround.
  destruct (js_Math_min_spec max (inject_Z k * step)) as [[? E1]|[? E1]];
    rewrite E1;
    match goal with
    | |- Js.Math_max ?a ?b == _ =>
        destruct (js_Math_max_spec a b) as [[? E2]|[? E2]]; rewrite E2
    end; lra.
Qed.

(** X16. A knob showing [val] is drawn rotated by
    [rot = getRotationFromValue val], between -135 and 135 degrees; a
    pointer on its mark is seen from the centre under [rot - 90] degrees,
    which [Math.atan2] reports in [(-180, 180]]: as [rot - 90] when
    [rot > -90] and as [rot + 270] otherwise.  For [min < max], a positive
    step and a value in range that is a whole multiple of the step: when
    [rot > -90] the pointer on the mark gives back [val]; when [rot <= -90],
    the lowest sixth of the range, the rotation computed from the pointer is
    clamped to 135 and the value handed on is [max] (for [max] a whole
    multiple of the step).  No angle that [Math.atan2] reports gives a
    rotation of -90 degrees or less, so no pointer position sets a value of
    the lowest sixth of the range, up to the snapping to the step. *)
Theorem knob_shows_what_it_sets (min max step val : Q) (k : Z) :
  min < max -> 0 < step -> min <= val -> val <= max ->
  val == inject_Z k * step ->
  let rot := getRotationFromValue min max val in
  -135 <= rot /\ rot <= 135 /\
  (-90 < rot ->
   -180 < rot - 90 /\ rot - 90 <= 180 /\
   knobValue min max step (rot - 90) == val) /\
  (rot <= -90 ->
   -180 < rot + 270 /\ rot + 270 <= 180 /\
   knobRotation (rot + 270) == 135 /\
   forall kmax : Z,
     max == inject_Z kmax * step ->
     knobValue min max step (rot + 270) == max) /\
  (forall angle,
     -180 < angle ->
     -90 < knobRotation angle /\
     min + (max - min) / 6
     < min + (knobRotation angle + 135) / 270 * (max - min)).
Proof.
  intros Hmm Hstep Hlo Hhi Hk rot.
  assert (Hrot : rot == (val - min) / (max - min) * 270 - 135).
  { subst rot. unfold getRotationFromValue. cbv zeta. reflexivity. }
  assert (Hp : 0 <= (val - min) / (max - min) <= 1).
  { split.
    - apply Qle_shift_div_l; lra.
    - apply Qle_shift_div_r; lra. }
  assert (Hr : -135 <= rot /\ rot <= 135) by (rewrite Hrot; split; lra).
  split; [apply Hr|]. split; [apply Hr|].
  split; [|split].
  - intros Hup. split; [lra|]. split; [lra|].
    destruct (knobRotation_spec (rot - 90)) as (_ & _ & Hmid & _).
    rewrite Hk.
    apply (knobValue_on_grid min max step (rot - 90) rot k); try lra.
    + rewrite Hmid by lra. ring.
    + rewrite <- Hk, Hrot. field. lra.
  - intros Hlow. split; [lra|]. split; [lra|].
    destruct (knobRotation_spec (rot + 270)) as (_ & _ & _ & _ & Htop).
    assert (E : knobRotation (rot + 270) == 135) by (apply Htop; lra).
    split; [exact E|].
    intros kmax Hmax.
    apply Qeq_trans with (inject_Z kmax * step); [|symmetry; exact Hmax].
    apply (knobValue_on_grid min max step (rot + 270) 135 kmax); try lra.
    rewrite <- Hmax. field.
  - intros angle Ha.
    assert (Hrot' : -90 < knobRotation angle).
    { unfold knobRotation. cbv zeta.
      destruct (Js.gt (-135) (angle + 90)) eqn:E1.
      - apply js_gt_true in E1. lra.
      - destruct (Js.gt (angle + 90) 135) eqn:E2; lra. }
    split; [exact Hrot'|].
    assert (E6 : (max - min) / 6 == (1 # 6) * (max - min)) by field.
    assert (Hpc : (1 # 6) < (knobRotation angle + 135) / 270).
    { apply Qlt_shift_div_l; lra. }
    rewrite E6. nra.
Qed.

Lemma knob_shows_what_it_sets_witness :
  knobValue (-12) 12 (1 # 10) (getRotationFromValue (-12) 12 (3 # 2) - 90)
  == 3 # 2 /\
  knobValue (-12) 12 (1 # 10) (getRotationFromValue (-12) 12 (-10) + 270)
  == 12.
Proof.
  split.
  - assert (H1 : -12 < 12) by lra. assert (H2 : 0 < 1 # 10) by lra.
    assert (H3 : -12 <= 3 # 2) by lra. assert (H4 : 3 # 2 <= 12) by lra.
    assert (H5 : 3 # 2 == inject_Z 15 * (1 # 10)) by reflexivity.
    pose proof (knob_shows_what_it_sets (-12) 12 (1 # 10) (3 # 2) 15
                  H1 H2 H3 H4 H5) as T.
    cbv zeta in T. destruct T as (_ & _ & T & _).
    apply T. vm_compute. reflexivity.
  - vm_compute. reflexivity.
Defined.

(** ** The effects list *)

Lemma set_effects_frame v t :
  id (set_effects v t) = id t /\ name (set_effects v t) = name t /\
  trackType (set_effects v t) = trackType t /\
  volume (set_effects v t) = volume t /\ pan (set_effects v t) = pan t /\
  isMuted (set_effects v t) = isMuted t /\
  isSoloed (set_effects v t) = isSoloed t /\
  clips (set_effects v t) = clips t.
Proof. repeat split; reflexivity. Qed.

Lemma newEffectOf_inv type newId : effect_inv (newEffectOf type newId).
Proof.
  destruct type; unfold effect_inv, in_range; simpl; repeat split; lra.
Qed.

Lemma filter_effect_absent key (es : list Effect) :
  key ∉ map effect_id es -> filter (fun e => effect_id e <> key) es = es.
Proof.
  intros Hn. apply filter_all, Forall_forall. intros e He E. apply Hn.
  rewrite <- E. apply list_elem_of_fmap. eauto.
Qed.

(** X17. Adding an effect appends one effect with the new id and the default
    parameters of its type (an equaliser at 1000 Hz with gain 0 and Q 1; a
    compressor with threshold -24, ratio 12, attack 0.003, release 0.25 and
    knee 30), which lie in the ranges of the controls, and changes nothing
    else of the track, so a track that satisfies the track invariant still
    does; removing an effect by id drops every effect
    with that id and keeps the others in order, and keeps the invariant;
    removing an id that is not there changes nothing.  Adding an effect under
    an unused id and removing it again gives back the track. *)
Theorem add_then_remove_effect (type : EffectType) (newId : string)
    (track : Track) :
  (newId ∉ map effect_id (effects track)) ->
  let added := handleAddEffect type newId track in
  (exists e,
     effects added = effects track ++ [e] /\
     effect_id e = newId /\
     effect_kind e =
       match type with
       | EQType => EQ {| frequency := 1000; gain := 0; q := 1 |}
       | CompressorType =>
           Compressor {| threshold := -24; ratio := 12; attack := 3 # 1000;
                         release := 25 # 100; knee := 30 |}
       end /\
     effect_inv e) /\
  id added = id track /\ name added = name track /\
  trackType added = trackType track /\ volume added = volume track /\
  pan added = pan track /\ isMuted added = isMuted track /\
  isSoloed added = isSoloed track /\ clips added = clips track /\
  (track_inv track -> track_inv added) /\
  (NoDup (map effect_id (effects track)) ->
   NoDup (map effect_id (effects added))) /\
  handleRemoveEffect newId added = track /\
  handleRemoveEffect newId track = track /\
  (forall effectId,
     let removed := handleRemoveEffect effectId track in
     (forall e, e ∈ effects removed <->
                e ∈ effects track /\ effect_id e <> effectId) /\
     sublist (effects removed) (effects track) /\
     (track_inv track -> track_inv removed)).
Proof.
  intros Hfresh added.
  split.
  { exists (newEffectOf type newId). split; [reflexivity|].
    split; [destruct type; reflexivity|].
    split; [destruct type; reflexivity|]. apply newEffectOf_inv. }
  do 8 (split; [reflexivity|]).
  split.
  { intros (Hv & Hp & He). split; [exact Hv|]. split; [exact Hp|].
    simpl. apply Forall_app. split; [exact He|].
    constructor; [apply newEffectOf_inv | constructor]. }
  split.
  { intros Hnd. simpl. rewrite map_app. simpl.
    apply NoDup_app. split; [exact Hnd|]. split; [|apply NoDup_singleton].
    intros x Hx Hx'. apply list_elem_of_singleton in Hx'. subst x.
    apply Hfresh. destruct type; exact Hx. }
  split.
  { unfold handleRemoveEffect, added, handleAddEffect. simpl.
    rewrite filter_app, filter_effect_absent by exact Hfresh.
    rewrite filter_cons_False, filter_nil, app_nil_r.
    - destruct track; reflexivity.
    - intros H. apply H. destruct type; reflexivity. }
  split.
  { unfold handleRemoveEffect. rewrite filter_effect_absent by exact Hfresh.
    destruct track; reflexivity. }
  intros effectId removed. split; [|split].
  - intros e. subst removed. simpl. rewrite list_elem_of_filter. tauto.
  - apply sublist_filter.
  - intros (Hv & Hp & He). split; [exact Hv|]. split; [exact Hp|].
    simpl. apply (Forall_of_sublist _ _ _ (sublist_filter _ _) He).
Qed.

Lemma add_then_remove_effect_witness :
  handleRemoveEffect "fx-3" (handleAddEffect EQType "fx-3" effects_track)
  = effects_track.
Proof.
  assert (H : "fx-3"%string ∉ map effect_id (effects effects_track)).
  { apply (bool_decide_unpack _). vm_compute. reflexivity. }
  pose proof (add_then_remove_effect EQType "fx-3" effects_track H) as T.
  cbv zeta in T.
  destruct T as (_ & _ & _ & _ & _ & _ & _ & _ & _ & _ & _ & Hround & _).
  exact Hround.
Defined.

(** *** Reordering by drag and drop *)

Lemma splice_out_middle {A} (pre post : list A) (x : A) :
  splice_out (length pre) (pre ++ x :: post) = pre ++ post.
Proof.
  unfold splice_out. rewrite take_app_length.
  replace (S (length pre)) with (length (pre ++ [x]))
    by (rewrite length_app; simpl; lia).
  rewrite (cons_middle x pre post), app_assoc, drop_app_length. reflexivity.
Qed.

Lemma splice_in_perm {A} (i : nat) (x : A) (l : list A) :
  splice_in i x l ≡ₚ x :: l.
Proof.
  unfold splice_in. rewrite <- (take_drop i l) at 3. solve_Permutation.
Qed.

Lemma splice_in_lookup {A} (i : nat) (x : A) (l : list A) :
  splice_in i x l !! (i `min` length l)%nat = Some x.
Proof.
  unfold splice_in.
  replace (i `min` length l)%nat with (length (take i l))
    by (rewrite length_take; reflexivity).
  apply list_lookup_middle. reflexivity.
Qed.

(** X18. Dropping the dragged effect on gap [dropIndex] (gap [i] lies above the
    effect at index [i], the last gap below the last effect).  Nothing is
    handed on when no effect is being dragged, when no effect carries the
    dragged id, or when the gap is the one directly above the dragged
    effect.  Otherwise the new list is a permutation of the old one: the
    dragged effect is taken out, the others keep their order, and it is put
    back at index [dropIndex] of the shortened list (at its end for the last
    gap).  So a drop on a gap above the effect puts it just above the effect
    that was at that index, and a drop on the gap directly below it swaps it
    with the effect that followed.  No other field of the track changes. *)
Theorem drop_reorders_effects (dragged : string) (dropIndex : nat)
    (track : Track) :
  handleDrop None dropIndex track = None /\
  ((dragged ∉ map effect_id (effects track)) ->
   handleDrop (Some dragged) dropIndex track = None) /\
  (forall pre e post,
     effects track = pre ++ e :: post -> effect_id e = dragged ->
     Forall (fun x => effect_id x <> dragged) pre ->
     (dropIndex = length pre ->
      handleDrop (Some dragged) dropIndex track = None) /\
     (dropIndex <> length pre ->
      exists track',
        handleDrop (Some dragged) dropIndex track = Some track' /\
        track' = set_effects (effects track') track /\
        effects track'
        = take dropIndex (pre ++ post) ++ e :: drop dropIndex (pre ++ post) /\
        effects track' ≡ₚ effects track /\
        effects track' !! (dropIndex `min` length (pre ++ post))%nat
        = Some e /\
        ((dropIndex < length pre)%nat ->
         effects track'
         = take dropIndex pre ++ e :: drop dropIndex pre ++ post) /\
        (forall next post',
           post = next :: post' -> dropIndex = S (length pre) ->
           effects track' = pre ++ next :: e :: post'))).
Proof.
  split; [reflexivity|]. split.
  - intros Hn. unfold handleDrop.
    destruct (list_find _ (effects track)) as [[i x]|] eqn:Hf; [|reflexivity].
    apply list_find_Some in Hf. destruct Hf as (Hi & Hx & _).
    exfalso. apply Hn. rewrite <- Hx. apply list_elem_of_fmap. exists x.
    split; [reflexivity|]. apply list_elem_of_lookup. eauto.
  - intros pre e post Hes Hid Hpre.
    assert (Hf : list_find (fun x => effect_id x = dragged) (effects track)
                 = Some (length pre, e)).
    { rewrite Hes. apply list_find_middle; assumption. }
    split.
    + intros ->. unfold handleDrop. rewrite Hf.
      rewrite decide_True by reflexivity. reflexivity.
    + intros Hne. unfold handleDrop. rewrite Hf.
      rewrite decide_False by congruence.
      eexists. split; [reflexivity|]. simpl effects.
      rewrite Hes, splice_out_middle.
      split; [reflexivity|]. split; [reflexivity|]. split.
      { rewrite splice_in_perm. solve_Permutation. }
      split; [apply splice_in_lookup|]. split.
      * intros Hlt. unfold splice_in.
        rewrite take_app_le, drop_app_le by lia. reflexivity.
      * intros next post' -> ->. unfold splice_in.
        replace (S (length pre)) with (length (pre ++ [next]))
          by (rewrite length_app; simpl; lia).
        rewrite (cons_middle next pre post'), app_assoc.
        rewrite take_app_length, drop_app_length.
        rewrite <- app_assoc. reflexivity.
Qed.

(** *** Turning a knob of an effect *)










(** ** Metering *)

Lemma onMeterMessage_cases level rms :
  (rms == 0 /\ onMeterMessage level rms = level) \/
  (~ rms == 0 /\ onMeterMessage level rms = meterUpdate rms level).
Proof.
  unfold onMeterMessage, Js.eq.
  destruct (Qeq_bool rms 0) eqn:E.
  - left. split; [apply Qeq_bool_eq; exact E | reflexivity].
  - right. split; [apply Qeq_bool_neq; exact E | reflexivity].
Qed.

Lemma meterUpdate_bounds rms prev :
  rms <= meterUpdate rms prev /\ prev * (9 # 10) <= meterUpdate rms prev /\
  (meterUpdate rms prev = rms \/ meterUpdate rms prev = prev * (9 # 10)).
Proof.
  unfold meterUpdate.
  destruct (js_Math_max_spec rms (prev * (9 # 10))) as [[? E]|[? E]];
    rewrite E; repeat split; auto; lra.
Qed.

Lemma meterAfter_silence (messages : list Q) (level : Q) :
  Forall (fun rms => rms == 0) messages -> meterAfter messages level = level.
Proof.
  unfold meterAfter. induction 1 as [|rms ms Hz _ IH]; simpl; [reflexivity|].
  destruct (onMeterMessage_cases level rms) as [[_ E]|[Hn _]];
    [|contradiction].
  rewrite E. exact IH.
Qed.

(** X20. The meter level over a run of messages from the processor, each an RMS
    value that is not negative, starting from a level that is not negative:
    the level is never negative, never above the larger of the starting level
    and the loudest message, and right after a non-zero message at least that
    message.  Between messages it only falls by the factor 0.9 per non-zero
    message; a message with RMS exactly 0 is dropped and leaves the level
    where it was, so silence alone never brings the meter down. *)
Theorem meter_level_follows_messages (messages : list Q) (level peak : Q) :
  0 <= level -> level <= peak -> Forall (fun rms => 0 <= rms <= peak) messages ->
  let level' := meterAfter messages level in
  0 <= level' /\ level' <= peak /\
  (forall rms, 0 <= rms ->
     let next := onMeterMessage level' rms in
     rms <= next /\ level' * (9 # 10) <= next /\ next <= Qmax level' rms /\
     (rms == 0 -> next = level')) /\
  (Forall (fun rms => rms == 0) messages -> level' = level).
Proof.
  intros Hlevel Hpeak Hall level'.
  assert (Hinv : 0 <= level' /\ level' <= peak).
  { subst level'. unfold meterAfter. revert level Hlevel Hpeak.
    induction Hall as [|rms ms [Hr0 Hrp] _ IH]; intros level Hlevel Hpeak;
      simpl; [split; assumption|].
    apply IH.
    - destruct (onMeterMessage_cases level rms) as [[_ E]|[_ E]]; rewrite E;
        [exact Hlevel|].
      destruct (meterUpdate_bounds rms level) as (H1 & _). lra.
    - destruct (onMeterMessage_cases level rms) as [[_ E]|[_ E]]; rewrite E;
        [exact Hpeak|].
      destruct (meterUpdate_bounds rms level) as (_ & _ & [E'|E']);
        rewrite E'; lra. }
  destruct Hinv as [H0 Hp]. split; [exact H0|]. split; [exact Hp|]. split.
  - intros rms Hr next. subst next.
    assert (Hml := Q.le_max_l level' rms).
    assert (Hmr := Q.le_max_r level' rms).
    destruct (onMeterMessage_cases level' rms) as [[Hz E]|[Hz E]]; rewrite E.
    + split; [lra|]. split; [lra|]. split; [lra|]. reflexivity.
    + destruct (meterUpdate_bounds rms level') as (H1 & H2 & HE).
      split; [exact H1|]. split; [exact H2|]. split.
      * destruct HE as [E'|E']; rewrite E'; lra.
      * intros Hz'. contradiction.
  - apply meterAfter_silence.
Qed.

Lemma meter_level_follows_messages_witness :
  0 <= meterAfter [1 # 2; 0; 1 # 4] 0 /\ meterAfter [1 # 2; 0; 1 # 4] 0 <= 1.
Proof.
  assert (H1 : 0 <= 0) by lra. assert (H2 : 0 <= 1) by lra.
  assert (H3 : Forall (fun rms => 0 <= rms <= 1) [1 # 2; 0; 1 # 4]).
  { repeat constructor; simpl; lra. }
  pose proof (meter_level_follows_messages [1 # 2; 0; 1 # 4] 0 1 H1 H2 H3) as T.
  cbv zeta in T. destruct T as (Hlo & Hhi & _).
  split; [exact Hlo | exact Hhi].
Defined.

(** *** The meter processor *)

Lemma framesOf_nonneg input : 0 <= framesOf input.
Proof.
  destruct input as [|samples rest]; simpl; [lra|].
  change 0 with (inject_Z 0). rewrite <- Zle_Qle. lia.
Qed.

Lemma process_step Math_sqrt sampleRate input p :
  let F := intervalInFrames sampleRate p in
  0 < F -> 0 <= _nextUpdateFrame p -> _nextUpdateFrame p <= F ->
  framesOf input <= F ->
  let p' := (process Math_sqrt sampleRate input p).1 in
  let message := (process Math_sqrt sampleRate input p).2 in
  _updateIntervalInMS p' = _updateIntervalInMS p /\
  0 <= _nextUpdateFrame p' /\ _nextUpdateFrame p' <= F /\
  _nextUpdateFrame p'
  == _nextUpdateFrame p - framesOf input
     + (match message with Some _ => 1 | None => 0 end) * F /\
  (forall rms, message = Some rms ->
     exists samples rest,
       input = samples :: rest /\
       rms = Math_sqrt (sumOfSquares samples
                        / inject_Z (Z.of_nat (length samples)))).
Proof.
  intros F HF H0 HF' Hn p' message. subst p' message.
  pose proof (framesOf_nonneg input) as Hn0.
  unfold process. destruct input as [|samples rest].
  - simpl in *. split; [reflexivity|]. split; [exact H0|].
    split; [exact HF'|]. split; [ring|]. intros rms H. discriminate.
  - cbv zeta. fold F.
    change (framesOf (samples :: rest))
      with (inject_Z (Z.of_nat (length samples))) in *.
    destruct (Js.gt 0 (_nextUpdateFrame p
                       - inject_Z (Z.of_nat (length samples))))
      eqn:E; simpl fst; simpl snd; cbn [_updateIntervalInMS _nextUpdateFrame].
    + apply js_gt_true in E. split; [reflexivity|].
      split; [lra|]. split; [lra|]. split; [ring|].
      intros rms [= <-]. exists samples, rest. split; reflexivity.
    + apply js_gt_false in E. split; [reflexivity|].
      split; [lra|]. split; [lra|]. split; [ring|].
      intros rms H. discriminate.
Qed.

(** X21. The processor posts one message per update interval.  For an interval of
    [F > 0] frames, a counter that starts in [[0, F]] (as it does after
    construction when the sample rate is at least 1000 Hz) and render quanta
    of at most [F] frames each: the counter stays in [[0, F]]; after any run
    of quanta it equals its start value minus the frames processed plus [F]
    times the number of messages posted, so that number is within one of
    (frames processed - start value) / F; the update interval is not
    changed; and every message carries [Math.sqrt] of the mean square of the
    first channel of some quantum of the run. *)
Theorem meter_processor_posts_once_per_interval
    (Math_sqrt : Q -> Q) (sampleRate : Q)
    (blocks : list (list (list Q))) (p : VolumeMeterProcessor) :
  0 < intervalInFrames sampleRate p ->
  0 <= _nextUpdateFrame p ->
  _nextUpdateFrame p <= intervalInFrames sampleRate p ->
  Forall (fun input => framesOf input <= intervalInFrames sampleRate p)
    blocks ->
  let F := intervalInFrames sampleRate p in
  let p' := (processAll Math_sqrt sampleRate blocks p).1 in
  let messages := (processAll Math_sqrt sampleRate blocks p).2 in
  let m := inject_Z (Z.of_nat (length messages)) in
  _updateIntervalInMS p' = _updateIntervalInMS p /\
  0 <= _nextUpdateFrame p' /\ _nextUpdateFrame p' <= F /\
  _nextUpdateFrame p' == _nextUpdateFrame p - totalFrames blocks + m * F /\
  (totalFrames blocks - _nextUpdateFrame p) / F <= m /\
  m <= (totalFrames blocks - _nextUpdateFrame p) / F + 1 /\
  Forall (fun rms =>
            exists samples rest,
              (samples :: rest) ∈ blocks /\
              rms = Math_sqrt (sumOfSquares samples
                               / inject_Z (Z.of_nat (length samples))))
    messages.
Proof.
  intros HF H0 HF' Hall F p' messages m. subst p' messages m.
  change (0 < F) in HF. change (_nextUpdateFrame p <= F) in HF'.
  assert (Hmain :
    _updateIntervalInMS (processAll Math_sqrt sampleRate blocks p).1
    = _updateIntervalInMS p /\
    0 <= _nextUpdateFrame (processAll Math_sqrt sampleRate blocks p).1 /\
    _nextUpdateFrame (processAll Math_sqrt sampleRate blocks p).1 <= F /\
    _nextUpdateFrame (processAll Math_sqrt sampleRate blocks p).1
    == _nextUpdateFrame p - totalFrames blocks
       + inject_Z (Z.of_nat
                     (length (processAll Math_sqrt sampleRate blocks p).2))
         * F /\
    Forall (fun rms =>
              exists samples rest,
                (samples :: rest) ∈ blocks /\
                rms = Math_sqrt (sumOfSquares samples
                                 / inject_Z (Z.of_nat (length samples))))
      (processAll Math_sqrt sampleRate blocks p).2).
  { subst F. revert p HF H0 HF' Hall.
    induction blocks as [|input rest IH]; intros p HF H0 HF' Hall.
    - simpl. split; [reflexivity|]. split; [exact H0|]. split; [exact HF'|].
      split; [ring | constructor].
    - apply Forall_cons in Hall. destruct Hall as [Hin Hall].
      pose proof (process_step Math_sqrt sampleRate input p HF H0 HF' Hin)
        as Hstep.
      cbv zeta in Hstep. simpl processAll.
      destruct (process Math_sqrt sampleRate input p) as [p1 message].
      simpl fst in Hstep. simpl snd in Hstep.
      destruct Hstep as (Hi & H10 & H1F & Hc & Hmsg).
      assert (HFeq : intervalInFrames sampleRate p1
                     = intervalInFrames sampleRate p).
      { unfold intervalInFrames. rewrite Hi. reflexivity. }
      specialize (IH p1). rewrite HFeq in IH.
      specialize (IH HF H10 H1F Hall).
      destruct (processAll Math_sqrt sampleRate rest p1) as [p2 messages].
      simpl fst in IH |- *. simpl snd in IH |- *.
      destruct IH as (Hi2 & H20 & H2F & Hc2 & Hmsgs).
      split; [congruence|]. split; [exact H20|]. split; [exact H2F|].
      assert (Hrest : Forall (fun rms =>
                exists samples rest0,
                  (samples :: rest0) ∈ input :: rest /\
                  rms = Math_sqrt (sumOfSquares samples
                                   / inject_Z (Z.of_nat (length samples))))
                messages).
      { eapply Forall_impl; [exact Hmsgs|].
        intros rms (samples & rest0 & Hin' & E).
        exists samples, rest0. split; [right; exact Hin' | exact E]. }
      destruct message as [rms|].
      + split.
        * rewrite Hc2, Hc. simpl totalFrames. simpl length.
          rewrite Nat2Z.inj_succ, <- Z.add_1_r, inject_Z_plus.
          change (inject_Z 1) with 1. ring.
        * constructor; [|exact Hrest].
          destruct (Hmsg rms eq_refl) as (samples & rest0 & -> & E).
          exists samples, rest0. split; [left | exact E].
      + split; [|exact Hrest].
        rewrite Hc2, Hc. simpl totalFrames. ring. }
  destruct Hmain as (Hi & H10 & H1F & Hc & Hmsgs).
  split; [exact Hi|]. split; [exact H10|]. split; [exact H1F|].
  split; [exact Hc|].
  set (m := inject_Z (Z.of_nat
                        (length (processAll Math_sqrt sampleRate blocks p).2)))
    in *.
  set (c' := _nextUpdateFrame (processAll Math_sqrt sampleRate blocks p).1)
    in *.
  split; [|split; [|exact Hmsgs]].
  - apply Qle_shift_div_r; [exact HF|]. lra.
  - assert (E : (totalFrames blocks - _nextUpdateFrame p) / F + 1
                == (totalFrames blocks - _nextUpdateFrame p + F) / F)
      by (field; lra).
    rewrite E. apply Qle_shift_div_l; [exact HF|]. lra.
Qed.

Lemma meter_processor_posts_once_per_interval_witness :
  0 < intervalInFrames 48000 (newVolumeMeterProcessor None) /\
  0 <= _nextUpdateFrame
         (processAll (fun x => x) 48000 example_blocks
            (newVolumeMeterProcessor None)).1.
Proof.
  assert (HF : 0 < intervalInFrames 48000 (newVolumeMeterProcessor None))
    by (vm_compute; reflexivity).
  assert (H0 : 0 <= _nextUpdateFrame (newVolumeMeterProcessor None))
    by (vm_compute; discriminate).
  assert (H1 : _nextUpdateFrame (newVolumeMeterProcessor None)
               <= intervalInFrames 48000 (newVolumeMeterProcessor None))
    by (vm_compute; discriminate).
  assert (H2 : Forall (fun input =>
                         framesOf input
                         <= intervalInFrames 48000
                              (newVolumeMeterProcessor None))
                 example_blocks).
  { repeat (constructor; [vm_compute; discriminate|]). constructor. }
  pose proof (meter_processor_posts_once_per_interval (fun x => x) 48000
                example_blocks (newVolumeMeterProcessor None) HF H0 H1 H2)
    as T.
  cbv zeta in T. destruct T as (_ & Hge & _).
  split; [exact HF | exact Hge].
Defined.

(** ** A clip gesture from press to release *)









(** ** Snapping *)

(** X23. With snapping on, the pointer time used by a drag frame is a whole
    number of beats (half seconds at 120 BPM), the one nearest to the raw
    pointer time [pointerX / pixelsPerSecond], ties going to the later beat;
    snapping a time that is on the grid gives it back.  With snapping off it
    is the raw pointer time. *)
Theorem snapped_pointer_time_on_beat_grid (pointerX : Q) (st : Daw) :
  let raw := pointerX / pixelsPerSecond st in
  let t := pointerTimeOf st pointerX in
  (isSnapping st = false -> t = raw) /\
  (isSnapping st = true ->
   (exists beats : Z, t = inject_Z beats * SECONDS_PER_BEAT) /\
   raw - SECONDS_PER_BEAT / 2 < t /\ t <= raw + SECONDS_PER_BEAT / 2 /\
   (forall beats : Z, raw == inject_Z beats * SECONDS_PER_BEAT -> t == raw)).
Proof.
  intros raw t. subst t. unfold pointerTimeOf. fold raw. cbv zeta. split.
  - intros ->. reflexivity.
  - intros ->.
    assert (Hb : SECONDS_PER_BEAT == 1 # 2) by reflexivity.
    split; [eexists; reflexivity|].
    destruct (js_Math_round_bounds (raw / SECONDS_PER_BEAT)) as [H1 H2].
    assert (E : raw / SECONDS_PER_BEAT == raw * 2).
    { rewrite Hb. field. }
    assert (Hnear : raw - SECONDS_PER_BEAT / 2
                    < inject_Z (Js.Math_round (raw / SECONDS_PER_BEAT))
                      * SECONDS_PER_BEAT /\
                    inject_Z (Js.Math_round (raw / SECONDS_PER_BEAT))
                    * SECONDS_PER_BEAT <= raw + SECONDS_PER_BEAT / 2).
    { generalize dependent (inject_Z (Js.Math_round (raw / SECONDS_PER_BEAT))).
      generalize dependent (raw / SECONDS_PER_BEAT).
      clearbody raw. intros d E z H1 H2. rewrite Hb.
      assert (Hq : (1 # 2) / 2 == 1 # 4) by reflexivity.
      rewrite Hq. split; lra. }
    split; [apply Hnear|]. split; [apply Hnear|].
    intros beats Hk.
    assert (Ek : raw / SECONDS_PER_BEAT == inject_Z beats).
    { rewrite E, Hk, Hb. field. }
    assert (Er : Js.Math_round (raw / SECONDS_PER_BEAT) = beats).
    { unfold Js.Math_round. rewrite Ek. apply js_Math_round_integer. }
    rewrite Er, Hk. reflexivity.
Qed.

(** ** The waveform *)






(** ** Splitting twice at the same playhead *)

Lemma find_isSelected_app (pre l : list AudioClip) :
  List.find isSelected (pre ++ l)
  = match List.find isSelected pre with
    | Some x => Some x
    | None => List.find isSelected l
    end.
Proof.
  induction pre as [|x pre IH]; simpl; [reflexivity|].
  destruct (isSelected x); [reflexivity | exact IH].
Qed.

(** Where the selected clip stands, from the distinctness of the ids alone. *)
Lemma selected_clip_position_ids (st : Daw) (c : AudioClip) (tid : Z) :
  NoDup (map id (tracks (projectState st))) ->
  NoDup (map clipId (allClips (tracks (projectState st)))) ->
  getSelectedClip st = Some (c, tid) ->
  exists before track after pre post,
    tracks (projectState st) = before ++ track :: after /\
    id track = tid /\ Forall (fun t => id t <> tid) before /\
    clips track = pre ++ c :: post /\
    Forall (fun z => clipId z <> clipId c) pre /\ isSelected c = true.
Proof.
  intros Hids Hcids Hsel.
  destruct (proj2 (getSelectedClip_spec st) c tid Hsel)
    as (Hs & before & track & after & Hts & Hid & Hc & _).
  apply list_elem_of_split in Hc. destruct Hc as (pre & post & Hcs).
  exists before, track, after, pre, post.
  rewrite Hts in Hids, Hcids.
  split; [exact Hts|]. split; [exact Hid|]. split.
  { rewrite <- Hid. apply (NoDup_fmap_before id before after track Hids). }
  split; [exact Hcs|]. split; [|exact Hs].
  rewrite allClips_app, allClips_cons, Hcs, !map_app in Hcids.
  apply NoDup_app in Hcids. destruct Hcids as (_ & _ & Hcids).
  apply NoDup_app in Hcids. destruct Hcids as (Hcids & _ & _).
  rewrite <- map_app in Hcids.
  apply (NoDup_fmap_before clipId pre post c Hcids).
Qed.

(** An accepted split, in a project whose track ids and clip ids are
    pairwise distinct: the two halves stand where the clip stood, the first
    half is the selected clip afterwards, the playhead has not moved and the
    track ids are the same. *)
Lemma handleSplit_accepted (newId : string) (st : Daw) (c : AudioClip)
    (tid : Z) :
  NoDup (map id (tracks (projectState st))) ->
  NoDup (map clipId (allClips (tracks (projectState st)))) ->
  getSelectedClip st = Some (c, tid) ->
  startTime c < playheadPosition st ->
  playheadPosition st < Js.add (startTime c) (duration c) ->
  let c1 := splitFirst c (playheadPosition st) in
  let c2 := splitSecond newId c (playheadPosition st) in
  let st' := handleSplit newId st in
  (exists before track after pre post,
     tracks (projectState st) = before ++ track :: after /\
     id track = tid /\ clips track = pre ++ c :: post /\
     tracks (projectState st')
     = before ++ set_clips (pre ++ [c1; c2] ++ post) track :: after) /\
  getSelectedClip st' = Some (c1, tid) /\
  playheadPosition st' = playheadPosition st /\
  persisted st' = Some (projectState st') /\
  map id (tracks (projectState st')) = map id (tracks (projectState st)) /\
  (newId ∉ map clipId (allClips (tracks (projectState st))) ->
   NoDup (map clipId (allClips (tracks (projectState st'))))).
Proof.
  intros Hids Hcids Hsel Hlo Hhi c1 c2 st'.
  destruct (selected_clip_position_ids st c tid Hids Hcids Hsel)
    as (before & track & after & pre & post & Hts & Hid & Hb & Hcs & Hpre & Hs).
  assert (Hc_in : c ∈ clips track).
  { rewrite Hcs. apply elem_of_app. right. left. }
  pose proof Hcids as Hcids0. rewrite Hts in Hcids0.
  destruct (clipId_only_in_its_track before after track c Hcids0 Hc_in)
    as [Hnb Hna].
  assert (Hguard : Js.le (playheadPosition st) (startTime c)
                   || Js.ge (playheadPosition st)
                        (Js.add (startTime c) (duration c)) = false).
  { apply orb_false_iff.
    split; [apply js_le_false | apply js_ge_false]; lra. }
  assert (Hnew : tracks (projectState st')
                 = before ++ set_clips (pre ++ [c1; c2] ++ post) track
                   :: after).
  { subst st'. unfold handleSplit. rewrite Hsel, Hguard.
    fold c1. fold c2. simpl. rewrite Hts, map_app. simpl.
    rewrite !splitInTrack_other by assumption.
    unfold splitInTrack. rewrite decide_True by exact Hid.
    rewrite Hcs, (list_find_middle _ pre post c Hpre eq_refl).
    unfold splice1. rewrite take_app_length.
    rewrite drop_app_ge by lia.
    replace (S (length pre) - length pre)%nat with 1%nat by lia.
    reflexivity. }
  split.
  { exists before, track, after, pre, post. auto. }
  split.
  { unfold getSelectedClip in Hsel |- *. rewrite Hnew. rewrite Hts in Hsel.
    clear - Hsel Hcs Hpre Hs Hid Hb.
    induction before as [|b before IH]; simpl in *.
    - rewrite Hcs in Hsel.
      rewrite find_isSelected_app in Hsel |- *.
      destruct (List.find isSelected pre) as [x|] eqn:Hf.
      + injection Hsel as -> _. apply List.find_some in Hf.
        destruct Hf as [Hin _]. rewrite Forall_forall in Hpre.
        exfalso. apply (Hpre c); [apply list_elem_of_In; exact Hin|reflexivity].
      + simpl. rewrite Hid. reflexivity.
    - apply Forall_cons in Hb. destruct Hb as [Hne Hb].
      destruct (List.find isSelected (clips b)) as [x|].
      + injection Hsel as _ E. contradiction.
      + apply IH; assumption. }
  split.
  { subst st'. unfold handleSplit. rewrite Hsel, Hguard. reflexivity. }
  split.
  { subst st'. unfold handleSplit. rewrite Hsel, Hguard. reflexivity. }
  split.
  { rewrite Hnew, Hts, !map_app. reflexivity. }
  intros Hfresh. rewrite Hnew, allClips_app, allClips_cons.
  rewrite Hts, allClips_app, allClips_cons, Hcs in Hcids, Hfresh.
  apply (NoDup_Permutation_proper _
           (newId :: map clipId
                       (allClips before ++ (pre ++ c :: post)
                        ++ allClips after))).
  - rewrite !map_app. simpl. rewrite !map_app. simpl. solve_Permutation.
  - apply NoDup_cons. split; assumption.
Qed.

(** X25. Pressing split twice without moving the playhead can make a clip of
    length zero.  In a project that satisfies the invariants of the data
    model, let the selected clip [c] be split at the playhead [t], and let
    the first half, which lasts [d = t (-) startTime c], end after [t] in
    the arithmetic of the code: [t < startTime c (+) d].  Then the first
    half is the selected clip after the split, a second split at the same
    playhead is accepted, and the clip it adds starts at [t] and has
    duration 0; the project it publishes and saves no longer satisfies
    the invariant [duration > 0], whatever the tolerance. *)
Theorem split_again_makes_empty_clip
    (eps : Q) (id1 id2 : string) (st : Daw) (c : AudioClip) (tid : Z) :
  project_inv eps (projectState st) ->
  getSelectedClip st = Some (c, tid) ->
  id1 ∉ map clipId (allClips (tracks (projectState st))) ->
  startTime c < playheadPosition st ->
  playheadPosition st < Js.add (startTime c) (duration c) ->
  playheadPosition st
  < Js.add (startTime c) (Js.sub (playheadPosition st) (startTime c)) ->
  let t := playheadPosition st in
  let st1 := handleSplit id1 st in
  let st2 := handleSplit id2 st1 in
  let empty := splitSecond id2 (splitFirst c t) t in
  getSelectedClip st1 = Some (splitFirst c t, tid) /\
  playheadPosition st1 = t /\
  (exists track,
     track ∈ tracks (projectState st2) /\ id track = tid /\
     empty ∈ clips track) /\
  clipId empty = id2 /\ startTime empty = t /\ duration empty == 0 /\
  persisted st2 = Some (projectState st2) /\
  (forall eps', ~ project_inv eps' (projectState st2)).
Proof.
  intros Hinv Hsel Hfresh Hlo Hhi Hends t st1 st2 empty.
  pose proof Hinv as [Hids _ Hcids _ _ _].
  destruct (handleSplit_accepted id1 st c tid Hids Hcids Hsel Hlo Hhi)
    as (_ & Hsel1 & Ht1 & _ & Hids1 & Hcids1).
  fold st1 in Hsel1, Ht1, Hids1, Hcids1. fold t in Hsel1, Ht1.
  specialize (Hcids1 Hfresh).
  assert (Hlo1 : startTime (splitFirst c t) < playheadPosition st1).
  { rewrite Ht1. exact Hlo. }
  assert (Hhi1 : playheadPosition st1
                 < Js.add (startTime (splitFirst c t))
                     (duration (splitFirst c t))).
  { rewrite Ht1. exact Hends. }
  rewrite <- Hids1 in Hids.
  destruct (handleSplit_accepted id2 st1 (splitFirst c t) tid Hids Hcids1
              Hsel1 Hlo1 Hhi1)
    as ((before & track & after & pre & post & _ & Hid & _ & Hnew)
        & _ & _ & Hsaved & _).
  fold st2 in Hnew, Hsaved. rewrite Ht1 in Hnew. fold empty in Hnew.
  assert (Hzero : duration empty == 0).
  { apply js_round64_0. simpl. ring. }
  assert (Hin : empty ∈ allClips (tracks (projectState st2))).
  { rewrite Hnew, allClips_app, allClips_cons. simpl.
    apply elem_of_app. right. apply elem_of_app. left.
    apply elem_of_app. right. right. left. }
  split; [exact Hsel1|]. split; [exact Ht1|]. split.
  { exists (set_clips (pre ++ [splitFirst (splitFirst c t) t; empty] ++ post)
              track).
    split; [rewrite Hnew; apply elem_of_app; right; left|].
    split; [exact Hid|]. simpl.
    apply elem_of_app. right. right. left. }
  split; [reflexivity|]. split; [reflexivity|]. split; [exact Hzero|].
  split; [exact Hsaved|].
  intros eps' [_ _ _ Hclips _ _].
  rewrite Forall_forall in Hclips.
  destruct (Hclips empty Hin) as (_ & _ & Hpos & _). lra.
Qed.

Lemma rounding_project_inv :
  project_inv (1 # 1000) (projectState rounding_daw).
Proof.
  split.
  - apply (bool_decide_unpack _). vm_compute. reflexivity.
  - constructor; [|constructor].
    unfold track_inv, mix_inv, in_range. simpl.
    repeat split; try lra. constructor.
  - apply (bool_decide_unpack _). vm_compute. reflexivity.
  - constructor; [|constructor].
    unfold clip_wf, clip_inv.
    split; [vm_compute; discriminate|]. split; [vm_compute; discriminate|].
    split; [vm_compute; reflexivity|vm_compute; discriminate].
  - apply le_n.
  - exact I.
Qed.

Lemma split_again_makes_empty_clip_witness :
  project_inv (1 # 1000) (projectState rounding_daw) /\
  duration (splitSecond "clip-c"
              (splitFirst rounding_clip (playheadPosition rounding_daw))
              (playheadPosition rounding_daw)) == 0 /\
  ~ project_inv (1 # 1000)
      (projectState (handleSplit "clip-c" (handleSplit "clip-b" rounding_daw))).
Proof.
  assert (H1 : getSelectedClip rounding_daw = Some (rounding_clip, 1%Z))
    by reflexivity.
  assert (H2 : "clip-b"%string
               ∉ map clipId (allClips (tracks (projectState rounding_daw)))).
  { apply (bool_decide_unpack _). vm_compute. reflexivity. }
  assert (H3 : startTime rounding_clip < playheadPosition rounding_daw)
    by (vm_compute; reflexivity).
  assert (H4 : playheadPosition rounding_daw
               < Js.add (startTime rounding_clip) (duration rounding_clip))
    by (vm_compute; reflexivity).
  assert (H5 : playheadPosition rounding_daw
               < Js.add (startTime rounding_clip)
                   (Js.sub (playheadPosition rounding_daw)
                      (startTime rounding_clip)))
    by (vm_compute; reflexivity).
  pose proof (split_again_makes_empty_clip (1 # 1000) "clip-b" "clip-c"
                rounding_daw rounding_clip 1 rounding_project_inv H1 H2 H3
                H4 H5) as T.
  cbv zeta in T. destruct T as (_ & _ & _ & _ & _ & T6 & _ & T8).
  split; [exact rounding_project_inv|]. split; [exact T6|]. apply T8.
Defined.

(** ** Export and playback from the start *)

Lemma Forall2_flat_map {A B C} (R : B -> C -> Prop) (f : A -> list B)
    (g : A -> list C) (l : list A) :
  (forall x, x ∈ l -> Forall2 R (f x) (g x)) ->
  Forall2 R (flat_map f l) (flat_map g l).
Proof.
  induction l as [|x l IH]; intros H; simpl; [constructor|].
  apply Forall2_app.
  - apply H. left.
  - apply IH. intros y Hy. apply H. right. exact Hy.
Qed.

(** X26. Playing from position 0 and exporting schedule the same sources.  In a
    project whose clips start at times that are not negative and have
    positive durations, the sources that play starts from the pause position
    0 at device time [deviceNow] and the sources that the export hands to the
    offline context correspond one to one, in order: same buffer, same source
    offset, same duration, and the played source starts [deviceNow] later
    than the exported one, which starts at the clip's start time.  The
    exported sources all feed the destination directly. *)
Theorem export_matches_play_from_start
    (sampleRate deviceNow : Q) (st : Daw) (render : OfflineRender) :
  Forall (fun c => 0 <= startTime c /\ 0 < duration c)
    (allClips (tracks (projectState st))) ->
  handleExportAudio sampleRate st = Some render ->
  Forall2
    (fun played exported =>
       source_buffer played.2 = source_buffer exported.1 /\
       source_offset played.2 = source_offset exported.1 /\
       source_duration played.2 = source_duration exported.1 /\
       source_when played.2 == deviceNow + source_when exported.1 /\
       exported.2 = Destination)
    (playProject (runtimeAudioBuffers st) 0 deviceNow (projectState st))
    (render_sources render).
Proof.
  intros Hall Hexp. unfold handleExportAudio in Hexp. cbv zeta in Hexp.
  assert (Hsrc : render_sources render
                 = flat_map
                     (exportTrack (runtimeAudioBuffers st)
                        (existsb isSoloed (tracks (projectState st))))
                     (tracks (projectState st))).
  { destruct (tracks (projectState st)) as [|t0 ts] eqn:Hts; [discriminate|].
    destruct (Js.eq (totalDuration (projectState st)) 0); [discriminate|].
    injection Hexp as <-. reflexivity. }
  rewrite Hsrc. unfold playProject. apply Forall2_flat_map.
  intros track Ht. unfold playTrack, exportTrack, isAnyTrackSoloed.
  destruct (audible _ track); [|constructor].
  apply Forall2_flat_map. intros clip Hc.
  assert (Hclip : 0 <= startTime clip /\ 0 < duration clip).
  { rewrite Forall_forall in Hall. apply Hall. unfold allClips.
    apply list_elem_of_In, in_flat_map. exists track.
    split; apply list_elem_of_In; assumption. }
  destruct Hclip as [Hs Hd].
  unfold playClip, exportClip.
  destruct (runtimeAudioBuffers st !! fileId clip) as [buffer|]; [|constructor].
  unfold scheduleClip. cbv zeta.
  assert (E1 : Js.ge 0 (startTime clip + duration clip) = false)
    by (apply js_ge_false; lra).
  assert (E2 : Js.gt 0 (startTime clip) = false)
    by (apply js_gt_false; lra).
  assert (E3 : Js.le (duration clip) 0 = false)
    by (apply js_le_false; lra).
  rewrite E1, E2, E3. constructor; [|constructor]. simpl.
  split; [reflexivity|]. split; [reflexivity|]. split; [reflexivity|].
  split; [|reflexivity].
  destruct (js_Math_max_spec 0 (startTime clip - 0)) as [[? E]|[? E]];
    rewrite E; lra.
Qed.

Lemma export_matches_play_from_start_witness :
  exists render,
    handleExportAudio 48000 example_daw = Some render /\
    length (render_sources render)
    = length (playProject (runtimeAudioBuffers example_daw) 0 100
                (projectState example_daw)).
Proof.
  assert (Hall : Forall (fun c => 0 <= startTime c /\ 0 < duration c)
                   (allClips (tracks (projectState example_daw)))).
  { constructor; [simpl; split; lra | constructor]. }
  destruct (handleExportAudio 48000 example_daw) as [render|] eqn:Hexp.
  - exists render. split; [reflexivity|]. symmetry.
    apply (Forall2_length _ _ _
             (export_matches_play_from_start 48000 100 example_daw render
                Hall Hexp)).
  - vm_compute in Hexp. discriminate.
Defined.

(** ** Cut, then paste *)

Lemma find_all_false {A} (f : A -> bool) (l : list A) :
  (forall x, x ∈ l -> f x = false) -> List.find f l = None.
Proof.
  induction l as [|x l IH]; intros H; simpl; [reflexivity|].
  rewrite (H x) by left. apply IH. intros y Hy. apply H. right. exact Hy.
Qed.

Lemma pasteTarget_unselected (st : Daw) :
  getSelectedClip st = None ->
  pasteTarget (tracks (projectState st))
  = List.find isAudio (tracks (projectState st)).
Proof.
  intros Hnone. unfold pasteTarget.
  rewrite find_all_false; [reflexivity|].
  intros t Ht. apply andb_false_iff. left.
  destruct (existsb isSelected (clips t)) eqn:E; [|reflexivity].
  apply existsb_exists in E. destruct E as (x & Hx & Hs).
  rewrite (getSelectedClip_None_deselected st Hnone x) in Hs; [discriminate|].
  unfold allClips. apply list_elem_of_In, in_flat_map. exists t.
  split; [apply list_elem_of_In; exact Ht | exact Hx].
Qed.

(** X27. Cut followed by paste, in a project that satisfies the invariants of the
    data model and with an unused id for the pasted clip.  The clipboard
    receives the selected clip and the clip leaves its track.  Since nothing
    is selected after the cut, the paste goes to the first audio track of the
    project, whichever track the clip came from: that track gains, at its
    end, one clip that carries the new id, starts at the playhead, is not
    selected and has the file, name, source offset, duration and source
    duration of the clip that was cut.  The tracks keep their types.
    The project has as many clips as before, none is selected, and the
    invariants hold.  In a project without an audio track the paste does
    nothing, and the clip is gone. *)
Theorem cut_then_paste_moves_clip
    (eps : Q) (newId : string) (st : Daw) (c : AudioClip) (tid : Z) :
  project_inv eps (projectState st) ->
  getSelectedClip st = Some (c, tid) ->
  0 <= playheadPosition st ->
  (newId ∉ map clipId (allClips (tracks (projectState st)))) ->
  let clipboard := (handleCut st).1 in
  let st1 := (handleCut st).2 in
  let st2 := handlePaste clipboard newId st1 in
  clipboard = Some c /\ getSelectedClip st1 = None /\
  (c ∉ allClips (tracks (projectState st1))) /\
  map trackType (tracks (projectState st1))
  = map trackType (tracks (projectState st)) /\
  ((forall t, t ∈ tracks (projectState st) -> trackType t <> audio) ->
   st2 = st1) /\
  ((exists t, t ∈ tracks (projectState st) /\ trackType t = audio) ->
   exists before T after pasted,
     tracks (projectState st1) = before ++ T :: after /\
     trackType T = audio /\
     Forall (fun t => trackType t <> audio) before /\
     tracks (projectState st2)
     = before ++ set_clips (clips T ++ [pasted]) T :: after /\
     clipId pasted = newId /\
     startTime pasted = playheadPosition st /\
     isSelected pasted = false /\
     fileId pasted = fileId c /\
     clip_name pasted = clip_name c /\
     startOffset pasted = startOffset c /\
     duration pasted = duration c /\
     sourceDuration pasted = sourceDuration c /\
     length (allClips (tracks (projectState st2)))
     = length (allClips (tracks (projectState st))) /\
     getSelectedClip st2 = None /\
     project_inv eps (projectState st2)).
Proof.
  intros Hinv Hsel Hplay Hfresh clipboard st1 st2.
  set (pasted := pastedClip newId (playheadPosition st) c).
  assert (Hclip : clipboard = Some c).
  { subst clipboard. unfold handleCut, handleCopy. simpl. rewrite Hsel.
    reflexivity. }
  destruct (delete_selected_spec eps st c tid Hsel Hinv)
    as (before0 & track & after0 & pre & post & Hts & Hid & Hcs & _
        & Hnew & Habsent & Hnone & _ & Hhead & _ & Hinv1).
  change (handleDeleteSelected st) with st1 in Hnew, Hnone, Hhead, Hinv1.
  assert (Hall1 : allClips (tracks (projectState st1))
                  = allClips before0 ++ (pre ++ post) ++ allClips after0).
  { rewrite Hnew, allClips_app, allClips_cons. reflexivity. }
  assert (Hall0 : allClips (tracks (projectState st))
                  = allClips before0 ++ (pre ++ c :: post) ++ allClips after0).
  { rewrite Hts, allClips_app, allClips_cons, Hcs. reflexivity. }
  assert (Hcwf : clip_wf eps c).
  { destruct Hinv as [_ _ _ Hclips _ _]. rewrite Forall_forall in Hclips.
    apply Hclips. rewrite Hall0. apply elem_of_app. right.
    apply elem_of_app. left. apply elem_of_app. right. left. }
  assert (Hfresh1 : newId ∉ map clipId (allClips (tracks (projectState st1)))).
  { intros H. apply Hfresh. rewrite Hall0. rewrite Hall1 in H.
    rewrite !map_app in H |- *. simpl. rewrite !elem_of_app in H |- *.
    rewrite elem_of_cons. tauto. }
  split; [exact Hclip|]. split; [exact Hnone|]. split.
  { rewrite Hall1. intros H. apply Habsent. apply list_elem_of_fmap. eauto. }
  assert (Htarget := pasteTarget_unselected st1 Hnone).
  assert (Htypes : map trackType (tracks (projectState st1))
                   = map trackType (tracks (projectState st))).
  { rewrite Hnew, Hts, !map_app. reflexivity. }
  split; [exact Htypes|].
  split.
  - intros Hno. subst st2. rewrite Hclip. unfold handlePaste.
    rewrite Htarget, find_all_false; [reflexivity|].
    intros t Ht. unfold isAudio. apply bool_decide_eq_false.
    assert (Hin : trackType t ∈ map trackType (tracks (projectState st)))
      by (rewrite <- Htypes; apply list_elem_of_fmap; eauto).
    apply list_elem_of_fmap in Hin. destruct Hin as (t0 & -> & Ht0).
    apply Hno. exact Ht0.
  - intros (t0 & Ht0 & Haudio).
    pose proof (find_isAudio_first (tracks (projectState st1))) as Hfirst.
    destruct (List.find isAudio (tracks (projectState st1))) as [T|] eqn:HT.
    2:{ exfalso.
        assert (Hin : trackType t0
                      ∈ map trackType (tracks (projectState st1)))
          by (rewrite Htypes; apply list_elem_of_fmap; eauto).
        apply list_elem_of_fmap in Hin. destruct Hin as (t1 & E & Ht1).
        rewrite Forall_forall in Hfirst. apply (Hfirst t1 Ht1).
        rewrite <- E. exact Haudio. }
    destruct Hfirst as (before & after & Hts1 & Ha & Hb).
    exists before, T, after, pasted.
    split; [exact Hts1|]. split; [exact Ha|]. split; [exact Hb|].
    assert (Hnew2 : tracks (projectState st2)
                    = before ++ set_clips (clips T ++ [pasted]) T :: after).
    { subst st2. rewrite Hclip. unfold handlePaste.
      rewrite Htarget. simpl. rewrite Hhead. fold pasted.
      destruct Hinv1 as [Hids1 _ _ _ _ _]. rewrite Hts1 in Hids1 |- *.
      apply pasteInTrack_at. exact Hids1. }
    assert (Hp2 : projectState st2
                  = set_tracks
                      (before ++ set_clips (clips T ++ [pasted]) T :: after)
                      (projectState st1)).
    { rewrite <- Hnew2. subst st2. rewrite Hclip. unfold handlePaste.
      rewrite Htarget. reflexivity. }
    assert (Hinv2 : project_inv eps (projectState st2)).
    { rewrite Hp2. apply project_inv_push_clip; auto.
      destruct Hcwf as (_ & Hc1 & Hc2 & Hc3).
      split; [exact Hplay|]. repeat split; assumption. }
    split; [exact Hnew2|].
    do 8 (split; [reflexivity|]).
    split.
    { rewrite Hnew2, allClips_app, allClips_cons. simpl clips.
      rewrite Hall0. rewrite Hts1, allClips_app, allClips_cons in Hall1.
      apply (f_equal (@length AudioClip)) in Hall1.
      rewrite !length_app in Hall1 |- *. simpl. rewrite !length_app. simpl.
      lia. }
    split; [|exact Hinv2].
    apply (proj1 (getSelectedClip_spec st2)).
    apply (proj1 (getSelectedClip_spec st1)) in Hnone.
    unfold selectedCount in Hnone |- *.
    rewrite Hnew2, allClips_app, allClips_cons. simpl clips.
    rewrite Hts1, allClips_app, allClips_cons in Hnone.
    rewrite !List.filter_app in Hnone |- *. unfold pasted. simpl.
    rewrite !length_app in Hnone |- *. rewrite List.filter_app, length_app.
    simpl. lia.
Qed.

Lemma cut_then_paste_moves_clip_witness :
  project_inv (1 # 1000) (projectState example_daw) /\
  (handleCut example_daw).1 = Some example_clip /\
  getSelectedClip (handleCut example_daw).2 = None.
Proof.
  assert (Hp : 0 <= playheadPosition example_daw) by (simpl; lra).
  assert (Hf : "clip-b"%string
               ∉ map clipId (allClips (tracks (projectState example_daw)))).
  { apply (bool_decide_unpack _). vm_compute. reflexivity. }
  pose proof (cut_then_paste_moves_clip (1 # 1000) "clip-b" example_daw
                example_clip 1 example_project_inv eq_refl Hp Hf) as T.
  cbv zeta in T. destruct T as (Hc & Hn & _).
  split; [exact example_project_inv|]. split; [exact Hc | exact Hn].
Defined.

(** ** The selected clip *)

(** X28. In a project that satisfies the invariants of the data model,
    [getSelectedClip] finds nothing exactly when no clip is selected;
    otherwise it returns the one selected clip of the project, with the id of
    a track that holds it, and every other clip of the project is
    unselected. *)
Theorem selected_clip_is_the_selection (eps : Q) (st : Daw) :
  project_inv eps (projectState st) ->
  let p := projectState st in
  (getSelectedClip st = None <->
   forall x, x ∈ allClips (tracks p) -> isSelected x = false) /\
  (forall c tid,
     getSelectedClip st = Some (c, tid) ->
     isSelected c = true /\
     (exists track, track ∈ tracks p /\ id track = tid /\ c ∈ clips track) /\
     forall x, x ∈ allClips (tracks p) -> isSelected x = true -> x = c).
Proof.
  intros Hinv p. split.
  - split; [apply getSelectedClip_None_deselected|].
    intros Hall. apply (proj1 (getSelectedClip_spec st)).
    unfold selectedCount. fold p.
    rewrite (no_elements (List.filter isSelected (allClips (tracks p))));
      [reflexivity|].
    intros x Hx. apply list_elem_of_In, List.filter_In in Hx.
    destruct Hx as [Hx Hs]. rewrite (Hall x) in Hs; [discriminate|].
    apply list_elem_of_In. exact Hx.
  - intros c tid Hsel.
    destruct (proj2 (getSelectedClip_spec st) c tid Hsel)
      as (Hs & before & track & after & Hts & Hid & Hc & _).
    fold p in Hts.
    assert (Hc_all : c ∈ allClips (tracks p)).
    { rewrite Hts, allClips_app, allClips_cons. apply elem_of_app. right.
      apply elem_of_app. left. exact Hc. }
    split; [exact Hs|]. split.
    { exists track. split; [|auto]. rewrite Hts. apply elem_of_app. right.
      left. }
    intros x Hx Hxs. destruct Hinv as [_ _ _ _ Hcount _].
    fold p in Hcount. unfold selectedCount in Hcount.
    assert (H1 : In x (List.filter isSelected (allClips (tracks p))))
      by (apply List.filter_In; split; [apply list_elem_of_In|]; assumption).
    assert (H2 : In c (List.filter isSelected (allClips (tracks p))))
      by (apply List.filter_In; split; [apply list_elem_of_In|]; assumption).
    destruct (List.filter isSelected (allClips (tracks p))) as [|y [|z l]];
      simpl in *; [contradiction | | lia].
    destruct H1 as [<- | []], H2 as [<- | []]. reflexivity.
Qed.

Lemma selected_clip_is_the_selection_witness :
  project_inv (1 # 1000) (projectState example_daw) /\
  isSelected example_clip = true.
Proof.
  split; [exact example_project_inv|].
  exact (proj1 (proj2 (selected_clip_is_the_selection (1 # 1000) example_daw
                         example_project_inv)
                  example_clip 1%Z eq_refl)).
Defined.

(** ** The parameter effects after a rebuild *)

Lemma chain_nodes_other (L : list Effect) (s0 : Chain) key :
  key ∉ map effect_id L ->
  newEffectNodes (fold_left chainEffect L s0) !! key
  = newEffectNodes s0 !! key.
Proof.
  revert s0. induction L as [|e L IH]; intros s0 Hn; simpl; [reflexivity|].
  simpl in Hn. apply not_elem_of_cons in Hn. destruct Hn as [Hne Hn].
  rewrite IH by exact Hn. simpl. apply lookup_insert_ne. congruence.
Qed.

Lemma chain_nodes (L : list Effect) (s0 : Chain) j e :
  NoDup (map effect_id L) -> L !! j = Some e ->
  newEffectNodes (fold_left chainEffect L s0) !! effect_id e
  = Some (EffectNode (chain_allocated s0 + j)).
Proof.
  revert s0 j. induction L as [|e0 L IH]; intros s0 j Hnd Hj;
    [discriminate|].
  simpl in Hnd. apply NoDup_cons in Hnd. destruct Hnd as [Hn Hnd].
  destruct j as [|j]; simpl in Hj |- *.
  - injection Hj as ->. rewrite chain_nodes_other by exact Hn. simpl.
    rewrite lookup_insert_eq, Nat.add_0_r. reflexivity.
  - rewrite (IH (chainEffect s0 e0) j Hnd Hj). simpl.
    f_equal. f_equal. lia.
Qed.

(** X29. After the graph of a strip was rebuilt for a track whose effect ids are
    pairwise distinct, the effect-parameter effect addresses, for each effect
    of the track, the node that the rebuild created for that effect and wired
    at the effect's place in the chain, and no other node.  Every call is a
    smoothed [setTargetAtTime] with the time constant of 10 ms whose target is
    the effect's own parameter value: three calls for an EQ, five for a
    compressor, in the order of the effects.  The pan effect is the same kind
    of call, with target the track's pan. *)
Theorem param_effects_address_rebuilt_nodes
    (now : Q) (sourceNodes : gmap string SourceNode) (track : Track)
    (strip : Strip) :
  strip_wf strip -> NoDup (map effect_id (effects track)) ->
  let strip' := rebuildChain sourceNodes track strip in
  let node := chainNode (allocated strip) (length (effects track)) in
  (forall i e,
     effects track !! i = Some e ->
     effectNodesRef strip' !! effect_id e = Some (node i) /\
     effectParamCommands now strip' e
     = paramTargets now (node i) (effect_kind e)) /\
  effectParamsEffect now strip' track
  = concat (imap (fun i e => paramTargets now (node i) (effect_kind e))
              (effects track)) /\
  Forall (fun call => exists target,
                        call.2 = SetTargetAtTime target now RAMP_TIME)
    (effectParamsEffect now strip' track) /\
  panEffect now track = SetTargetAtTime (pan track) now (1 # 100).
Proof.
  intros Hwf Hnd strip' node.
  assert (Hone : forall i e,
             effects track !! i = Some e ->
             effectNodesRef strip' !! effect_id e = Some (node i) /\
             effectParamCommands now strip' e
             = paramTargets now (node i) (effect_kind e)).
  { intros i e He.
    pose proof (lookup_lt_Some _ _ _ He) as Hi.
    assert (Hnode : effectNodesRef strip' !! effect_id e = Some (node i)).
    { subst strip' node. unfold rebuildChain. cbv zeta. simpl effectNodesRef.
      rewrite chainNode_at by exact Hi.
      rewrite (chain_nodes (reverse (effects track)) _
                 (length (effects track) - 1 - i) e).
      - reflexivity.
      - assert (E : map effect_id (reverse (effects track))
                    = reverse (map effect_id (effects track)))
          by apply fmap_reverse.
        rewrite E.
        apply (NoDup_Permutation_proper _ _ (reverse_Permutation _)).
        exact Hnd.
      - rewrite reverse_lookup by lia.
        replace (length (effects track)
                 - S (length (effects track) - 1 - i))%nat with i by lia.
        exact He. }
    split; [exact Hnode|].
    unfold effectParamCommands. rewrite Hnode.
    subst strip' node.
    rewrite (rebuild_builtInto sourceNodes track strip i e Hwf He).
    destruct (effect_kind e); reflexivity. }
  split; [exact Hone|].
  assert (Hall : effectParamsEffect now strip' track
                 = concat (imap (fun i e =>
                                   paramTargets now (node i) (effect_kind e))
                             (effects track))).
  { unfold effectParamsEffect.
    assert (Hgen : forall (l : list Effect) (f : nat -> nat),
               (forall i e, l !! i = Some e ->
                            effectParamCommands now strip' e
                            = paramTargets now (node (f i)) (effect_kind e)) ->
               flat_map (effectParamCommands now strip') l
               = concat (imap (fun i e =>
                                 paramTargets now (node (f i)) (effect_kind e))
                           l)).
    { induction l as [|e l IH]; intros f Hf; simpl; [reflexivity|].
      rewrite (Hf 0%nat e eq_refl). f_equal.
      rewrite (IH (fun i => f (S i))); [reflexivity|].
      intros i e' He'. apply (Hf (S i) e' He'). }
    apply (Hgen (effects track) (fun i => i)).
    intros i e He. apply (Hone i e He). }
  split; [exact Hall|]. split; [|reflexivity].
  rewrite Hall. apply Forall_concat, Forall_forall.
  intros calls Hc. apply elem_of_lookup_imap in Hc.
  destruct Hc as (i & e & -> & _).
  destruct (effect_kind e); simpl; repeat constructor; simpl; eauto.
Qed.

Lemma param_effects_address_rebuilt_nodes_witness :
  strip_wf (connectMeter initialStrip) /\
  NoDup (map effect_id (effects effects_track)) /\
  length (effectParamsEffect 0
            (rebuildChain example_sources effects_track
               (connectMeter initialStrip)) effects_track) = 8%nat.
Proof.
  assert (Hwf : strip_wf (connectMeter initialStrip))
    by exact (connectMeter_wf _ initialStrip_wf).
  assert (Hnd : NoDup (map effect_id (effects effects_track))).
  { apply (bool_decide_unpack _). vm_compute. reflexivity. }
  split; [exact Hwf|]. split; [exact Hnd|].
  pose proof (param_effects_address_rebuilt_nodes 0 example_sources
                effects_track (connectMeter initialStrip) Hwf Hnd) as T.
  cbv zeta in T. destruct T as (_ & E & _).
  rewrite E. reflexivity.
Defined.

(** ** Mute *)

(** X30. Pressing mute on a track that is not muted, in a project with pairwise
    distinct track ids: the track is replaced by its muted version and no
    other track changes; whatever the solo state, the gain target of the
    muted track is 0, play starts none of its clips and the export schedules
    none of them; the gain targets of the other tracks are what they were.
    Pressing mute again restores the track list. *)
Theorem mute_silences_track (st : Daw) (a : Track)
    (before after : list Track) :
  tracks (projectState st) = before ++ a :: after ->
  NoDup (map id (tracks (projectState st))) ->
  isMuted a = false ->
  let st' := handleTrackChange (toggleMute a) st in
  let st'' := handleTrackChange (toggleMute (toggleMute a)) st' in
  tracks (projectState st') = before ++ toggleMute a :: after /\
  (forall anySoloed, targetGain anySoloed (toggleMute a) = 0) /\
  (forall buffers anySoloed pauseTime deviceNow,
     playTrack buffers anySoloed pauseTime deviceNow (toggleMute a) = []) /\
  (forall buffers anySoloed,
     exportTrack buffers anySoloed (toggleMute a) = []) /\
  isAnyTrackSoloed (projectState st') = isAnyTrackSoloed (projectState st) /\
  (forall t, t ∈ before ++ after ->
     targetGain (isAnyTrackSoloed (projectState st')) t
     = targetGain (isAnyTrackSoloed (projectState st)) t) /\
  tracks (projectState st'') = tracks (projectState st).
Proof.
  intros Hts Hnd Hm st' st''.
  assert (Hnew : tracks (projectState st') = before ++ toggleMute a :: after).
  { change (tracks (projectState st'))
      with (map (fun t => if decide (id t = id (toggleMute a))
                          then toggleMute a else t)
              (tracks (projectState st))).
    rewrite Hts in Hnd |- *. apply trackChange_at; [exact Hnd | reflexivity]. }
  assert (Hmuted : isMuted (toggleMute a) = true).
  { unfold toggleMute. simpl. rewrite Hm. reflexivity. }
  assert (Hinaudible : forall anySoloed,
             audible anySoloed (toggleMute a) = false).
  { intros anySoloed. unfold audible. rewrite Hmuted.
    destruct (bool_decide (trackType (toggleMute a) = audio)); reflexivity. }
  assert (Hsolo : isAnyTrackSoloed (projectState st')
                  = isAnyTrackSoloed (projectState st)).
  { unfold isAnyTrackSoloed. rewrite Hnew, Hts, !existsb_app. reflexivity. }
  split; [exact Hnew|]. split.
  { intros anySoloed. unfold targetGain. rewrite Hmuted. reflexivity. }
  split.
  { intros. unfold playTrack. rewrite Hinaudible. reflexivity. }
  split.
  { intros. unfold exportTrack. rewrite Hinaudible. reflexivity. }
  split; [exact Hsolo|]. split.
  { intros t _. rewrite Hsolo. reflexivity. }
  change (tracks (projectState st''))
    with (map (fun t => if decide (id t = id (toggleMute (toggleMute a)))
                        then toggleMute (toggleMute a) else t)
            (tracks (projectState st'))).
  rewrite Hnew, toggleMute_twice, Hts.
  apply trackChange_at; [|reflexivity].
  rewrite Hts in Hnd. rewrite map_app in Hnd |- *. exact Hnd.
Qed.

Lemma mute_silences_track_witness :
  tracks (projectState (handleTrackChange (toggleMute example_track)
                          two_track_daw))
  = [toggleMute example_track; set_clips [] (newTrackOf audio [example_track])].
Proof.
  assert (Hnd : NoDup (map id (tracks (projectState two_track_daw)))).
  { apply (bool_decide_unpack _). vm_compute. reflexivity. }
  exact (proj1 (mute_silences_track two_track_daw example_track []
                  [set_clips [] (newTrackOf audio [example_track])]
                  eq_refl Hnd eq_refl)).
Defined.
